(** * dorky: word normalisation and platform search dispatch

    A shallow embedding of [main.go].  Go strings are byte sequences and are
    modelled by [string] (a list of 8-bit characters); the word set
    [map[string]struct{}] is a [gset string]; the result files are a
    [gmap string string] from file name to content. *)

From Stdlib Require Import ZArith Ascii String Bool Lia.
From stdpp Require Import gmap strings list fin_maps pretty.

Local Open Scope stdpp_scope.

(** ** Byte strings *)

(** The line feed, Go's ["\n"]. *)
Definition LF : ascii := "010"%char.
Definition nl : string := String LF EmptyString.

Fixpoint str_drop (n : nat) (s : string) : string :=
  match n, s with
  | S n', String _ s' => str_drop n' s'
  | _, _ => s
  end.

Fixpoint str_take (n : nat) (s : string) : string :=
  match n, s with
  | S n', String c s' => String c (str_take n' s')
  | _, _ => EmptyString
  end.

Fixpoint str_prefixb (p s : string) : bool :=
  match p, s with
  | EmptyString, _ => true
  | String a p', String b s' => Ascii.eqb a b && str_prefixb p' s'
  | String _ _, EmptyString => false
  end.

Fixpoint str_rev_append (acc s : string) : string :=
  match acc with
  | EmptyString => s
  | String c acc' => str_rev_append acc' (String c s)
  end.

Fixpoint str_mem (c : ascii) (s : string) : bool :=
  match s with
  | EmptyString => false
  | String d s' => Ascii.eqb c d || str_mem c s'
  end.

(** ** Package [regexp]

    The two patterns of the program are interpreted by a backtracking
    matcher with Go's leftmost-first (Perl) preference order.  Both patterns
    only mention ASCII bytes, and no byte of a multi-byte UTF-8 sequence is
    an ASCII byte, so matching byte by byte agrees with matching rune by
    rune. *)
Module regexp.

Inductive Regexp : Type :=
| EmptyMatch
| Literal (c : ascii)
| CharClass (negated : bool) (members : string)
| BeginText
| Concat (r1 r2 : Regexp)
| Alternate (r1 r2 : Regexp)
| Quest (r : Regexp)
| Star (r : Regexp)
| Capture (i : nat) (r : Regexp).

(** [x+] is [xx*], as [regexp/syntax] simplifies it. *)
Definition Plus (r : Regexp) : Regexp := Concat r (Star r).

Fixpoint Lits (s : string) : Regexp :=
  match s with
  | EmptyString => EmptyMatch
  | String c s' => Concat (Literal c) (Lits s')
  end.

Definition orElse {R} (a b : option R) : option R :=
  match a with Some _ => a | None => b end.

Definition inClass (negated : bool) (members : string) (c : ascii) : bool :=
  xorb negated (str_mem c members).

(** The continuation of a match: where the input stands and what the
    groups hold. *)
Definition Cont (R : Type) : Type := nat → string → list string → option R.

(** Greedy iteration of [step]: one more non-empty round is preferred to
    stopping.  A round consumes at least one byte, so [fuel], the length of
    the input, is never exhausted before the input is. *)
Fixpoint starLoop {R} (step : nat → string → list string → Cont R → option R)
    (k : Cont R) (fuel : nat) (pos : nat) (s : string) (caps : list string)
    : option R :=
  match fuel with
  | O => k pos s caps
  | S fuel' =>
      orElse
        (step pos s caps
           (λ pos' s' caps',
              if Nat.eqb pos' pos then None else starLoop step k fuel' pos' s' caps'))
        (k pos s caps)
  end.

(** [backtrack re pos s caps k]: match [re] against [s], the part of the
    input that starts at byte offset [pos]; every way to match is offered
    to the continuation [k] in preference order, and the first one that
    [k] accepts wins. *)
Fixpoint backtrack {R} (re : Regexp) (pos : nat) (s : string) (caps : list string)
    (k : Cont R) : option R :=
  match re with
  | EmptyMatch => k pos s caps
  | Literal c =>
      match s with
      | String d s' => if Ascii.eqb c d then k (S pos) s' caps else None
      | EmptyString => None
      end
  | CharClass negated members =>
      match s with
      | String d s' => if inClass negated members d then k (S pos) s' caps else None
      | EmptyString => None
      end
  | BeginText => if Nat.eqb pos 0 then k pos s caps else None
  | Concat r1 r2 =>
      backtrack r1 pos s caps (λ pos' s' caps', backtrack r2 pos' s' caps' k)
  | Alternate r1 r2 =>
      orElse (backtrack r1 pos s caps k) (backtrack r2 pos s caps k)
  | Quest r => orElse (backtrack r pos s caps k) (k pos s caps)
  | Star r => starLoop (backtrack r) k (String.length s) pos s caps
  | Capture i r =>
      backtrack r pos s caps
        (λ pos' s' caps', k pos' s' (<[i := str_take (pos' - pos) s]> caps'))
  end.

Record Compiled := MustCompile { prog : Regexp; numSubexp : nat }.

(** The continuation at the end of the pattern: the match stands. *)
Definition accept : Cont (nat * list string) :=
  λ pos' _ caps', Some (pos', caps').

(** The leftmost match at or after [pos]: its bounds and its groups,
    group 0 being the whole match. *)
Fixpoint doExecute (re : Compiled) (pos : nat) (s : string)
    : option (nat * nat * list string) :=
  match
    backtrack (prog re) pos s (replicate (S (numSubexp re)) EmptyString) accept
  with
  | Some (e, caps) => Some (pos, e, <[0 := str_take (e - pos) s]> caps)
  | None =>
      match s with
      | EmptyString => None
      | String _ s' => doExecute re (S pos) s'
      end
  end.

(** [FindStringSubmatch]: the groups of the leftmost match, the empty
    slice ([nil]) when there is none. *)
Definition FindStringSubmatch (re : Compiled) (s : string) : list string :=
  match doExecute re 0 s with
  | Some (_, _, caps) => caps
  | None => []
  end.

(** [ReplaceAllString] for a replacement without [$]: successive
    non-overlapping leftmost matches are replaced; a match of the empty
    string directly after another match is not replaced.  [justMatched]
    says whether a match ended at [pos]. *)
Fixpoint replaceAll (fuel : nat) (re : Compiled) (repl : string)
    (pos : nat) (justMatched : bool) (s : string) : string :=
  match fuel with
  | O => s
  | S fuel' =>
      match doExecute re pos s with
      | None => s
      | Some (b, e, _) =>
          let pre := str_take (b - pos) s in
          if Nat.eqb e b then
            let emit := if justMatched && Nat.eqb b pos then EmptyString else repl in
            match str_drop (b - pos) s with
            | EmptyString => pre +:+ emit
            | String c s' =>
                pre +:+ emit +:+ String c (replaceAll fuel' re repl (S b) false s')
            end
          else
            pre +:+ repl +:+ replaceAll fuel' re repl e true (str_drop (e - pos) s)
      end
  end.

Definition ReplaceAllString (re : Compiled) (src repl : string) : string :=
  replaceAll (S (String.length src)) re repl 0 false src.

End regexp.

(** ** Package [strings] *)
Module strings.

(** [Split s sep] for a non-empty separator: the pieces of [s] between the
    successive occurrences of [sep], found left to right.  [skip] counts
    the bytes of an occurrence that are still to be passed over, [cur] is
    the current piece, reversed. *)
Fixpoint genSplit (sep : string) (skip : nat) (cur : string) (s : string)
    : list string :=
  match s with
  | EmptyString => [str_rev_append cur EmptyString]
  | String c s' =>
      match skip with
      | S skip' => genSplit sep skip' cur s'
      | O =>
          if str_prefixb sep s
          then str_rev_append cur EmptyString
                 :: genSplit sep (String.length sep - 1) EmptyString s'
          else genSplit sep 0 (String c cur) s'
      end
  end.

Definition Split (s sep : string) : list string := genSplit sep 0 EmptyString s.

End strings.

(** ** The program *)

Record config := {
  orgFlag : bool;
  repoFlag : bool;
  userFlag : bool;
  maxFlag : Z;
  cleanFlag : bool;
  ghOnlyFlag : bool;
  glOnlyFlag : bool;
  simpleFlag : bool;
  verboseFlag : bool
}.

Import regexp.

(** [([^/]+)] and [(?:www\.)?([^/]+)], the tail of the host pattern. *)
Definition hostGroup : Regexp := Capture 1 (Plus (CharClass true "/")).
Definition wwwHost : Regexp := Concat (Quest (Lits "www.")) hostGroup.

(** [^https?://(?:www\.)?([^/]+)] *)
Definition urlRegexp : Compiled :=
  MustCompile
    (Concat BeginText
      (Concat (Lits "http")
        (Concat (Quest (Literal "s"))
          (Concat (Lits "://") wwwHost))))
    1.

(** [\s] is [[\t\n\f\r ]]. *)
Definition perlSpace : string :=
  String "009" (String "010" (String "012" (String "013" (String " " EmptyString)))).

(** [\s+] *)
Definition spaceRegexp : Compiled :=
  MustCompile (Plus (CharClass false perlSpace)) 0.

Definition cleanWord (word : string) : string :=
  let match_ := FindStringSubmatch urlRegexp word in
  if Nat.ltb 1 (length match_) then nth 1 match_ EmptyString else word.

Definition removeWhitespace (word : string) : string :=
  let removedSpaces := ReplaceAllString spaceRegexp word EmptyString in
  let withHyphens := ReplaceAllString spaceRegexp word "-" in
  removedSpaces +:+ nl +:+ withHyphens.

Definition addWordToMap (words : gset string) (word : string) : gset string :=
  if decide (word ∈ words) then words else {[word]} ∪ words.

Definition processWord (word : string) (words : gset string) (cfg : config)
    : gset string :=
  let word := if cleanFlag cfg then cleanWord word else word in
  let words := addWordToMap words word in
  let word := removeWhitespace word in
  let wordLines := strings.Split word nl in
  foldl addWordToMap words wordLines.

(** ** The outside world

    What the program reads from its surroundings is collected in [Env]: the
    process environment, the answers of the two remote services, whether a
    file can be created, the order in which [range] walks the word map, and
    the package-level variable [flags], which is only written by
    [flag.Parse] before [main] looks at it.  What the program changes is
    the [World]: the unread lines of standard input, the result files, and
    the chronological [trace] of what it printed, which search function it
    entered, which remote request it sent and when it waited on the rate
    limiter of the GitHub client. *)

Inductive Endpoint : Type :=
| Search_Users
| Search_Repositories
| Groups_ListGroups
| Users_ListUsers
| Projects_ListProjects.

Record Request := {
  endpoint : Endpoint;
  token : string;
  query : string;
  perPage : Z
}.

Inductive Func : Type :=
| F_searchGitHub
| F_searchGitHubOrganizations
| F_searchGitHubRepositories
| F_searchGitHubUsers
| F_searchGitLab
| F_searchGitLabGroupsAndUsers
| F_searchGitLabProjects.

Inductive Platform : Type := GitHub | GitLab.

Definition funcPlatform (f : Func) : Platform :=
  match f with
  | F_searchGitHub | F_searchGitHubOrganizations
  | F_searchGitHubRepositories | F_searchGitHubUsers => GitHub
  | F_searchGitLab | F_searchGitLabGroupsAndUsers | F_searchGitLabProjects => GitLab
  end.

Definition endpointPlatform (e : Endpoint) : Platform :=
  match e with
  | Search_Users | Search_Repositories => GitHub
  | Groups_ListGroups | Users_ListUsers | Projects_ListProjects => GitLab
  end.

Inductive Event : Type :=
| Print (s : string)
| Enter (f : Func) (arg : string)
| Call (r : Request)
| LimiterWait.

Record Env := {
  getenv : string → string;
  remote : Request → string + list string;
  createErr : string → option string;
  newClientErr : string → option string;
  rangeOrder : gset string → list string;
  TrimSpace : string → string;
  stdinErr : option string;
  flags : config
}.

Record World := {
  stdin : list string;
  trace : list Event;
  files : gmap string string
}.

Inductive Outcome (A : Type) : Type :=
| Done (a : A)
| Exited (code : Z).
Arguments Done {A} a.
Arguments Exited {A} code.

(** A computation reads the environment, changes the world, and either
    returns or ends the process with [os.Exit]. *)
Definition Go (A : Type) : Type := Env → World → Outcome A * World.

#[global] Instance Go_ret : MRet Go := λ A a _ w, (Done a, w).

#[global] Instance Go_bind : MBind Go := λ A B f m E w,
  match m E w with
  | (Done a, w') => f a E w'
  | (Exited code, w') => (Exited code, w')
  end.

Definition ask : Go Env := λ E w, (Done E, w).

Definition emit (e : Event) : Go unit := λ _ w,
  (Done tt, {| stdin := stdin w; trace := trace w ++ [e]; files := files w |}).

Definition os_Exit {A} (code : Z) : Go A := λ _ w, (Exited code, w).

Definition Printf (s : string) : Go unit := emit (Print s).
Definition Println (s : string) : Go unit := emit (Print (s +:+ nl)).

(** [os.Create]: the file is created or truncated; the handle is its name. *)
Definition os_Create (name : string) : Go (string + string) := λ E w,
  match createErr E name with
  | Some err => (Done (inl err), w)
  | None =>
      (Done (inr name),
       {| stdin := stdin w; trace := trace w;
          files := <[name := EmptyString]> (files w) |})
  end.

(** [f.WriteString]: appends to the file; the program ignores its result. *)
Definition WriteString (f : string) (s : string) : Go unit := λ _ w,
  (Done tt,
   {| stdin := stdin w; trace := trace w;
      files := <[f := default EmptyString (files w !! f) +:+ s]> (files w) |}).

(** A remote call through the GitLab client library: the request goes
    out, the service answers with an error or with the items it found.  (A
    call of the GitHub client goes through [github_Do] below.)  Of
    an item the program only reads its name ([Login], [FullName],
    [FullPath], [Username] or [PathWithNamespace]), so an answer is the
    list of these names; the names are taken to be present, as the program
    takes them to be when it dereferences [*org.Login]. *)
Definition roundTrip (r : Request) : Go (string + list string) :=
  emit (Call r) ;; E ← ask; mret (remote E r).

(** ** The rate-limited transport

    [http.RoundTripper] is an interface; a transport acts on some state
    [S] and answers a request with a response or an error.  A
    [rate.Limiter] is seen through its [Wait], which changes the state and
    may fail. *)
Module http.

Class RoundTripper (Req Resp Err S T : Type) :=
  RoundTrip : T → Req → S → (Err + Resp) * S.

End http.

Module rate.

Record Limiter (Err S : Type) := { Wait : S → option Err * S }.
Arguments Wait {Err S} _ _.

(** [rate.Limit], by the interval between two events. *)
Inductive Limit : Type := Inf | Interval (d : Z).

Definition Every (interval : Z) : Limit :=
  if (interval <=? 0)%Z then Inf else Interval interval.

(** [rate.NewLimiter r b] under [Wait(context.Background())].  The context
    is never cancelled and has no deadline: the wait is refused at once
    when the rate is finite and the burst is below the one token asked for,
    and otherwise blocks until the token is there and returns nil.  The
    call is recorded in the trace; how long it blocks is not. *)
Definition NewLimiter (r : Limit) (b : Z) : Limiter string World :=
  {| Wait := λ w,
       let w' := {| stdin := stdin w; trace := trace w ++ [LimiterWait];
                    files := files w |} in
       match r with
       | Inf => (None, w')
       | Interval _ =>
           if (b <? 1)%Z
           then (Some ("rate: Wait(n=1) exceeds limiter's burst " +:+ pretty b), w')
           else (None, w')
       end |}.

End rate.

Record rateLimitedTransport (Err S T : Type) := {
  transport : T;
  limiter : rate.Limiter Err S
}.
Arguments transport {Err S T} _.
Arguments limiter {Err S T} _.

#[global] Instance rateLimitedTransport_RoundTrip {Req Resp Err S T}
    `{!http.RoundTripper Req Resp Err S T}
    : http.RoundTripper Req Resp Err S (rateLimitedTransport Err S T) :=
  λ t req s,
    match rate.Wait (limiter t) s with
    | (Some err, s') => (inl err, s')
    | (None, s') => http.RoundTrip (transport t) req s'
    end.

Module oauth2.

(** The transport of [oauth2.NewClient]: it puts the token of its source
    on the request and hands it to the default transport, which sends it
    and receives the answer of the service. *)
Record Transport := {
  Source : string;
  Base : Request → string + list string
}.

Definition authorised (t : Transport) (req : Request) : Request :=
  {| endpoint := endpoint req; token := Source t; query := query req;
     perPage := perPage req |}.

End oauth2.

#[global] Instance oauth2_Transport_RoundTrip
    : http.RoundTripper Request (list string) string World oauth2.Transport :=
  λ t req w,
    (oauth2.Base t (oauth2.authorised t req),
     {| stdin := stdin w; trace := trace w ++ [Call (oauth2.authorised t req)];
        files := files w |}).

(** All remaining lines of standard input, as the [scanner.Scan] loop
    consumes them. *)
Definition scanAll : Go (list string) := λ _ w,
  (Done (stdin w), {| stdin := []; trace := trace w; files := files w |}).

Fixpoint forEach {A} (l : list A) (body : A → Go unit) : Go unit :=
  match l with
  | [] => mret tt
  | x :: l' => body x ;; forEach l' body
  end.

(** The clients.  A [*github.Client] of this program is fixed by its
    token: [createGitHubClient] always gives it the same HTTP client, whose
    transport is [github_Transport] below. *)
Record github_Client := { gh_token : string }.
Record gitlab_Client := { gl_token : string }.

(** [tc.Transport] as [createGitHubClient] sets it: the transport of
    [oauth2.NewClient] over a static source of the token, inside the
    rate-limited wrapper, with the limiter of
    [rate.NewLimiter(rate.Every(10), 10)].  The service behind the default
    transport is the one of the environment. *)
Definition github_Transport (E : Env) (client : github_Client)
    : rateLimitedTransport string World oauth2.Transport :=
  {| transport := {| oauth2.Source := gh_token client; oauth2.Base := remote E |};
     limiter := rate.NewLimiter (rate.Every 10) 10 |}.

(** A call of the GitHub client library: the HTTP request goes through the
    transport of the client. *)
Definition github_Do (client : github_Client) (req : Request)
    : Go (string + list string) := λ E w,
  let '(resp, w') := http.RoundTrip (github_Transport E client) req w in
  (Done resp, w').

Definition verbosePrint (s : string) : Go unit :=
  E ← ask; if verboseFlag (flags E) then Printf s else mret tt.

Definition validateFlags (cfg : config) : Go unit :=
  (if negb (orgFlag cfg || repoFlag cfg || userFlag cfg) then
     Println "At least one search flag (-o, -r, or -u) must be specified" ;;
     os_Exit 1
   else mret tt) ;;
  verbosePrint ("Flags validated." +:+ nl).

Definition checkScannerError : Go unit :=
  E ← ask;
  match stdinErr E with
  | Some err => Printf ("Error reading stdin: " +:+ err +:+ nl) ;; os_Exit 1
  | None => mret tt
  end.

Definition readAndCleanWords (cfg : config) (args : list string) : Go (gset string) :=
  let words : gset string := ∅ in
  if Nat.ltb 0 (length args) then
    mret (foldl (λ words word, processWord word words cfg) words args)
  else
    E ← ask;
    lines ← scanAll;
    let words :=
      foldl (λ words line, processWord (TrimSpace E line) words cfg) words lines in
    checkScannerError ;;
    mret words.

Definition printResults (header : string) (results : list string) : Go unit :=
  E ← ask;
  if simpleFlag (flags E) then
    forEach results (λ result, Println result)
  else
    Printf (nl +:+ header +:+ ":" +:+ nl) ;;
    forEach results (λ result, Printf ("- " +:+ result +:+ nl)).

Definition searchGitHubOrganizations (client : github_Client) (query : string)
    (maxResults : Z) : Go unit :=
  emit (Enter F_searchGitHubOrganizations query) ;;
  r ← github_Do client {| endpoint := Search_Users; token := EmptyString;
                          query := "type:org " +:+ query; perPage := maxResults |};
  match r with
  | inl err => Printf ("Error searching organizations: " +:+ err +:+ nl)
  | inr orgLogins =>
      printResults ("GitHub organizations matching '" +:+ query +:+ "'") orgLogins ;;
      f ← os_Create "github_organizations.txt";
      match f with
      | inl err => Println err
      | inr f => forEach orgLogins (λ org, WriteString f (org +:+ nl))
      end
  end.

Definition searchGitHubRepositories (client : github_Client) (query : string)
    (maxResults : Z) : Go unit :=
  emit (Enter F_searchGitHubRepositories query) ;;
  r ← github_Do client {| endpoint := Search_Repositories; token := EmptyString;
                          query := query; perPage := maxResults |};
  match r with
  | inl err => Printf ("Error searching repositories: " +:+ err +:+ nl)
  | inr repoNames =>
      printResults ("GitHub repositories matching '" +:+ query +:+ "'") repoNames ;;
      f ← os_Create "github_repositories.txt";
      match f with
      | inl err => Println err
      | inr f => forEach repoNames (λ repo, WriteString f (repo +:+ nl))
      end
  end.

Definition searchGitHubUsers (client : github_Client) (query : string)
    (maxResults : Z) : Go unit :=
  emit (Enter F_searchGitHubUsers query) ;;
  r ← github_Do client {| endpoint := Search_Users; token := EmptyString;
                          query := "type:user " +:+ query; perPage := maxResults |};
  match r with
  | inl err => Printf ("Error searching users: " +:+ err +:+ nl)
  | inr userLogins =>
      printResults ("GitHub users matching '" +:+ query +:+ "'") userLogins ;;
      f ← os_Create "github_users.txt";
      match f with
      | inl err => Println err
      | inr f => forEach userLogins (λ user, WriteString f (user +:+ nl))
      end
  end.

Definition searchGitHub (client : option github_Client) (query : string)
    (cfg : config) : Go unit :=
  emit (Enter F_searchGitHub query) ;;
  match client with
  | None => mret tt
  | Some client =>
      (if orgFlag cfg then searchGitHubOrganizations client query (maxFlag cfg)
       else mret tt) ;;
      (if repoFlag cfg then searchGitHubRepositories client query (maxFlag cfg)
       else mret tt) ;;
      (if userFlag cfg then searchGitHubUsers client query (maxFlag cfg)
       else mret tt)
  end.

Definition searchGitLabGroupsAndUsers (client : gitlab_Client) (query : string)
    (maxResults : Z) : Go unit :=
  emit (Enter F_searchGitLabGroupsAndUsers query) ;;
  E ← ask;
  r ← roundTrip {| endpoint := Groups_ListGroups; token := gl_token client;
                   query := query; perPage := maxResults |};
  match r with
  | inl err => Printf ("Error searching GitLab groups: " +:+ err +:+ nl)
  | inr groupFullPaths =>
      let users :=
        r ← roundTrip {| endpoint := Users_ListUsers; token := gl_token client;
                         query := query; perPage := maxResults |};
        match r with
        | inl err => Printf ("Error searching GitLab users: " +:+ err +:+ nl)
        | inr userUsernames =>
            if userFlag (flags E) then
              printResults ("GitLab users matching '" +:+ query +:+ "'") userUsernames ;;
              f ← os_Create "gitlab_users.txt";
              match f with
              | inl err => Println err
              | inr f => forEach userUsernames (λ user, WriteString f (user +:+ nl))
              end
            else mret tt
        end in
      if orgFlag (flags E) then
        printResults ("GitLab groups matching '" +:+ query +:+ "'") groupFullPaths ;;
        f ← os_Create "gitlab_groups.txt";
        match f with
        | inl err => Println err
        | inr f =>
            forEach groupFullPaths (λ group, WriteString f (group +:+ nl)) ;;
            users
        end
      else users
  end.

Definition searchGitLabProjects (client : gitlab_Client) (query : string)
    (maxResults : Z) : Go unit :=
  emit (Enter F_searchGitLabProjects query) ;;
  r ← roundTrip {| endpoint := Projects_ListProjects; token := gl_token client;
                   query := query; perPage := maxResults |};
  match r with
  | inl err => Printf ("Error searching GitLab projects: " +:+ err +:+ nl)
  | inr projectFullPaths =>
      printResults ("GitLab projects matching '" +:+ query +:+ "'") projectFullPaths ;;
      f ← os_Create "gitlab_projects.txt";
      match f with
      | inl err => Println err
      | inr f => forEach projectFullPaths (λ project, WriteString f (project +:+ nl))
      end
  end.

Definition searchGitLab (client : option gitlab_Client) (query : string)
    (cfg : config) : Go unit :=
  emit (Enter F_searchGitLab query) ;;
  match client with
  | None => mret tt
  | Some client =>
      (if orgFlag cfg || userFlag cfg
       then searchGitLabGroupsAndUsers client query (maxFlag cfg)
       else mret tt) ;;
      (if repoFlag cfg then searchGitLabProjects client query (maxFlag cfg)
       else mret tt)
  end.

Definition createGitHubClient : Go (option github_Client * option string) :=
  E ← ask;
  let token := getenv E "GITHUB_ACCESS_TOKEN" in
  if decide (token = EmptyString) then
    mret (None, Some "GITHUB_ACCESS_TOKEN environment variable is not set")
  else
    mret (Some {| gh_token := token |}, None).

Definition createGitLabClient : Go (option gitlab_Client * option string) :=
  E ← ask;
  let token := getenv E "GITLAB_ACCESS_TOKEN" in
  if decide (token = EmptyString) then
    mret (None, Some "GITLAB_ACCESS_TOKEN environment variable is not set")
  else
    match newClientErr E token with
    | Some err => mret (None, Some err)
    | None => mret (Some {| gl_token := token |}, None)
    end.

Definition isNil {A} (err : option A) : bool :=
  match err with None => true | Some _ => false end.

Definition searchPlatforms (words : gset string) (cfg : config) : Go unit :=
  '(ghClient, ghErr) ← createGitHubClient;
  '(glClient, glErr) ← createGitLabClient;
  match ghErr with
  | Some err => Printf ("Error creating GitHub client: " +:+ err +:+ nl)
  | None => mret tt
  end ;;
  match glErr with
  | Some err => Printf ("Error creating GitLab client: " +:+ err +:+ nl)
  | None => mret tt
  end ;;
  E ← ask;
  forEach (rangeOrder E words) (λ word,
    (if negb (glOnlyFlag cfg) && isNil ghErr then
       verbosePrint ("Searching GitHub for word: " +:+ word +:+ nl) ;;
       searchGitHub ghClient word cfg
     else mret tt) ;;
    (if negb (ghOnlyFlag cfg) && isNil glErr then
       verbosePrint ("Searching GitLab for word: " +:+ word +:+ nl) ;;
       searchGitLab glClient word cfg
     else mret tt)).

(** [main], after [flag.Parse] has stored the flags in [flags] and left the
    positional arguments in [args]. *)
Definition main (args : list string) : Go unit :=
  E ← ask;
  validateFlags (flags E) ;;
  verbosePrint ("Reading and cleaning words..." +:+ nl) ;;
  words ← readAndCleanWords (flags E) args;
  verbosePrint ("Words cleaned." +:+ nl) ;;
  verbosePrint ("Searching platforms..." +:+ nl) ;;
  searchPlatforms words (flags E) ;;
  verbosePrint ("Platform search completed." +:+ nl).

(** The exit status of the process. *)
Definition exitCode {A} (o : Outcome A) : Z :=
  match o with Done _ => 0 | Exited code => code end.

(** ** Reference descriptions of the two patterns

    What the patterns do, said without a matcher; the matcher is proved to
    agree with these below. *)

Definition isSpace (c : ascii) : bool := regexp.inClass false perlSpace c.
Definition nonSpace (c : ascii) : bool := negb (isSpace c).
Definition notSlash (c : ascii) : bool := regexp.inClass true "/" c.

(** The length of the longest prefix of [s] whose bytes all satisfy [p]. *)
Fixpoint runLength (p : ascii → bool) (s : string) : nat :=
  match s with
  | EmptyString => 0
  | String c s' => if p c then S (runLength p s') else 0
  end.

(** Every maximal run of whitespace replaced by [repl]; [inRun] tells that
    the byte before [s] was whitespace. *)
Fixpoint replaceRuns (repl : string) (inRun : bool) (s : string) : string :=
  match s with
  | EmptyString => EmptyString
  | String c s' =>
      if isSpace c then
        if inRun then replaceRuns repl true s'
        else repl +:+ replaceRuns repl true s'
      else String c (replaceRuns repl false s')
  end.

(** All whitespace removed. *)
Fixpoint withoutSpaces (s : string) : string :=
  match s with
  | EmptyString => EmptyString
  | String c s' => if isSpace c then withoutSpaces s' else String c (withoutSpaces s')
  end.

(** Whitespace replaced with hyphens, one hyphen for a run. *)
Definition hyphenated (s : string) : string := replaceRuns "-" false s.

(** The token after an [http://] or [https://] prefix. *)
Definition afterScheme (w : string) : option string :=
  if str_prefixb "https://" w then Some (str_drop 8 w)
  else if str_prefixb "http://" w then Some (str_drop 7 w)
  else None.

(** The host part the pattern captures: after the scheme and, when
    something other than a slash follows it, after [www.], everything up to
    the first slash; there must be at least one such byte. *)
Definition hostOf (w : string) : option string :=
  match afterScheme w with
  | None => None
  | Some rest =>
      let rest' :=
        if str_prefixb "www." rest && Nat.ltb 0 (runLength notSlash (str_drop 4 rest))
        then str_drop 4 rest else rest in
      if Nat.ltb 0 (runLength notSlash rest')
      then Some (str_take (runLength notSlash rest') rest')
      else None
  end.

(** ** The effect of the search functions on the world

    Closed forms of what the procedures above do to the [World]; each is
    proved equal to its procedure below, and the properties of a run are
    then read off these forms. *)

Definition log (es : list Event) (w : World) : World :=
  {| stdin := stdin w; trace := trace w ++ es; files := files w |}.

Definition store (name content : string) (w : World) : World :=
  {| stdin := stdin w; trace := trace w; files := <[name := content]> (files w) |}.

(** One name per line. *)
Fixpoint unlines (names : list string) : string :=
  match names with
  | [] => EmptyString
  | name :: names' => (name +:+ nl) +:+ unlines names'
  end.

(** What [printResults] prints. *)
Definition resultLines (E : Env) (header : string) (results : list string)
    : list Event :=
  if simpleFlag (flags E) then
    map (λ result, Print (result +:+ nl)) results
  else
    Print (nl +:+ header +:+ ":" +:+ nl)
      :: map (λ result, Print ("- " +:+ result +:+ nl)) results.

(** Results printed and then saved to [file], when it can be created. *)
Definition reported (E : Env) (header file : string) (names : list string)
    (w : World) : World :=
  let w := log (resultLines E header names) w in
  match createErr E file with
  | Some err => log [Print (err +:+ nl)] w
  | None => store file (unlines names) w
  end.

(** What sending [r] adds to the trace: a GitHub request is sent after a
    wait on the limiter. *)
Definition sending (r : Request) : list Event :=
  match endpointPlatform (endpoint r) with
  | GitHub => [LimiterWait; Call r]
  | GitLab => [Call r]
  end.

(** The shape the three GitHub searches and the GitLab project search
    share: enter, send the request, then either print the diagnostic or
    report the names. *)
Definition afterSearch (E : Env) (f : Func) (arg : string) (r : Request)
    (diagnostic header file : string) (w : World) : World :=
  let w := log (Enter f arg :: sending r) w in
  match remote E r with
  | inl err => log [Print (diagnostic +:+ err +:+ nl)] w
  | inr names => reported E header file names w
  end.

Definition groupsRequest (client : gitlab_Client) (q : string) (n : Z) : Request :=
  {| endpoint := Groups_ListGroups; token := gl_token client; query := q; perPage := n |}.

Definition usersRequest (client : gitlab_Client) (q : string) (n : Z) : Request :=
  {| endpoint := Users_ListUsers; token := gl_token client; query := q; perPage := n |}.

(** The user half of [searchGitLabGroupsAndUsers]. *)
Definition afterGitLabUsers (E : Env) (client : gitlab_Client) (q : string) (n : Z)
    (w : World) : World :=
  let w := log [Call (usersRequest client q n)] w in
  match remote E (usersRequest client q n) with
  | inl err => log [Print ("Error searching GitLab users: " +:+ err +:+ nl)] w
  | inr names =>
      if userFlag (flags E)
      then reported E ("GitLab users matching '" +:+ q +:+ "'") "gitlab_users.txt" names w
      else w
  end.

Definition afterGitLabGroupsAndUsers (E : Env) (client : gitlab_Client) (q : string)
    (n : Z) (w : World) : World :=
  let w := log [Enter F_searchGitLabGroupsAndUsers q; Call (groupsRequest client q n)] w in
  match remote E (groupsRequest client q n) with
  | inl err => log [Print ("Error searching GitLab groups: " +:+ err +:+ nl)] w
  | inr names =>
      if orgFlag (flags E) then
        let w := reported E ("GitLab groups matching '" +:+ q +:+ "'")
                   "gitlab_groups.txt" names w in
        match createErr E "gitlab_groups.txt" with
        | Some _ => w
        | None => afterGitLabUsers E client q n w
        end
      else afterGitLabUsers E client q n w
  end.

Definition orgsRequest (client : github_Client) (q : string) (n : Z) : Request :=
  {| endpoint := Search_Users; token := gh_token client;
     query := "type:org " +:+ q; perPage := n |}.

Definition reposRequest (client : github_Client) (q : string) (n : Z) : Request :=
  {| endpoint := Search_Repositories; token := gh_token client;
     query := q; perPage := n |}.

Definition ghUsersRequest (client : github_Client) (q : string) (n : Z) : Request :=
  {| endpoint := Search_Users; token := gh_token client;
     query := "type:user " +:+ q; perPage := n |}.

Definition projectsRequest (client : gitlab_Client) (q : string) (n : Z) : Request :=
  {| endpoint := Projects_ListProjects; token := gl_token client;
     query := q; perPage := n |}.

Definition afterGitHubOrganizations E client q n : World → World :=
  afterSearch E F_searchGitHubOrganizations q (orgsRequest client q n)
    "Error searching organizations: "
    ("GitHub organizations matching '" +:+ q +:+ "'") "github_organizations.txt".

Definition afterGitHubRepositories E client q n : World → World :=
  afterSearch E F_searchGitHubRepositories q (reposRequest client q n)
    "Error searching repositories: "
    ("GitHub repositories matching '" +:+ q +:+ "'") "github_repositories.txt".

Definition afterGitHubUsers E client q n : World → World :=
  afterSearch E F_searchGitHubUsers q (ghUsersRequest client q n)
    "Error searching users: "
    ("GitHub users matching '" +:+ q +:+ "'") "github_users.txt".

Definition afterGitLabProjects E client q n : World → World :=
  afterSearch E F_searchGitLabProjects q (projectsRequest client q n)
    "Error searching GitLab projects: "
    ("GitLab projects matching '" +:+ q +:+ "'") "gitlab_projects.txt".

Definition when (b : bool) (f : World → World) (w : World) : World :=
  if b then f w else w.

Definition afterGitHub (E : Env) (client : option github_Client) (q : string)
    (cfg : config) (w : World) : World :=
  let w := log [Enter F_searchGitHub q] w in
  match client with
  | None => w
  | Some client =>
      when (userFlag cfg) (afterGitHubUsers E client q (maxFlag cfg))
        (when (repoFlag cfg) (afterGitHubRepositories E client q (maxFlag cfg))
          (when (orgFlag cfg) (afterGitHubOrganizations E client q (maxFlag cfg)) w))
  end.

Definition afterGitLab (E : Env) (client : option gitlab_Client) (q : string)
    (cfg : config) (w : World) : World :=
  let w := log [Enter F_searchGitLab q] w in
  match client with
  | None => w
  | Some client =>
      when (repoFlag cfg) (afterGitLabProjects E client q (maxFlag cfg))
        (when (orgFlag cfg || userFlag cfg)
           (afterGitLabGroupsAndUsers E client q (maxFlag cfg)) w)
  end.

Definition verboseLine (E : Env) (s : string) : list Event :=
  if verboseFlag (flags E) then [Print s] else [].

(** The clients [searchPlatforms] obtains, with the errors. *)
Definition ghClientOf (E : Env) : option github_Client * option string :=
  if decide (getenv E "GITHUB_ACCESS_TOKEN" = EmptyString)
  then (None, Some "GITHUB_ACCESS_TOKEN environment variable is not set")
  else (Some {| gh_token := getenv E "GITHUB_ACCESS_TOKEN" |}, None).

Definition glClientOf (E : Env) : option gitlab_Client * option string :=
  if decide (getenv E "GITLAB_ACCESS_TOKEN" = EmptyString)
  then (None, Some "GITLAB_ACCESS_TOKEN environment variable is not set")
  else match newClientErr E (getenv E "GITLAB_ACCESS_TOKEN") with
       | Some err => (None, Some err)
       | None => (Some {| gl_token := getenv E "GITLAB_ACCESS_TOKEN" |}, None)
       end.

Definition clientErrors (E : Env) : list Event :=
  match (ghClientOf E).2 with
  | Some err => [Print ("Error creating GitHub client: " +:+ err +:+ nl)]
  | None => []
  end ++
  match (glClientOf E).2 with
  | Some err => [Print ("Error creating GitLab client: " +:+ err +:+ nl)]
  | None => []
  end.

(** One round of the loop of [searchPlatforms]. *)
Definition afterWord (E : Env) (cfg : config) (word : string) (w : World) : World :=
  let w :=
    when (negb (glOnlyFlag cfg) && isNil (ghClientOf E).2)
      (λ w, afterGitHub E (ghClientOf E).1 word cfg
              (log (verboseLine E ("Searching GitHub for word: " +:+ word +:+ nl)) w))
      w in
  when (negb (ghOnlyFlag cfg) && isNil (glClientOf E).2)
    (λ w, afterGitLab E (glClientOf E).1 word cfg
            (log (verboseLine E ("Searching GitLab for word: " +:+ word +:+ nl)) w))
    w.

Definition afterPlatforms (E : Env) (words : gset string) (cfg : config)
    (w : World) : World :=
  foldl (λ w word, afterWord E cfg word w) (log (clientErrors E) w)
    (rangeOrder E words).

(** ** Vocabulary of the claims *)

Inductive Category : Type := Organizations | Repositories | Users.

Definition outputFile (p : Platform) (c : Category) : string :=
  match p, c with
  | GitHub, Organizations => "github_organizations.txt"
  | GitHub, Repositories => "github_repositories.txt"
  | GitHub, Users => "github_users.txt"
  | GitLab, Organizations => "gitlab_groups.txt"
  | GitLab, Repositories => "gitlab_projects.txt"
  | GitLab, Users => "gitlab_users.txt"
  end.

(** The event is a search function of the platform being entered, a
    request to the platform being sent, or a wait on the limiter, which
    only the GitHub client has. *)
Definition touches (p : Platform) (e : Event) : Prop :=
  match e with
  | Print _ => False
  | Enter f _ => funcPlatform f = p
  | Call r => endpointPlatform (endpoint r) = p
  | LimiterWait => p = GitHub
  end.

Definition isPrint (e : Event) : Prop :=
  match e with Print _ => True | _ => False end.

(** The run takes [w] to [w'] and everything it adds to the trace
    satisfies [P]. *)
Definition extends (P : Event → Prop) (w w' : World) : Prop :=
  ∃ es, trace w' = trace w ++ es ∧ Forall P es.

Definition categoryFlag (c : Category) (cfg : config) : bool :=
  match c with
  | Organizations => orgFlag cfg
  | Repositories => repoFlag cfg
  | Users => userFlag cfg
  end.

(** The platform is searched at all: not excluded by the other platform's
    flag, and its client could be created. *)
Definition platformSearched (E : Env) (p : Platform) : bool :=
  match p with
  | GitHub => negb (glOnlyFlag (flags E)) && isNil (ghClientOf E).2
  | GitLab => negb (ghOnlyFlag (flags E)) && isNil (glClientOf E).2
  end.

Definition ghToken (E : Env) : string := getenv E "GITHUB_ACCESS_TOKEN".
Definition glToken (E : Env) : string := getenv E "GITLAB_ACCESS_TOKEN".

(** The request the search of the category sends for [word]. *)
Definition categoryRequest (E : Env) (p : Platform) (c : Category) (word : string)
    : Request :=
  let n := maxFlag (flags E) in
  match p, c with
  | GitHub, Organizations => orgsRequest {| gh_token := ghToken E |} word n
  | GitHub, Repositories => reposRequest {| gh_token := ghToken E |} word n
  | GitHub, Users => ghUsersRequest {| gh_token := ghToken E |} word n
  | GitLab, Organizations => groupsRequest {| gl_token := glToken E |} word n
  | GitLab, Repositories => projectsRequest {| gl_token := glToken E |} word n
  | GitLab, Users => usersRequest {| gl_token := glToken E |} word n
  end.

Definition answered (E : Env) (r : Request) : bool :=
  match remote E r with inr _ => true | inl _ => false end.

(** The call of the category search for [word] is reached.  On GitLab the
    user list is only asked for after the group search has answered and,
    when groups are wanted too, their file has been written. *)
Definition callReached (E : Env) (p : Platform) (c : Category) (word : string)
    : bool :=
  platformSearched E p && categoryFlag c (flags E) &&
  match p, c with
  | GitLab, Users =>
      answered E (categoryRequest E GitLab Organizations word)
      && (negb (orgFlag (flags E)) || isNil (createErr E "gitlab_groups.txt"))
  | _, _ => true
  end.

(** A successful call for the pair: the call is reached, the service
    answers with names, and the output file can be created.  The result is
    the names. *)
Definition successfulCall (E : Env) (p : Platform) (c : Category) (word : string)
    : option (list string) :=
  if callReached E p c word then
    match remote E (categoryRequest E p c word) with
    | inr names =>
        if isNil (createErr E (outputFile p c)) then Some names else None
    | inl _ => None
    end
  else None.

(** The names of the most recent successful call among the calls for
    [words], taken in order. *)
Definition lastSuccessful (E : Env) (p : Platform) (c : Category)
    (words : list string) : option (list string) :=
  foldl (λ acc word,
           match successfulCall E p c word with
           | Some names => Some names
           | None => acc
           end) None words.

(** The events keep to the limiter: every GitHub request comes right after
    a wait on the limiter, and every wait is followed at once by the GitHub
    request it admits. *)
Inductive paired : list Event → Prop :=
| paired_nil : paired []
| paired_print s es : paired es → paired (Print s :: es)
| paired_enter f arg es : paired es → paired (Enter f arg :: es)
| paired_gitlab r es :
    endpointPlatform (endpoint r) = GitLab → paired es → paired (Call r :: es)
| paired_github r es :
    endpointPlatform (endpoint r) = GitHub → paired es →
    paired (LimiterWait :: Call r :: es).

(** The run takes [w] to [w'] and what it adds to the trace keeps to the
    limiter. *)
Definition limited (w w' : World) : Prop :=
  ∃ es, trace w' = trace w ++ es ∧ paired es.

(** An event that is neither a wait nor a GitHub request. *)
Definition unlimited (e : Event) : Prop :=
  match e with
  | Print _ | Enter _ _ => True
  | Call r => endpointPlatform (endpoint r) = GitLab
  | LimiterWait => False
  end.

(** The step leaves the content of file [g] as it is. *)
Definition preserves (g : string) (step : World → World) : Prop :=
  ∀ w, files (step w) !! g = files w !! g.

(** What a successful report leaves in its file. *)
Definition written (E : Env) (file : string) (names : list string)
    (old : option string) : option string :=
  if isNil (createErr E file) then Some (unlines names) else old.

(** Everything the event shows of a platform is of platform [p]. *)
Definition only (p : Platform) (e : Event) : Prop :=
  match e with
  | Print _ => True
  | Enter f _ => funcPlatform f = p
  | Call r => endpointPlatform (endpoint r) = p
  | LimiterWait => p = GitHub
  end.

(** ** The effect of [main] *)

Definition anyCategory (cfg : config) : bool :=
  orgFlag cfg || repoFlag cfg || userFlag cfg.

(** The word set [readAndCleanWords] builds. *)
Definition inputWords (E : Env) (args : list string) (w : World) : gset string :=
  if Nat.ltb 0 (length args)
  then foldl (λ words word, processWord word words (flags E)) ∅ args
  else foldl (λ words line, processWord (TrimSpace E line) words (flags E)) ∅ (stdin w).

Definition usage : string :=
  "At least one search flag (-o, -r, or -u) must be specified".

(** The world once the words are read: progress lines, and standard input
    consumed when there are no arguments. *)
Definition afterReading (E : Env) (args : list string) (w : World) : World :=
  let w := log (verboseLine E ("Flags validated." +:+ nl)
                ++ verboseLine E ("Reading and cleaning words..." +:+ nl)) w in
  if Nat.ltb 0 (length args) then w
  else {| stdin := []; trace := trace w; files := files w |}.

Definition afterMain (E : Env) (args : list string) (w : World)
    : Outcome unit * World :=
  if negb (anyCategory (flags E)) then
    (Exited 1, log [Print (usage +:+ nl)] w)
  else if Nat.ltb 0 (length args) || isNil (stdinErr E) then
    (Done tt,
     log (verboseLine E ("Platform search completed." +:+ nl))
       (afterPlatforms E (inputWords E args w) (flags E)
          (log (verboseLine E ("Words cleaned." +:+ nl)
                ++ verboseLine E ("Searching platforms..." +:+ nl))
             (afterReading E args w))))
  else
    (Exited 1,
     log [Print ("Error reading stdin: " +:+ default EmptyString (stdinErr E) +:+ nl)]
       (afterReading E args w)).

(** The search function [searchPlatforms] calls for a platform. *)
Definition entry (p : Platform) : Func :=
  match p with GitHub => F_searchGitHub | GitLab => F_searchGitLab end.

(** "Only the call that failed is skipped", read from the other side: a
    call of an enabled category that is answered, and whose file can be
    created, has its names saved, whatever the other calls did.  Here for
    the last word the loop visits, so that no later call overwrites the
    file. *)
Definition answeredCallIsSaved (E : Env) (p : Platform) (c : Category) : Prop :=
  ∀ words l word names w,
    rangeOrder E words = l ++ [word] →
    platformSearched E p = true →
    categoryFlag c (flags E) = true →
    remote E (categoryRequest E p c word) = inr names →
    createErr E (outputFile p c) = None →
    files (searchPlatforms words (flags E) E w).2 !! outputFile p c
    = Some (unlines names).

(** ** Sample runs

    Concrete surroundings on which the statements below are exercised. *)

Definition sampleFlags (o r u gh gl : bool) : config :=
  {| orgFlag := o; repoFlag := r; userFlag := u; maxFlag := 10;
     cleanFlag := false; ghOnlyFlag := gh; glOnlyFlag := gl;
     simpleFlag := true; verboseFlag := false |}.

(** The GitLab group search fails with a server error, every other remote
    call answers. *)
Definition sampleRemote (r : Request) : string + list string :=
  match endpoint r with
  | Groups_ListGroups => inl "500 Internal Server Error"
  | Users_ListUsers => inr ["alice"]
  | Projects_ListProjects => inr ["acme/site"]
  | Search_Users => inr ["acme"]
  | Search_Repositories => inr ["acme/tool"; "acme/site"]
  end.

Definition sampleEnv (tokens : list (string * string)) (cfg : config) : Env :=
  {| getenv := λ k,
       default EmptyString (snd <$> find (λ kv, String.eqb (fst kv) k) tokens);
     remote := sampleRemote;
     createErr := λ _, None;
     newClientErr := λ _, None;
     rangeOrder := elements;
     TrimSpace := λ s, s;
     stdinErr := None;
     flags := cfg |}.

Definition gitlabTokenOnly : list (string * string) :=
  [("GITLAB_ACCESS_TOKEN", "glpat-1")].

Definition bothTokens : list (string * string) :=
  [("GITHUB_ACCESS_TOKEN", "ghp-1"); ("GITLAB_ACCESS_TOKEN", "glpat-1")].

Definition world0 : World := {| stdin := []; trace := []; files := ∅ |}.

(** ** Vocabulary of the further properties *)

Fixpoint str_forallb (p : ascii → bool) (s : string) : bool :=
  match s with
  | EmptyString => true
  | String c s' => p c && str_forallb p s'
  end.

(** The token as [processWord] stores it first: URL-cleaned when cleaning
    is on. *)
Definition cleaned (cfg : config) (token : string) : string :=
  if cleanFlag cfg then cleanWord token else token.

(** The forms a token contributes to the word set. *)
Definition variants (cfg : config) (token : string) : gset string :=
  {[cleaned cfg token; withoutSpaces (cleaned cfg token);
    hyphenated (cleaned cfg token)]}.

(** The requests among the events, in the order they are sent. *)
Fixpoint requestsOf (es : list Event) : list Request :=
  match es with
  | [] => []
  | Call r :: es' => r :: requestsOf es'
  | _ :: es' => requestsOf es'
  end.

(** The run takes [w] to [w'] and sends exactly the requests [rs] on the
    way, in this order. *)
Definition asks (rs : list Request) (w w' : World) : Prop :=
  requestsOf (trace w') = requestsOf (trace w) ++ rs.

Definition optional {A} (b : bool) (x : A) : list A := if b then [x] else [].

(** [searchGitLabGroupsAndUsers] gets as far as the user list: the group
    search has answered and, when groups are wanted, their file could be
    created. *)
Definition userListAsked (E : Env) (word : string) : bool :=
  answered E (categoryRequest E GitLab Organizations word)
  && (negb (orgFlag (flags E)) || isNil (createErr E "gitlab_groups.txt")).

(** The requests of one round of the loop of [searchPlatforms], for
    [word]: on each platform that is searched, one request for each
    category asked for, GitLab groups and users going together. *)
Definition roundRequests (E : Env) (word : string) : list Request :=
  (if platformSearched E GitHub then
     optional (orgFlag (flags E)) (categoryRequest E GitHub Organizations word)
     ++ optional (repoFlag (flags E)) (categoryRequest E GitHub Repositories word)
     ++ optional (userFlag (flags E)) (categoryRequest E GitHub Users word)
   else [])
  ++ (if platformSearched E GitLab then
        (if orgFlag (flags E) || userFlag (flags E) then
           categoryRequest E GitLab Organizations word
           :: optional (userListAsked E word) (categoryRequest E GitLab Users word)
         else [])
        ++ optional (repoFlag (flags E)) (categoryRequest E GitLab Repositories word)
      else []).

(** The text of the printed events, as it reaches standard output. *)
Fixpoint printedText (es : list Event) : string :=
  match es with
  | [] => EmptyString
  | Print s :: es' => s +:+ printedText es'
  | _ :: es' => printedText es'
  end.

(** The request [r] is one the program may send for [word]: one page of
    [maxFlag] items, with the token of its platform, for a platform that is
    not excluded and a category that is asked for.  (Groups and users of
    GitLab go together: either flag asks for both requests.) *)
Definition requestFor (E : Env) (word : string) (r : Request) : Prop :=
  perPage r = maxFlag (flags E) ∧
  match endpoint r with
  | Search_Users =>
      glOnlyFlag (flags E) = false ∧ token r = ghToken E ∧
      ((orgFlag (flags E) = true ∧ query r = "type:org " +:+ word)
       ∨ (userFlag (flags E) = true ∧ query r = "type:user " +:+ word))
  | Search_Repositories =>
      glOnlyFlag (flags E) = false ∧ token r = ghToken E ∧
      repoFlag (flags E) = true ∧ query r = word
  | Groups_ListGroups | Users_ListUsers =>
      ghOnlyFlag (flags E) = false ∧ token r = glToken E ∧
      orgFlag (flags E) || userFlag (flags E) = true ∧ query r = word
  | Projects_ListProjects =>
      ghOnlyFlag (flags E) = false ∧ token r = glToken E ∧
      repoFlag (flags E) = true ∧ query r = word
  end.

(** The six files the program writes. *)
Definition outputFiles : list string :=
  ["github_organizations.txt"; "github_repositories.txt"; "github_users.txt";
   "gitlab_groups.txt"; "gitlab_users.txt"; "gitlab_projects.txt"].

(** Two environments that differ at most in the output style, [-s] and
    [-v]. *)
Definition sameButStyle (E E' : Env) : Prop :=
  getenv E = getenv E' ∧ remote E = remote E' ∧ createErr E = createErr E'
  ∧ newClientErr E = newClientErr E' ∧ rangeOrder E = rangeOrder E'
  ∧ TrimSpace E = TrimSpace E' ∧ stdinErr E = stdinErr E'
  ∧ orgFlag (flags E) = orgFlag (flags E')
  ∧ repoFlag (flags E) = repoFlag (flags E')
  ∧ userFlag (flags E) = userFlag (flags E')
  ∧ maxFlag (flags E) = maxFlag (flags E')
  ∧ cleanFlag (flags E) = cleanFlag (flags E')
  ∧ ghOnlyFlag (flags E) = ghOnlyFlag (flags E')
  ∧ glOnlyFlag (flags E) = glOnlyFlag (flags E').

(** What is left of the events when the printed text is dropped. *)
Fixpoint unprinted (es : list Event) : list Event :=
  match es with
  | [] => []
  | Print _ :: es' => unprinted es'
  | e :: es' => e :: unprinted es'
  end.

(** More sample surroundings: standard input that breaks off, a file that
    cannot be created, a token GitLab's client rejects. *)
Definition brokenStdin (E : Env) : Env :=
  {| getenv := getenv E; remote := remote E; createErr := createErr E;
     newClientErr := newClientErr E; rangeOrder := rangeOrder E;
     TrimSpace := TrimSpace E;
     stdinErr := Some "bufio.Scanner: token too long";
     flags := flags E |}.


Definition rejectedToken (E : Env) : Env :=
  {| getenv := getenv E; remote := remote E; createErr := createErr E;
     newClientErr := λ _, Some "gitlab: invalid base URL";
     rangeOrder := rangeOrder E;
     TrimSpace := TrimSpace E; stdinErr := stdinErr E; flags := flags E |}.

(** Surroundings in which every remote call answers with one name. *)
Definition allAnswer (E : Env) : Env :=
  {| getenv := getenv E; remote := λ _, inr ["acme"];
     createErr := createErr E; newClientErr := newClientErr E;
     rangeOrder := rangeOrder E; TrimSpace := TrimSpace E;
     stdinErr := stdinErr E; flags := flags E |}.

(** The event, when it is a request, is one the program may send for one
    of the words. *)
Definition justified (E : Env) (words : list string) (e : Event) : Prop :=
  match e with
  | Call r => ∃ word, word ∈ words ∧ requestFor E word r
  | _ => True
  end.

(** The event, when it enters a search function, does so for [word]. *)
Definition about (word : string) (e : Event) : Prop :=
  match e with Enter _ arg => arg = word | _ => True end.

(** The events of one round of the loop, for [word]: first what shows of
    GitHub, then what shows of GitLab. *)
Definition roundOf (word : string) (seg : list Event * list Event) : Prop :=
  Forall (λ e, only GitHub e ∧ about word e) seg.1
  ∧ Forall (λ e, only GitLab e ∧ about word e) seg.2.

(** A transport like the one of the GitHub client, but with a limiter that
    holds no token at all, and a request to send through it. *)
Definition refusingTransport : rateLimitedTransport string World oauth2.Transport :=
  {| transport := {| oauth2.Source := "ghp-1"; oauth2.Base := sampleRemote |};
     limiter := rate.NewLimiter (rate.Every 10) 0 |}.

Definition sampleRequest : Request :=
  {| endpoint := Search_Repositories; token := EmptyString; query := "acme";
     perPage := 10 |}.

(** All three categories on both platforms, with the full headers and the
    progress lines. *)
Definition verboseFlags : config :=
  {| orgFlag := true; repoFlag := true; userFlag := true; maxFlag := 10;
     cleanFlag := false; ghOnlyFlag := false; glOnlyFlag := false;
     simpleFlag := false; verboseFlag := true |}.

(** Two worlds that agree on everything but the printed text. *)
Definition alike (w w' : World) : Prop :=
  stdin w = stdin w' ∧ files w = files w'
  ∧ unprinted (trace w) = unprinted (trace w').

(** * Properties *)

(** ** Byte strings *)

Lemma str_app_nil_l s : EmptyString +:+ s = s.
Proof. reflexivity. Qed.

Lemma str_app_cons c s t : String c s +:+ t = String c (s +:+ t).
Proof. reflexivity. Qed.

Lemma str_app_nil_r s : s +:+ EmptyString = s.
Proof. induction s as [|c s IH]; [done|]. by rewrite str_app_cons, IH. Qed.

Lemma str_app_assoc a b c : (a +:+ b) +:+ c = a +:+ (b +:+ c).
Proof.
  induction a as [|x a IH]; [done|]. by rewrite !str_app_cons, IH.
Qed.

(** ** The matcher *)

Section Matcher.
Import regexp.
Context {R : Type}.
Implicit Types (k : Cont R) (s : string) (pos : nat) (caps : list string).

(** A literal string matches exactly when it is a prefix. *)
Lemma backtrack_Lits lit pos s caps k :
  backtrack (Lits lit) pos s caps k =
  if str_prefixb lit s
  then k (pos + String.length lit) (str_drop (String.length lit) s) caps
  else None.
Proof.
  revert pos s; induction lit as [|a lit IH]; intros pos s; simpl.
  - by rewrite Nat.add_0_r.
  - destruct s as [|b s]; [done|]. simpl.
    destruct (Ascii.eqb a b); simpl; [|done].
    rewrite IH. by replace (S pos + String.length lit) with (pos + S (String.length lit)) by lia.
Qed.

(** Under a continuation that accepts whatever it is offered, the greedy
    iteration of a character class takes the whole run. *)
Lemma starLoop_class negated members k fuel pos s caps :
  (∀ pos' s' caps', is_Some (k pos' s' caps')) →
  String.length s ≤ fuel →
  starLoop (backtrack (CharClass negated members)) k fuel pos s caps =
  k (pos + runLength (inClass negated members) s)
    (str_drop (runLength (inClass negated members) s) s) caps.
Proof.
  intros Hk. revert pos s; induction fuel as [|fuel IH]; intros pos s Hlen.
  - destruct s; simpl in *; [|lia]. by rewrite Nat.add_0_r.
  - destruct s as [|c s]; simpl in *.
    + by rewrite Nat.add_0_r.
    + destruct (inClass negated members c); simpl.
      * assert (Hne : Nat.eqb (S pos) pos = false) by (apply Nat.eqb_neq; lia).
        simpl in Hne; rewrite Hne; clear Hne.
        rewrite IH by lia.
        replace (S pos + runLength (inClass negated members) s)
          with (pos + S (runLength (inClass negated members) s)) by lia.
        by destruct (Hk (pos + S (runLength (inClass negated members) s))
                        (str_drop (runLength (inClass negated members) s) s) caps)
          as [r ->].
      * by rewrite Nat.add_0_r.
Qed.

(** One or more bytes of a class, under an accepting continuation. *)
Lemma backtrack_Plus_class negated members k pos s caps :
  (∀ pos' s' caps', is_Some (k pos' s' caps')) →
  backtrack (Plus (CharClass negated members)) pos s caps k =
  if Nat.ltb 0 (runLength (inClass negated members) s)
  then k (pos + runLength (inClass negated members) s)
         (str_drop (runLength (inClass negated members) s) s) caps
  else None.
Proof.
  intros Hk. destruct s as [|c s]; [done|].
  change (backtrack (Plus (CharClass negated members)) pos (String c s) caps k)
    with (if inClass negated members c
          then starLoop (backtrack (CharClass negated members)) k
                 (String.length s) (S pos) s caps
          else None).
  cbn [runLength str_drop].
  destruct (inClass negated members c); [|done].
  rewrite starLoop_class by (done || lia). cbn [Nat.ltb Nat.leb str_drop].
  by replace (S pos + runLength (inClass negated members) s)
    with (pos + S (runLength (inClass negated members) s)) by lia.
Qed.

End Matcher.

Lemma doExecute_unfold re pos s :
  regexp.doExecute re pos s =
  match
    regexp.backtrack (regexp.prog re) pos s
      (replicate (S (regexp.numSubexp re)) EmptyString) regexp.accept
  with
  | Some (e, caps) => Some (pos, e, <[0 := str_take (e - pos) s]> caps)
  | None =>
      match s with
      | EmptyString => None
      | String _ s' => regexp.doExecute re (S pos) s'
      end
  end.
Proof. by destruct s. Qed.

(** ** The whitespace pattern *)

Lemma runLength_cons_true p c s :
  p c = true → runLength p (String c s) = S (runLength p s).
Proof. intros H. simpl. by rewrite H. Qed.

Lemma runLength_cons_false p c s :
  p c = false → runLength p (String c s) = 0.
Proof. intros H. simpl. by rewrite H. Qed.

Lemma nonSpace_true c : isSpace c = false → nonSpace c = true.
Proof. unfold nonSpace. by intros ->. Qed.

Lemma nonSpace_false c : isSpace c = true → nonSpace c = false.
Proof. unfold nonSpace. by intros ->. Qed.

(** The leftmost match of [\s+]: the first run of whitespace, whole. *)
Lemma doExecute_space pos s :
  regexp.doExecute spaceRegexp pos s =
  if Nat.ltb 0 (runLength isSpace (str_drop (runLength nonSpace s) s))
  then Some (pos + runLength nonSpace s,
             pos + runLength nonSpace s
               + runLength isSpace (str_drop (runLength nonSpace s) s),
             [str_take (runLength isSpace (str_drop (runLength nonSpace s) s))
                (str_drop (runLength nonSpace s) s)])
  else None.
Proof.
  revert pos; induction s as [|c s IH]; intros pos; [done|].
  rewrite doExecute_unfold.
  change (regexp.prog spaceRegexp) with (regexp.Plus (regexp.CharClass false perlSpace)).
  rewrite backtrack_Plus_class by (intros; eexists; done).
  change (regexp.inClass false perlSpace) with isSpace.
  destruct (isSpace c) eqn:Hc.
  - rewrite (runLength_cons_false nonSpace) by by apply nonSpace_false.
    cbn [str_drop]. rewrite (runLength_cons_true isSpace) by done.
    cbn [Nat.ltb Nat.leb]. rewrite !Nat.add_0_r. unfold regexp.accept.
    replace (pos + S (runLength isSpace s) - pos) with (S (runLength isSpace s)) by lia.
    done.
  - rewrite (runLength_cons_true nonSpace) by by apply nonSpace_true.
    rewrite (runLength_cons_false isSpace) by done.
    cbn [Nat.ltb Nat.leb str_drop]. rewrite IH.
    replace (S pos + runLength nonSpace s) with (pos + S (runLength nonSpace s)) by lia.
    done.
Qed.

Lemma replaceRuns_no_space repl s :
  runLength isSpace (str_drop (runLength nonSpace s) s) = 0 →
  replaceRuns repl false s = s.
Proof.
  induction s as [|c s IH]; [done|]. cbn [replaceRuns].
  destruct (isSpace c) eqn:Hc.
  - rewrite (runLength_cons_false nonSpace) by by apply nonSpace_false.
    cbn [str_drop]. by rewrite (runLength_cons_true isSpace).
  - rewrite (runLength_cons_true nonSpace) by by apply nonSpace_true.
    cbn [str_drop]. intros H. by rewrite IH.
Qed.

Lemma replaceRuns_in_run repl b s :
  replaceRuns repl true s =
  replaceRuns repl b (str_drop (runLength isSpace s) s).
Proof.
  induction s as [|c s IH]; [done|]. cbn [replaceRuns].
  destruct (isSpace c) eqn:Hc.
  - rewrite (runLength_cons_true isSpace) by done. by cbn [str_drop].
  - rewrite (runLength_cons_false isSpace) by done. cbn [str_drop replaceRuns].
    rewrite Hc. by destruct b.
Qed.

Lemma replaceRuns_first_run repl s :
  0 < runLength isSpace (str_drop (runLength nonSpace s) s) →
  replaceRuns repl false s =
  str_take (runLength nonSpace s) s +:+ repl +:+
  replaceRuns repl false
    (str_drop (runLength nonSpace s
               + runLength isSpace (str_drop (runLength nonSpace s) s)) s).
Proof.
  induction s as [|c s IH]; [cbn; lia|]. cbn [replaceRuns].
  destruct (isSpace c) eqn:Hc.
  - rewrite (runLength_cons_false nonSpace) by by apply nonSpace_false.
    cbn [str_drop str_take Nat.add]. rewrite (runLength_cons_true isSpace) by done.
    intros _. cbn [str_drop]. rewrite str_app_nil_l.
    by rewrite (replaceRuns_in_run repl false).
  - rewrite (runLength_cons_true nonSpace) by by apply nonSpace_true.
    cbn [str_drop str_take Nat.add]. intros Hn. rewrite str_app_cons.
    f_equal. by apply IH.
Qed.

Lemma str_drop_length n s : String.length (str_drop n s) ≤ String.length s.
Proof.
  revert s; induction n as [|n IH]; intros [|c s]; simpl; try lia.
  specialize (IH s). lia.
Qed.

Lemma str_drop_length_lt n s :
  0 < n → s ≠ EmptyString → String.length (str_drop n s) < String.length s.
Proof.
  intros Hn Hs. destruct n as [|n]; [lia|]. destruct s as [|c s]; [done|].
  simpl. pose proof (str_drop_length n s). lia.
Qed.

(** [ReplaceAllString] with [\s+] replaces every maximal run of
    whitespace. *)
Lemma replaceAll_space fuel repl pos justMatched s :
  String.length s < fuel →
  regexp.replaceAll fuel spaceRegexp repl pos justMatched s =
  replaceRuns repl false s.
Proof.
  revert pos justMatched s; induction fuel as [|fuel IH];
    intros pos justMatched s Hlen; [lia|].
  cbn [regexp.replaceAll]. rewrite doExecute_space.
  set (i := runLength nonSpace s).
  set (n := runLength isSpace (str_drop i s)).
  destruct (Nat.ltb 0 n) eqn:Hn.
  - apply Nat.ltb_lt in Hn.
    replace (Nat.eqb (pos + i + n) (pos + i)) with false
      by (symmetry; apply Nat.eqb_neq; lia).
    replace (pos + i - pos) with i by lia.
    replace (pos + i + n - pos) with (i + n) by lia.
    rewrite IH.
    + symmetry. by apply replaceRuns_first_run.
    + assert (s ≠ EmptyString) by (intros ->; cbn in n; lia).
      assert (0 < i + n) as Hin by lia.
      pose proof (str_drop_length_lt (i + n) s Hin H). lia.
  - apply Nat.ltb_ge in Hn. symmetry. apply replaceRuns_no_space. fold i n. lia.
Qed.

Lemma ReplaceAllString_space s repl :
  regexp.ReplaceAllString spaceRegexp s repl = replaceRuns repl false s.
Proof. unfold regexp.ReplaceAllString. apply replaceAll_space. lia. Qed.

Lemma replaceRuns_empty b s : replaceRuns EmptyString b s = withoutSpaces s.
Proof.
  revert b; induction s as [|c s IH]; intros b; [done|].
  cbn [replaceRuns withoutSpaces]. destruct (isSpace c).
  - destruct b; by rewrite ?str_app_nil_l, IH.
  - by rewrite IH.
Qed.

(** ** Splitting at line feeds *)

Lemma str_mem_app c a b : str_mem c (a +:+ b) = str_mem c a || str_mem c b.
Proof.
  induction a as [|x a IH]; [done|].
  rewrite str_app_cons. cbn [str_mem]. by rewrite IH, orb_assoc.
Qed.

Lemma replaceRuns_no_LF repl b s :
  str_mem LF repl = false → str_mem LF (replaceRuns repl b s) = false.
Proof.
  intros Hrepl. revert b; induction s as [|c s IH]; intros b; [done|].
  cbn [replaceRuns]. destruct (isSpace c) eqn:Hc.
  - destruct b; [done|]. by rewrite str_mem_app, Hrepl, IH.
  - cbn [str_mem]. rewrite IH, orb_false_r.
    apply Ascii.eqb_neq. intros <-. by vm_compute in Hc.
Qed.

Lemma genSplit_last cur s :
  str_mem LF s = false →
  strings.genSplit nl 0 cur s = [str_rev_append cur s].
Proof.
  revert cur; induction s as [|c s IH]; intros cur; [done|].
  cbn [str_mem]. intros [Hc Hs]%orb_false_elim.
  cbn [strings.genSplit nl str_prefixb]. rewrite Hc. cbn [andb].
  by rewrite IH.
Qed.

Lemma genSplit_piece cur a t :
  str_mem LF a = false →
  strings.genSplit nl 0 cur (a +:+ String LF t) =
  str_rev_append cur a :: strings.genSplit nl 0 EmptyString t.
Proof.
  revert cur; induction a as [|c a IH]; intros cur.
  - intros _. rewrite str_app_nil_l.
    cbn [strings.genSplit nl str_prefixb]. by rewrite Ascii.eqb_refl.
  - cbn [str_mem]. intros [Hc Ha]%orb_false_elim. rewrite str_app_cons.
    cbn [strings.genSplit nl str_prefixb]. rewrite Hc. cbn [andb].
    by rewrite IH.
Qed.

(** Two line-feed-free strings joined by a line feed split back into the
    two. *)
Lemma Split_two a b :
  str_mem LF a = false → str_mem LF b = false →
  strings.Split (a +:+ nl +:+ b) nl = [a; b].
Proof.
  intros Ha Hb. unfold strings.Split.
  change (nl +:+ b) with (String LF b).
  by rewrite genSplit_piece, genSplit_last.
Qed.

(** ** Word normalisation *)

Example removeWhitespace_phrase :
  removeWhitespace (String "009" " acme  corp") = "acmecorp" +:+ nl +:+ "-acme-corp".
Proof. reflexivity. Qed.

Example processWord_phrase :
  processWord "acme corp" ∅ (sampleFlags true false false false false)
  = {["acme corp"; "acmecorp"; "acme-corp"]}.
Proof. by vm_compute. Qed.

Example cleanWord_backtracks : cleanWord "https://www./x" = "www.".
Proof. reflexivity. Qed.

Example cleanWord_http : cleanWord "http://git.example.org:8080/a/b" = "git.example.org:8080".
Proof. reflexivity. Qed.

Example cleanWord_case_sensitive : cleanWord "HTTPS://example.com" = "HTTPS://example.com".
Proof. reflexivity. Qed.

Lemma removeWhitespace_lines word :
  strings.Split (removeWhitespace word) nl = [withoutSpaces word; hyphenated word].
Proof.
  unfold removeWhitespace. rewrite !ReplaceAllString_space.
  rewrite Split_two by by apply replaceRuns_no_LF.
  by rewrite replaceRuns_empty.
Qed.

Lemma addWordToMap_union (words : gset string) word :
  addWordToMap words word = words ∪ {[word]}.
Proof. unfold addWordToMap. case_decide; set_solver. Qed.

Lemma gset_size_union_le (X Y : gset string) : size (X ∪ Y) ≤ size X + size Y.
Proof.
  rewrite size_union_alt. apply Nat.add_le_mono_l, subseteq_size. set_solver.
Qed.

(** C1.  Whatever the token, [processWord] adds to the word set the token
    itself (URL-cleaned when cleaning is on), the token with all whitespace
    removed and the token with every run of whitespace replaced by a hyphen,
    and nothing else: at most three entries. *)
Theorem processWord_entries (word : string) (words : gset string) (cfg : config) :
  let base := if cleanFlag cfg then cleanWord word else word in
  processWord word words cfg
    = words ∪ {[base; withoutSpaces base; hyphenated base]}
  ∧ size (processWord word ∅ cfg) ≤ 3.
Proof.
  intros base.
  assert (∀ ws : gset string,
    processWord word ws cfg = ws ∪ {[base; withoutSpaces base; hyphenated base]})
    as Heq.
  { intros ws. unfold processWord. fold base. rewrite removeWhitespace_lines.
    cbn [foldl]. rewrite !addWordToMap_union. set_solver. }
  split; [apply Heq|]. rewrite Heq, (left_id_L ∅ (∪)).
  etrans; [apply gset_size_union_le|].
  etrans; [apply Nat.add_le_mono_r, gset_size_union_le|].
  rewrite !size_singleton. lia.
Qed.

(** ** The host pattern *)

Section Url.
Import regexp.

Lemma backtrack_hostGroup pos x caps :
  backtrack hostGroup pos x caps accept =
  if Nat.ltb 0 (runLength notSlash x)
  then Some (pos + runLength notSlash x,
             <[1 := str_take (runLength notSlash x) x]> caps)
  else None.
Proof.
  change (backtrack hostGroup pos x caps accept)
    with (backtrack (Plus (CharClass true "/")) pos x caps
            (λ pos' s' caps', accept pos' s' (<[1 := str_take (pos' - pos) x]> caps'))).
  rewrite backtrack_Plus_class by (intros; eexists; done).
  change (inClass true "/") with notSlash.
  destruct (Nat.ltb 0 (runLength notSlash x)); [|done].
  unfold accept.
  by replace (pos + runLength notSlash x - pos) with (runLength notSlash x) by lia.
Qed.

Lemma backtrack_wwwHost pos x caps :
  backtrack wwwHost pos x caps accept =
  if str_prefixb "www." x && Nat.ltb 0 (runLength notSlash (str_drop 4 x))
  then Some (pos + 4 + runLength notSlash (str_drop 4 x),
             <[1 := str_take (runLength notSlash (str_drop 4 x)) (str_drop 4 x)]> caps)
  else if Nat.ltb 0 (runLength notSlash x)
  then Some (pos + runLength notSlash x,
             <[1 := str_take (runLength notSlash x) x]> caps)
  else None.
Proof.
  change (backtrack wwwHost pos x caps accept)
    with (orElse
            (backtrack (Lits "www.") pos x caps
               (λ pos' s' caps', backtrack hostGroup pos' s' caps' accept))
            (backtrack hostGroup pos x caps accept)).
  rewrite backtrack_Lits, !backtrack_hostGroup.
  change (String.length "www.") with 4.
  destruct (str_prefixb "www." x); [|done]. cbn [andb].
  by destruct (Nat.ltb 0 (runLength notSlash (str_drop 4 x))).
Qed.

#[local] Arguments Ascii.eqb !_ !_ / : simpl nomatch.

Ltac split_byte :=
  match goal with
  | |- context [Ascii.eqb ?a ?c] =>
      is_var c;
      let E := fresh "E" in
      destruct (Ascii.eqb a c) eqn:E;
      [apply Ascii.eqb_eq in E; subst c|]; cbn
  | |- context [match ?w with EmptyString => _ | String _ _ => _ end] =>
      is_var w; destruct w; cbn
  end.

(** The scheme part of the pattern, in front of any rest [U] of the
    pattern: [https://] or [http://] at the very start. *)
Lemma backtrack_scheme (U : Regexp) w caps (k : Cont (nat * list string)) :
  backtrack
    (Concat BeginText
      (Concat (Lits "http")
        (Concat (Quest (Literal "s")) (Concat (Lits "://") U)))) 0 w caps k =
  if str_prefixb "https://" w then backtrack U 8 (str_drop 8 w) caps k
  else if str_prefixb "http://" w then backtrack U 7 (str_drop 7 w) caps k
  else None.
Proof.
  cbn. repeat split_byte; try done.
  by destruct (backtrack U 8 w caps k).
Qed.

(** The pattern is anchored: no match starts after the first byte. *)
Lemma doExecute_url_later s pos : doExecute urlRegexp (S pos) s = None.
Proof.
  revert pos; induction s as [|c s IH]; intros pos;
    rewrite doExecute_unfold; [done|]. by rewrite IH.
Qed.

(** [FindStringSubmatch] with the host pattern: the whole match and the
    host, or nothing. *)
Lemma FindStringSubmatch_url w :
  match hostOf w with
  | Some h => ∃ whole, FindStringSubmatch urlRegexp w = [whole; h]
  | None => FindStringSubmatch urlRegexp w = []
  end.
Proof.
  unfold FindStringSubmatch. rewrite doExecute_unfold.
  change (prog urlRegexp)
    with (Concat BeginText
           (Concat (Lits "http")
             (Concat (Quest (Literal "s")) (Concat (Lits "://") wwwHost)))).
  rewrite backtrack_scheme. rewrite !backtrack_wwwHost.
  assert (∀ s, match s with
               | EmptyString => None
               | String _ s' => doExecute urlRegexp 1 s'
               end = None) as Hlater.
  { intros [|c s]; [done|]. apply doExecute_url_later. }
  unfold hostOf, afterScheme.
  destruct (str_prefixb "https://" w);
    [|destruct (str_prefixb "http://" w); [|by rewrite Hlater]].
  all: match goal with
       | |- context [str_prefixb "www." ?x] => destruct (str_prefixb "www." x)
       end; cbn [andb].
  all: try match goal with
       | |- context [Nat.ltb 0 (runLength notSlash (str_drop 4 ?x))] =>
           destruct (Nat.ltb 0 (runLength notSlash (str_drop 4 x))) eqn:Hwww;
           cbv beta iota; rewrite ?Hwww
       end.
  all: repeat match goal with
       | |- context [Nat.ltb 0 ?n] => destruct (Nat.ltb 0 n)
       end.
  all: try rewrite Hlater; solve [done | by eexists].
Qed.

End Url.

(** URL cleaning returns the host the pattern captures, and the token
    itself when the pattern does not match. *)
Lemma cleanWord_hostOf w : cleanWord w = default w (hostOf w).
Proof.
  unfold cleanWord. pose proof (FindStringSubmatch_url w) as H.
  destruct (hostOf w) as [h|]; [destruct H as [whole ->] | rewrite H]; done.
Qed.

(** C3.  URL cleaning against the host pattern
    [^https?://(?:www\.)?([^/]+)]: when the pattern matches, the token is
    reduced to the first capturing group, which is the host part; when it
    does not match, the token is left as it is; a token that does not start
    with [http://] or [https://] is therefore returned unchanged, and
    [https://www.example.com/path] is cleaned to [example.com]. *)
Theorem cleanWord_first_group (w : string) :
  (regexp.FindStringSubmatch urlRegexp w ≠ [] →
     cleanWord w = nth 1 (regexp.FindStringSubmatch urlRegexp w) EmptyString
     ∧ hostOf w = Some (cleanWord w))
  ∧ (regexp.FindStringSubmatch urlRegexp w = [] → cleanWord w = w)
  ∧ (str_prefixb "http://" w = false → str_prefixb "https://" w = false →
     cleanWord w = w)
  ∧ cleanWord "https://www.example.com/path" = "example.com".
Proof.
  pose proof (FindStringSubmatch_url w) as Hm.
  pose proof (cleanWord_hostOf w) as Hc.
  repeat split.
  - unfold cleanWord in *. destruct (hostOf w) as [h|]; [|done].
    by destruct Hm as [whole ->].
  - rewrite Hc. destruct (hostOf w) as [h|]; [done|]. by rewrite Hm in H.
  - unfold cleanWord. by intros ->.
  - intros H1 H2. rewrite Hc. unfold hostOf, afterScheme. by rewrite H1, H2.
Qed.

Lemma cleanWord_first_group_witness :
  (cleanWord "http://www.a.io/x" = "a.io" ∧ hostOf "http://www.a.io/x" = Some "a.io")
  ∧ cleanWord "ftp://a.io/x" = "ftp://a.io/x"
  ∧ cleanWord "example.com" = "example.com".
Proof.
  split; [|split].
  - destruct (proj1 (cleanWord_first_group "http://www.a.io/x")) as [H1 H2].
    + vm_compute. discriminate.
    + split; [exact H1 | rewrite H2; reflexivity].
  - apply (proj1 (proj2 (cleanWord_first_group "ftp://a.io/x"))).
    vm_compute. reflexivity.
  - apply (proj1 (proj2 (proj2 (cleanWord_first_group "example.com"))));
      vm_compute; reflexivity.
Defined.

(** ** Running the procedures *)

Lemma World_eq (w w' : World) :
  stdin w = stdin w' → trace w = trace w' → files w = files w' → w = w'.
Proof. destruct w, w'; simpl; by intros -> -> ->. Qed.

Lemma log_nil w : log [] w = w.
Proof. apply World_eq; simpl; by rewrite ?app_nil_r. Qed.

Lemma log_log es1 es2 w : log es2 (log es1 w) = log (es1 ++ es2) w.
Proof. apply World_eq; simpl; by rewrite ?app_assoc. Qed.

Lemma bind_unfold {A B} (m : Go A) (f : A → Go B) E w :
  (m ≫= f) E w =
  match m E w with
  | (Done a, w') => f a E w'
  | (Exited code, w') => (Exited code, w')
  end.
Proof. reflexivity. Qed.

Lemma ret_run {A} (a : A) E w : (mret a : Go A) E w = (Done a, w).
Proof. reflexivity. Qed.

Lemma ask_run E w : ask E w = (Done E, w).
Proof. reflexivity. Qed.

Lemma emit_run e E w : emit e E w = (Done tt, log [e] w).
Proof. reflexivity. Qed.

Lemma Printf_run s E w : Printf s E w = (Done tt, log [Print s] w).
Proof. reflexivity. Qed.

Lemma Println_run s E w : Println s E w = (Done tt, log [Print (s +:+ nl)] w).
Proof. reflexivity. Qed.

Lemma roundTrip_run r E w : roundTrip r E w = (Done (remote E r), log [Call r] w).
Proof. reflexivity. Qed.

Lemma github_Do_run client req E w :
  let r := oauth2.authorised (transport (github_Transport E client)) req in
  github_Do client req E w = (Done (remote E r), log [LimiterWait; Call r] w).
Proof.
  intros r. unfold github_Do, log. cbn. by rewrite <- app_assoc.
Qed.

Lemma verbosePrint_run s E w :
  verbosePrint s E w = (Done tt, log (verboseLine E s) w).
Proof.
  unfold verbosePrint, verboseLine. rewrite bind_unfold, ask_run.
  destruct (verboseFlag (flags E)); [done|]. by rewrite ret_run, log_nil.
Qed.

(** Rewriting a procedure into its effect, one step at a time. *)
Ltac run_step :=
  first
    [ rewrite bind_unfold
    | rewrite ret_run
    | rewrite ask_run
    | rewrite emit_run
    | rewrite Printf_run
    | rewrite Println_run
    | rewrite roundTrip_run
    | rewrite verbosePrint_run ].

Ltac run := repeat (run_step; cbv beta iota).

Lemma forEach_print (g : string → string) l E w :
  forEach l (λ x, Printf (g x)) E w = (Done tt, log (map (λ x, Print (g x)) l) w).
Proof.
  revert w; induction l as [|x l IH]; intros w; cbn [forEach map].
  - by rewrite ret_run, log_nil.
  - run. by rewrite IH, log_log.
Qed.

Lemma printResults_run header results E w :
  printResults header results E w = (Done tt, log (resultLines E header results) w).
Proof.
  unfold printResults, resultLines. run.
  destruct (simpleFlag (flags E)).
  - apply (forEach_print (λ x, x +:+ nl)).
  - run. by rewrite (forEach_print (λ x, "- " +:+ x +:+ nl)), log_log.
Qed.

Lemma forEach_WriteString f content l E w :
  files w !! f = Some content →
  forEach l (λ x, WriteString f (x +:+ nl)) E w
  = (Done tt, store f (content +:+ unlines l) w).
Proof.
  revert w content; induction l as [|x l IH]; intros w content Hf; cbn [forEach unlines].
  - rewrite ret_run, str_app_nil_r. f_equal. apply World_eq; simpl; try done.
    by rewrite insert_id.
  - rewrite bind_unfold. unfold WriteString at 1. cbv beta iota.
    rewrite (IH _ (content +:+ x +:+ nl)).
    + f_equal. apply World_eq; simpl; try done.
      by rewrite insert_insert_eq, !str_app_assoc.
    + simpl. by rewrite Hf, lookup_insert_eq.
Qed.

(** Printing the results and saving them. *)
Lemma report_run header file names E w :
  (printResults header names ;;
   f ← os_Create file;
   match f with
   | inl err => Println err
   | inr f => forEach names (λ x, WriteString f (x +:+ nl))
   end) E w
  = (Done tt, reported E header file names w).
Proof.
  unfold reported. rewrite bind_unfold, printResults_run. cbv beta iota.
  rewrite bind_unfold. unfold os_Create.
  destruct (createErr E file) as [err|]; cbv beta iota.
  - by rewrite Println_run.
  - rewrite (forEach_WriteString _ EmptyString).
    + f_equal. apply World_eq; simpl; try done. by rewrite insert_insert_eq.
    + simpl. by rewrite lookup_insert_eq.
Qed.

Ltac run_search :=
  repeat (first [rewrite report_run | rewrite log_log | run_step]; cbv beta iota).

Lemma searchGitHubOrganizations_run client q n E w :
  searchGitHubOrganizations client q n E w
  = (Done tt, afterGitHubOrganizations E client q n w).
Proof.
  unfold searchGitHubOrganizations, afterGitHubOrganizations, afterSearch.
  rewrite bind_unfold, emit_run. cbv beta iota.
  rewrite bind_unfold, github_Do_run. cbv beta iota zeta.
  change (oauth2.authorised _ _) with (orgsRequest client q n). rewrite log_log.
  change (sending (orgsRequest client q n))
    with [LimiterWait; Call (orgsRequest client q n)].
  destruct (remote E (orgsRequest client q n)); by run_search.
Qed.

Lemma searchGitHubRepositories_run client q n E w :
  searchGitHubRepositories client q n E w
  = (Done tt, afterGitHubRepositories E client q n w).
Proof.
  unfold searchGitHubRepositories, afterGitHubRepositories, afterSearch.
  rewrite bind_unfold, emit_run. cbv beta iota.
  rewrite bind_unfold, github_Do_run. cbv beta iota zeta.
  change (oauth2.authorised _ _) with (reposRequest client q n). rewrite log_log.
  change (sending (reposRequest client q n))
    with [LimiterWait; Call (reposRequest client q n)].
  destruct (remote E (reposRequest client q n)); by run_search.
Qed.

Lemma searchGitHubUsers_run client q n E w :
  searchGitHubUsers client q n E w
  = (Done tt, afterGitHubUsers E client q n w).
Proof.
  unfold searchGitHubUsers, afterGitHubUsers, afterSearch.
  rewrite bind_unfold, emit_run. cbv beta iota.
  rewrite bind_unfold, github_Do_run. cbv beta iota zeta.
  change (oauth2.authorised _ _) with (ghUsersRequest client q n). rewrite log_log.
  change (sending (ghUsersRequest client q n))
    with [LimiterWait; Call (ghUsersRequest client q n)].
  destruct (remote E (ghUsersRequest client q n)); by run_search.
Qed.

Lemma searchGitLabProjects_run client q n E w :
  searchGitLabProjects client q n E w
  = (Done tt, afterGitLabProjects E client q n w).
Proof.
  unfold searchGitLabProjects, afterGitLabProjects, afterSearch.
  fold (projectsRequest client q n). run_search.
  change (sending (projectsRequest client q n))
    with [Call (projectsRequest client q n)].
  destruct (remote E (projectsRequest client q n)); by run_search.
Qed.

(** The same, with more to do after the file has been written. *)
Lemma report_then_run header file names (k : Go unit) E w :
  (printResults header names ;;
   f ← os_Create file;
   match f with
   | inl err => Println err
   | inr f => forEach names (λ x, WriteString f (x +:+ nl)) ;; k
   end) E w
  = match createErr E file with
    | Some _ => (Done tt, reported E header file names w)
    | None => k E (reported E header file names w)
    end.
Proof.
  unfold reported. rewrite bind_unfold, printResults_run. cbv beta iota.
  rewrite bind_unfold. unfold os_Create.
  destruct (createErr E file) as [err|]; cbv beta iota.
  - by rewrite Println_run.
  - rewrite bind_unfold, (forEach_WriteString _ EmptyString).
    + cbv beta iota. f_equal. apply World_eq; simpl; try done.
      by rewrite insert_insert_eq.
    + simpl. by rewrite lookup_insert_eq.
Qed.

Lemma searchGitLabGroupsAndUsers_run client q n E w :
  searchGitLabGroupsAndUsers client q n E w
  = (Done tt, afterGitLabGroupsAndUsers E client q n w).
Proof.
  assert (∀ w,
    (r ← roundTrip (usersRequest client q n);
     match r with
     | inl err => Printf ("Error searching GitLab users: " +:+ err +:+ nl)
     | inr userUsernames =>
         if userFlag (flags E) then
           printResults ("GitLab users matching '" +:+ q +:+ "'") userUsernames ;;
           f ← os_Create "gitlab_users.txt";
           match f with
           | inl err => Println err
           | inr f => forEach userUsernames (λ user, WriteString f (user +:+ nl))
           end
         else mret tt
     end) E w = (Done tt, afterGitLabUsers E client q n w)) as Husers.
  { intros w0. unfold afterGitLabUsers. rewrite bind_unfold, roundTrip_run.
    cbv beta iota.
    destruct (remote E (usersRequest client q n)) as [err|users]; [done|].
    destruct (userFlag (flags E)); [apply report_run | done]. }
  unfold searchGitLabGroupsAndUsers, afterGitLabGroupsAndUsers.
  fold (groupsRequest client q n) (usersRequest client q n). run_search.
  destruct (remote E (groupsRequest client q n)) as [err|groups]; [by run_search|].
  destruct (orgFlag (flags E)); [|apply Husers].
  rewrite report_then_run.
  destruct (createErr E "gitlab_groups.txt"); [done | apply Husers].
Qed.

Lemma when_run (b : bool) (m : Go unit) (f : World → World) E w :
  (∀ w, m E w = (Done tt, f w)) →
  (if b then m else mret tt) E w = (Done tt, when b f w).
Proof. intros H. destruct b; [apply H | done]. Qed.

Lemma searchGitHub_run client q cfg E w :
  searchGitHub client q cfg E w = (Done tt, afterGitHub E client q cfg w).
Proof.
  unfold searchGitHub, afterGitHub. run. destruct client as [client|]; [|done].
  rewrite bind_unfold,
    (when_run _ _ (afterGitHubOrganizations E client q (maxFlag cfg)))
    by (intros; apply searchGitHubOrganizations_run).
  cbv beta iota. rewrite bind_unfold,
    (when_run _ _ (afterGitHubRepositories E client q (maxFlag cfg)))
    by (intros; apply searchGitHubRepositories_run).
  cbv beta iota.
  by apply when_run; intros; apply searchGitHubUsers_run.
Qed.

Lemma searchGitLab_run client q cfg E w :
  searchGitLab client q cfg E w = (Done tt, afterGitLab E client q cfg w).
Proof.
  unfold searchGitLab, afterGitLab. run. destruct client as [client|]; [|done].
  rewrite bind_unfold,
    (when_run _ _ (afterGitLabGroupsAndUsers E client q (maxFlag cfg)))
    by (intros; apply searchGitLabGroupsAndUsers_run).
  cbv beta iota.
  by apply when_run; intros; apply searchGitLabProjects_run.
Qed.

Lemma forEach_run {A} (body : A → Go unit) (step : A → World → World) l E w :
  (∀ x w, body x E w = (Done tt, step x w)) →
  forEach l body E w = (Done tt, foldl (λ w x, step x w) w l).
Proof.
  intros H. revert w; induction l as [|x l IH]; intros w; cbn [forEach foldl].
  - done.
  - by rewrite bind_unfold, H, IH.
Qed.

Lemma createGitHubClient_run E w : createGitHubClient E w = (Done (ghClientOf E), w).
Proof.
  unfold createGitHubClient, ghClientOf. run. by case_decide.
Qed.

Lemma createGitLabClient_run E w : createGitLabClient E w = (Done (glClientOf E), w).
Proof.
  unfold createGitLabClient, glClientOf. run. case_decide; [done|].
  by destruct (newClientErr E (getenv E "GITLAB_ACCESS_TOKEN")).
Qed.

(** [searchPlatforms] always returns, and its effect is that of the rounds
    of its loop, one after the other. *)
Lemma searchPlatforms_run words cfg E w :
  searchPlatforms words cfg E w = (Done tt, afterPlatforms E words cfg w).
Proof.
  unfold searchPlatforms, afterPlatforms, clientErrors.
  rewrite bind_unfold, createGitHubClient_run. cbv beta iota.
  destruct (ghClientOf E) as [ghClient ghErr] eqn:Hgh.
  rewrite bind_unfold, createGitLabClient_run. cbv beta iota.
  destruct (glClientOf E) as [glClient glErr] eqn:Hgl.
  rewrite bind_unfold.
  assert (∀ (o : option string) (pre : string) w,
    match o with
    | Some err => Printf (pre +:+ err +:+ nl)
    | None => mret tt
    end E w
    = (Done tt, log match o with
                    | Some err => [Print (pre +:+ err +:+ nl)]
                    | None => []
                    end w)) as Herr.
  { intros [err|] pre w0; [done|]. by rewrite ret_run, log_nil. }
  rewrite Herr. cbv beta iota. rewrite bind_unfold, Herr. cbv beta iota.
  rewrite log_log, bind_unfold, ask_run. cbv beta iota.
  apply forEach_run. intros word w0. unfold afterWord. rewrite Hgh, Hgl.
  cbn [fst snd].
  rewrite bind_unfold.
  rewrite (when_run _ _ (λ w, afterGitHub E ghClient word cfg
             (log (verboseLine E ("Searching GitHub for word: " +:+ word +:+ nl)) w))).
  2:{ intros w1. by rewrite bind_unfold, verbosePrint_run, searchGitHub_run. }
  cbv beta iota.
  apply when_run. intros w1.
  by rewrite bind_unfold, verbosePrint_run, searchGitLab_run.
Qed.

(** ** [main] *)

Lemma validateFlags_run cfg E w :
  validateFlags cfg E w
  = if negb (anyCategory cfg)
    then (Exited 1, log [Print (usage +:+ nl)] w)
    else (Done tt, log (verboseLine E ("Flags validated." +:+ nl)) w).
Proof.
  unfold validateFlags, anyCategory. rewrite bind_unfold.
  destruct (negb (orgFlag cfg || repoFlag cfg || userFlag cfg)).
  - by rewrite bind_unfold, Println_run.
  - by rewrite ret_run, verbosePrint_run.
Qed.

Lemma readAndCleanWords_run args E w :
  readAndCleanWords (flags E) args E w
  = let w' := if Nat.ltb 0 (length args) then w
              else {| stdin := []; trace := trace w; files := files w |} in
    if Nat.ltb 0 (length args) || isNil (stdinErr E)
    then (Done (inputWords E args w), w')
    else (Exited 1,
          log [Print ("Error reading stdin: "
                        +:+ default EmptyString (stdinErr E) +:+ nl)] w').
Proof.
  unfold readAndCleanWords, inputWords, checkScannerError.
  destruct (Nat.ltb 0 (length args)); [done|]. cbn [orb].
  rewrite bind_unfold, ask_run. cbv beta iota.
  rewrite bind_unfold. unfold scanAll at 1. cbv beta iota.
  rewrite !bind_unfold, ask_run. cbv beta iota.
  destruct (stdinErr E) as [err|]; cbn [isNil default].
  - by rewrite bind_unfold, Printf_run.
  - by rewrite !ret_run.
Qed.

(** [main] in closed form. *)
Lemma main_run args E w : main args E w = afterMain E args w.
Proof.
  unfold main, afterMain, afterReading.
  rewrite bind_unfold, ask_run. cbv beta iota.
  rewrite bind_unfold, validateFlags_run.
  destruct (negb (anyCategory (flags E))); [done|]. cbv beta iota.
  rewrite bind_unfold, verbosePrint_run. cbv beta iota.
  rewrite bind_unfold, readAndCleanWords_run, log_log. cbv beta iota zeta.
  destruct (Nat.ltb 0 (length args)) eqn:Hargs; cbn [orb].
  - rewrite bind_unfold, verbosePrint_run. cbv beta iota.
    rewrite bind_unfold, verbosePrint_run. cbv beta iota.
    rewrite bind_unfold, searchPlatforms_run. cbv beta iota.
    rewrite verbosePrint_run,
      (log_log (verboseLine E ("Words cleaned." +:+ nl))).
    reflexivity.
  - destruct (isNil (stdinErr E)); [|done].
    rewrite bind_unfold, verbosePrint_run. cbv beta iota.
    rewrite bind_unfold, verbosePrint_run. cbv beta iota.
    rewrite bind_unfold, searchPlatforms_run. cbv beta iota.
    rewrite verbosePrint_run,
      (log_log (verboseLine E ("Words cleaned." +:+ nl))).
    reflexivity.
Qed.

(** ** The result files *)

Create HintDb files.

Lemma preserves_id g : preserves g (λ w, w).
Proof. by intros w. Qed.

Lemma preserves_log g es : preserves g (log es).
Proof. by intros w. Qed.

Lemma preserves_when g b f : preserves g f → preserves g (when b f).
Proof. intros H w. destruct b; [apply H | done]. Qed.

Lemma reported_lookup E header file names w g :
  files (reported E header file names w) !! g
  = if decide (g = file) then written E file names (files w !! g)
    else files w !! g.
Proof.
  unfold reported, written.
  destruct (createErr E file); simpl; [by case_decide|].
  case_decide as Hg; [subst; apply lookup_insert_eq | by apply lookup_insert_ne].
Qed.

Lemma preserves_reported g E header file names :
  g ≠ file → preserves g (reported E header file names).
Proof. intros Hg w. rewrite reported_lookup. by case_decide. Qed.

Lemma afterSearch_lookup E f q r d header file w :
  files (afterSearch E f q r d header file w) !! file
  = match remote E r with
    | inr names => written E file names (files w !! file)
    | inl _ => files w !! file
    end.
Proof.
  unfold afterSearch. destruct (remote E r); [done|].
  rewrite reported_lookup. by case_decide.
Qed.

Lemma preserves_afterSearch g E f q r d header file :
  g ≠ file → preserves g (afterSearch E f q r d header file).
Proof.
  intros Hg w. unfold afterSearch. destruct (remote E r); [done|].
  by rewrite preserves_reported.
Qed.

Lemma preserves_afterGitLabUsers g E client q n :
  g ≠ "gitlab_users.txt" → preserves g (afterGitLabUsers E client q n).
Proof.
  intros Hg w. unfold afterGitLabUsers.
  destruct (remote E (usersRequest client q n)); [done|].
  destruct (userFlag (flags E)); [|done]. by rewrite preserves_reported.
Qed.

Lemma preserves_afterGitLabGroupsAndUsers g E client q n :
  g ≠ "gitlab_groups.txt" → g ≠ "gitlab_users.txt" →
  preserves g (afterGitLabGroupsAndUsers E client q n).
Proof.
  intros Hg Hu w. unfold afterGitLabGroupsAndUsers.
  destruct (remote E (groupsRequest client q n)); [done|].
  destruct (orgFlag (flags E)).
  - destruct (createErr E "gitlab_groups.txt");
      rewrite ?preserves_afterGitLabUsers by done; by rewrite preserves_reported.
  - by rewrite preserves_afterGitLabUsers.
Qed.

#[local] Hint Resolve preserves_id preserves_log preserves_when
  preserves_reported preserves_afterSearch preserves_afterGitLabUsers
  preserves_afterGitLabGroupsAndUsers : files.
#[local] Hint Extern 1 (_ ≠ _) => discriminate : files.

Lemma preserves_afterGitHub g E client q cfg :
  g ≠ "github_organizations.txt" → g ≠ "github_repositories.txt" →
  g ≠ "github_users.txt" →
  preserves g (afterGitHub E client q cfg).
Proof.
  intros Ho Hr Hu w. unfold afterGitHub. destruct client as [client|]; [|done].
  unfold afterGitHubUsers, afterGitHubRepositories, afterGitHubOrganizations.
  rewrite !preserves_when; auto with files.
Qed.

Lemma preserves_afterGitLab g E client q cfg :
  g ≠ "gitlab_groups.txt" → g ≠ "gitlab_users.txt" → g ≠ "gitlab_projects.txt" →
  preserves g (afterGitLab E client q cfg).
Proof.
  intros Ho Hu Hr w. unfold afterGitLab. destruct client as [client|]; [|done].
  unfold afterGitLabProjects.
  rewrite !preserves_when; auto with files.
Qed.

Lemma preserves_after_log g es f : preserves g f → preserves g (λ w, f (log es w)).
Proof. intros H w. by rewrite H. Qed.

#[local] Hint Resolve preserves_after_log preserves_afterGitHub
  preserves_afterGitLab : files.

Lemma afterGitLabUsers_lookup E client q n w :
  files (afterGitLabUsers E client q n w) !! "gitlab_users.txt"
  = match remote E (usersRequest client q n) with
    | inr names =>
        if userFlag (flags E)
        then written E "gitlab_users.txt" names (files w !! "gitlab_users.txt")
        else files w !! "gitlab_users.txt"
    | inl _ => files w !! "gitlab_users.txt"
    end.
Proof.
  unfold afterGitLabUsers. destruct (remote E (usersRequest client q n)); [done|].
  destruct (userFlag (flags E)); [|done]. rewrite reported_lookup. by case_decide.
Qed.

Lemma afterGitLabGroupsAndUsers_groups E client q n w :
  files (afterGitLabGroupsAndUsers E client q n w) !! "gitlab_groups.txt"
  = match remote E (groupsRequest client q n) with
    | inr names =>
        if orgFlag (flags E)
        then written E "gitlab_groups.txt" names (files w !! "gitlab_groups.txt")
        else files w !! "gitlab_groups.txt"
    | inl _ => files w !! "gitlab_groups.txt"
    end.
Proof.
  unfold afterGitLabGroupsAndUsers.
  destruct (remote E (groupsRequest client q n)); [done|].
  destruct (orgFlag (flags E)).
  - destruct (createErr E "gitlab_groups.txt") eqn:Hc;
      rewrite ?preserves_afterGitLabUsers by done;
      rewrite reported_lookup; by case_decide.
  - by rewrite preserves_afterGitLabUsers.
Qed.

Lemma afterGitLabGroupsAndUsers_users E client q n w :
  files (afterGitLabGroupsAndUsers E client q n w) !! "gitlab_users.txt"
  = match remote E (groupsRequest client q n), remote E (usersRequest client q n) with
    | inr _, inr names =>
        if userFlag (flags E)
           && (negb (orgFlag (flags E)) || isNil (createErr E "gitlab_groups.txt"))
        then written E "gitlab_users.txt" names (files w !! "gitlab_users.txt")
        else files w !! "gitlab_users.txt"
    | _, _ => files w !! "gitlab_users.txt"
    end.
Proof.
  unfold afterGitLabGroupsAndUsers.
  destruct (remote E (groupsRequest client q n)); [done|].
  destruct (orgFlag (flags E)); cbn [negb orb].
  - destruct (createErr E "gitlab_groups.txt") eqn:Hc; cbn [isNil].
    + rewrite preserves_reported by done. cbn.
      destruct (remote E (usersRequest client q n)); [done|].
      by rewrite andb_false_r.
    + rewrite afterGitLabUsers_lookup, preserves_reported by done. cbn.
      destruct (remote E (usersRequest client q n)); [done|].
      by rewrite andb_true_r.
  - rewrite afterGitLabUsers_lookup. cbn.
    destruct (remote E (usersRequest client q n)); [done|].
    by rewrite andb_true_r.
Qed.

Lemma ghClientOf_ok E :
  isNil (ghClientOf E).2 = true →
  (ghClientOf E).1 = Some {| gh_token := ghToken E |}.
Proof. unfold ghClientOf. by case_decide. Qed.

Lemma glClientOf_ok E :
  isNil (glClientOf E).2 = true →
  (glClientOf E).1 = Some {| gl_token := glToken E |}.
Proof.
  unfold glClientOf. case_decide; [done|].
  by destruct (newClientErr E (getenv E "GITLAB_ACCESS_TOKEN")).
Qed.

(** The first components of the step relation of the loop: what a round
    leaves in the file of a pair. *)
Lemma afterWord_lookup E word w p c :
  files (afterWord E (flags E) word w) !! outputFile p c
  = match successfulCall E p c word with
    | Some names => Some (unlines names)
    | None => files w !! outputFile p c
    end.
Proof.
  unfold afterWord, successfulCall, callReached, platformSearched.
  destruct p.
  - (* GitHub: the GitLab half leaves the file alone *)
    rewrite preserves_when by (destruct c; auto with files).
    destruct (negb (glOnlyFlag (flags E)) && isNil (ghClientOf E).2) eqn:Hs;
      [|done].
    apply andb_true_iff in Hs as [_ Hok]. cbn [when andb].
    unfold afterGitHub. rewrite (ghClientOf_ok E Hok).
    unfold afterGitHubUsers, afterGitHubRepositories, afterGitHubOrganizations.
    destruct c; cbn [categoryFlag categoryRequest outputFile].
    + rewrite !preserves_when by auto with files.
      destruct (orgFlag (flags E)); [|done]. cbn [when andb].
      rewrite afterSearch_lookup.
      destruct (remote E _); [done|]. unfold written.
      by destruct (isNil (createErr E _)).
    + rewrite preserves_when by auto with files.
      destruct (repoFlag (flags E)); cbn [when andb].
      * rewrite afterSearch_lookup, preserves_when by auto with files.
        destruct (remote E _); [done|]. unfold written. by destruct (isNil (createErr E _)).
      * by rewrite preserves_when by auto with files.
    + destruct (userFlag (flags E)); cbn [when andb].
      * rewrite afterSearch_lookup, !preserves_when by auto with files.
        destruct (remote E _); [done|]. unfold written. by destruct (isNil (createErr E _)).
      * by rewrite !preserves_when by auto with files.
  - (* GitLab: the GitHub half, which runs first, leaves the file alone *)
    assert (files (when (negb (glOnlyFlag (flags E)) && isNil (ghClientOf E).2)
                     (λ w, afterGitHub E (ghClientOf E).1 word (flags E)
                             (log (verboseLine E
                                ("Searching GitHub for word: " +:+ word +:+ nl)) w))
                     w) !! outputFile GitLab c
            = files w !! outputFile GitLab c) as Hgh.
    { apply preserves_when. destruct c; auto with files. }
    revert Hgh. generalize (when (negb (glOnlyFlag (flags E)) && isNil (ghClientOf E).2)
                     (λ w, afterGitHub E (ghClientOf E).1 word (flags E)
                             (log (verboseLine E
                                ("Searching GitHub for word: " +:+ word +:+ nl)) w))
                     w) as w1.
    intros w1 <-.
    destruct (negb (ghOnlyFlag (flags E)) && isNil (glClientOf E).2) eqn:Hs;
      [|done].
    apply andb_true_iff in Hs as [_ Hok]. cbn [when andb].
    unfold afterGitLab. rewrite (glClientOf_ok E Hok).
    unfold afterGitLabProjects.
    destruct c; cbn [categoryFlag categoryRequest outputFile].
    + rewrite preserves_when by auto with files.
      destruct (orgFlag (flags E)) eqn:Horg; cbn [when andb orb].
      * rewrite afterGitLabGroupsAndUsers_groups, Horg.
        destruct (remote E _); [done|]. unfold written.
        by destruct (isNil (createErr E _)).
      * destruct (userFlag (flags E)); cbn [when]; [|done].
        rewrite afterGitLabGroupsAndUsers_groups, Horg.
        by destruct (remote E _).
    + destruct (repoFlag (flags E)); cbn [when andb].
      * rewrite afterSearch_lookup, preserves_when by auto with files.
        destruct (remote E _); [done|]. unfold written.
        by destruct (isNil (createErr E _)).
      * by rewrite preserves_when by auto with files.
    + rewrite preserves_when by auto with files.
      destruct (userFlag (flags E)) eqn:Huser; cbn [when andb orb].
      * rewrite orb_true_r. cbn [when].
        rewrite afterGitLabGroupsAndUsers_users, Huser. unfold answered.
        cbn [categoryRequest andb].
        destruct (remote E (groupsRequest _ _ _)); [done|].
        destruct (negb (orgFlag (flags E)) || isNil (createErr E "gitlab_groups.txt"));
          cbn [andb]; destruct (remote E (usersRequest _ _ _)); try done.
        unfold written. by destruct (isNil (createErr E _)).
      * rewrite orb_false_r. destruct (orgFlag (flags E)); cbn [when]; [|done].
        rewrite afterGitLabGroupsAndUsers_users, Huser.
        destruct (remote E (groupsRequest _ _ _)); [done|].
        by destruct (remote E (usersRequest _ _ _)).
Qed.

Lemma lastSuccessful_snoc E p c l word :
  lastSuccessful E p c (l ++ [word])
  = match successfulCall E p c word with
    | Some names => Some names
    | None => lastSuccessful E p c l
    end.
Proof. unfold lastSuccessful. by rewrite foldl_snoc. Qed.

Lemma afterWords_lookup E l w p c :
  files (foldl (λ w word, afterWord E (flags E) word w) w l) !! outputFile p c
  = match lastSuccessful E p c l with
    | Some names => Some (unlines names)
    | None => files w !! outputFile p c
    end.
Proof.
  induction l as [|word l IH] using rev_ind; [done|].
  rewrite foldl_snoc, lastSuccessful_snoc, afterWord_lookup, IH.
  by destruct (successfulCall E p c word).
Qed.

(** C4.  At the end of [searchPlatforms], and so at the end of a run of
    [main] that gets as far as searching, the output file of every
    (platform, category) pair holds exactly the names of the most recent
    successful call for that pair, one per line; when no call for the pair
    succeeded it is as it was before.  A successful call replaces whatever
    the file held: its content never accumulates across words. *)
Theorem output_file_last_successful_call
    (E : Env) (args : list string) (w : World) (p : Platform) (c : Category) :
  (∀ words,
     files (searchPlatforms words (flags E) E w).2 !! outputFile p c
     = match lastSuccessful E p c (rangeOrder E words) with
       | Some names => Some (unlines names)
       | None => files w !! outputFile p c
       end)
  ∧ files (main args E w).2 !! outputFile p c
    = if anyCategory (flags E) && (Nat.ltb 0 (length args) || isNil (stdinErr E))
      then match
             lastSuccessful E p c (rangeOrder E (inputWords E args w))
           with
           | Some names => Some (unlines names)
           | None => files w !! outputFile p c
           end
      else files w !! outputFile p c.
Proof.
  split.
  - intros words. rewrite searchPlatforms_run. cbn [snd]. unfold afterPlatforms.
    by rewrite afterWords_lookup.
  - rewrite main_run. unfold afterMain.
    destruct (anyCategory (flags E)); cbn [negb andb snd]; [|done].
    destruct (Nat.ltb 0 (length args) || isNil (stdinErr E)) eqn:Hin; cbn [snd].
    + cbn [log files]. unfold afterPlatforms. rewrite afterWords_lookup.
      unfold afterReading. by destruct (Nat.ltb 0 (length args)).
    + unfold afterReading. by destruct (Nat.ltb 0 (length args)).
Qed.

(** ** What a run adds to the trace *)

Lemma extends_refl P w : extends P w w.
Proof. exists []. by rewrite app_nil_r. Qed.

Lemma extends_trans P w1 w2 w3 :
  extends P w1 w2 → extends P w2 w3 → extends P w1 w3.
Proof.
  intros (es1 & H1 & HP1) (es2 & H2 & HP2). exists (es1 ++ es2).
  split; [by rewrite H2, H1, app_assoc | by apply Forall_app].
Qed.

Lemma extends_log P es w : Forall P es → extends P w (log es w).
Proof. intros H. by exists es. Qed.

Lemma extends_mono (P Q : Event → Prop) w w' :
  (∀ e, P e → Q e) → extends P w w' → extends Q w w'.
Proof.
  intros HPQ (es & H & HP). exists es. split; [done|].
  eapply Forall_impl; eauto.
Qed.

Lemma extends_elem P w w' e : extends P w w' → e ∈ trace w → e ∈ trace w'.
Proof. intros (es & -> & _) He. apply elem_of_app. by left. Qed.

Lemma extends_same_trace P w w' :
  trace w' = trace w → extends P w w'.
Proof. intros H. exists []. by rewrite app_nil_r. Qed.

(** Split off the events logged first. *)
Ltac ext_log_by tac :=
  cbv zeta;
  match goal with
  | |- extends ?P ?w ?W =>
      match W with
      | context [log ?es w] =>
          apply (extends_trans P w (log es w)); [tac|]
      end
  end.

Ltac ext_log := ext_log_by ltac:(apply extends_log; by repeat constructor).

Section Trace.
Context (P : Event → Prop) (Hprint : ∀ s, P (Print s)).

Lemma extends_when b f w :
  (∀ w, extends P w (f w)) → extends P w (when b f w).
Proof. intros H. destruct b; [apply H | apply extends_refl]. Qed.

Lemma extends_verboseLine E s w : extends P w (log (verboseLine E s) w).
Proof.
  apply extends_log. unfold verboseLine.
  destruct (verboseFlag (flags E)); by repeat constructor.
Qed.

Lemma extends_verboseLines E s1 s2 w :
  extends P w (log (verboseLine E s1 ++ verboseLine E s2) w).
Proof.
  apply extends_log, Forall_app. split; unfold verboseLine;
    destruct (verboseFlag (flags E)); by repeat constructor.
Qed.

Lemma extends_resultLines E header names w :
  extends P w (log (resultLines E header names) w).
Proof.
  apply extends_log. unfold resultLines.
  destruct (simpleFlag (flags E)); [|constructor; [done|]];
    apply Forall_forall; intros e (x & -> & _)%list_elem_of_fmap; done.
Qed.

Lemma extends_reported E header file names w :
  extends P w (reported E header file names w).
Proof.
  unfold reported.
  destruct (createErr E file).
  - apply (extends_trans _ _ (log (resultLines E header names) w));
      [apply extends_resultLines|].
    apply extends_log. by repeat constructor.
  - apply (extends_trans _ _ (log (resultLines E header names) w));
      [apply extends_resultLines|].
    by apply extends_same_trace.
Qed.

Lemma extends_afterSearch E f q r d header file w :
  P (Enter f q) → Forall P (sending r) →
  extends P w (afterSearch E f q r d header file w).
Proof.
  intros Hf Hr. unfold afterSearch.
  ext_log_by ltac:(apply extends_log; by constructor).
  destruct (remote E r); [apply extends_log; by repeat constructor|].
  apply extends_reported.
Qed.

Lemma extends_afterGitLabUsers E client q n w :
  P (Call (usersRequest client q n)) →
  extends P w (afterGitLabUsers E client q n w).
Proof.
  intros Hr. unfold afterGitLabUsers. ext_log.
  destruct (remote E _); [apply extends_log; by repeat constructor|].
  destruct (userFlag (flags E)); [apply extends_reported | apply extends_refl].
Qed.

Lemma extends_afterGitLabGroupsAndUsers E client q n w :
  P (Enter F_searchGitLabGroupsAndUsers q) →
  P (Call (groupsRequest client q n)) → P (Call (usersRequest client q n)) →
  extends P w (afterGitLabGroupsAndUsers E client q n w).
Proof.
  intros Hf Hg Hu. unfold afterGitLabGroupsAndUsers. ext_log.
  destruct (remote E _); [apply extends_log; by repeat constructor|].
  destruct (orgFlag (flags E)); [|by apply extends_afterGitLabUsers].
  eapply extends_trans; [apply extends_reported|].
  destruct (createErr E _); [apply extends_refl | by apply extends_afterGitLabUsers].
Qed.

Lemma extends_foldl {A} (step : A → World → World) l w :
  (∀ x w, extends P w (step x w)) →
  extends P w (foldl (λ w x, step x w) w l).
Proof.
  intros H. revert w; induction l as [|x l IH]; intros w; cbn [foldl].
  - apply extends_refl.
  - eapply extends_trans; [apply H | apply IH].
Qed.

Lemma extends_clientErrors E w : extends P w (log (clientErrors E) w).
Proof.
  apply extends_log. unfold clientErrors. apply Forall_app.
  split; [destruct (ghClientOf E).2 | destruct (glClientOf E).2];
    by repeat constructor.
Qed.

End Trace.

(** A search of the shared shape under a flag: its entry and what it sends
    are to satisfy the predicate. *)
Ltac ext_search :=
  apply extends_when; intros; apply extends_afterSearch; by repeat constructor.

Lemma extends_afterGitHub E client q cfg w :
  extends (only GitHub) w (afterGitHub E client q cfg w).
Proof.
  unfold afterGitHub. ext_log.
  destruct client as [client|]; [|apply extends_refl].
  eapply extends_trans; [|ext_search].
  eapply extends_trans; [|ext_search].
  ext_search.
Qed.

Lemma extends_afterGitLab E client q cfg w :
  extends (only GitLab) w (afterGitLab E client q cfg w).
Proof.
  unfold afterGitLab. ext_log.
  destruct client as [client|]; [|apply extends_refl].
  eapply extends_trans; [|ext_search].
  apply extends_when; intros; by apply extends_afterGitLabGroupsAndUsers.
Qed.

Lemma only_not_touches p p' e : p ≠ p' → only p e → ¬ touches p' e.
Proof. intros Hp. destruct e; simpl; congruence. Qed.

(** A round of the loop when GitHub is left out: only GitLab shows. *)
Lemma afterWord_without_GitHub E cfg word w :
  negb (glOnlyFlag cfg) && isNil (ghClientOf E).2 = false →
  extends (only GitLab) w (afterWord E cfg word w).
Proof.
  intros Hgh. unfold afterWord. rewrite Hgh. cbn [when].
  apply extends_when. intros w1.
  eapply extends_trans; [by apply extends_verboseLine | apply extends_afterGitLab].
Qed.

(** A round of the loop when both platforms are left out changes
    nothing. *)
Lemma afterWord_without_both E cfg word w :
  negb (glOnlyFlag cfg) && isNil (ghClientOf E).2 = false →
  negb (ghOnlyFlag cfg) && isNil (glClientOf E).2 = false →
  afterWord E cfg word w = w.
Proof. intros Hgh Hgl. unfold afterWord. by rewrite Hgh, Hgl. Qed.

Lemma extends_afterPlatforms P E words cfg w :
  (∀ s, P (Print s)) →
  (∀ word w, extends P w (afterWord E cfg word w)) →
  extends P w (afterPlatforms E words cfg w).
Proof.
  intros Hprint Hstep. unfold afterPlatforms.
  eapply extends_trans; [by apply extends_clientErrors|].
  by apply (extends_foldl P (afterWord E cfg)).
Qed.

Lemma extends_afterReading P E args w :
  (∀ s, P (Print s)) → extends P w (afterReading E args w).
Proof.
  intros Hprint. unfold afterReading.
  ext_log_by ltac:(by apply extends_verboseLines).
  destruct (Nat.ltb 0 (length args));
    [apply extends_refl | by apply extends_same_trace].
Qed.

(** What [main] adds to the trace outside [searchPlatforms] is printed
    text. *)
Lemma extends_afterMain P E args w :
  (∀ s, P (Print s)) →
  (∀ word w, extends P w (afterWord E (flags E) word w)) →
  extends P w (afterMain E args w).2.
Proof.
  intros Hprint Hstep. unfold afterMain.
  assert (extends P w (afterReading E args w)) as Hread.
  { unfold afterReading. ext_log_by ltac:(by apply extends_verboseLines).
    destruct (Nat.ltb 0 (length args));
      [apply extends_refl | by apply extends_same_trace]. }
  destruct (negb (anyCategory (flags E))); cbn [snd].
  { apply extends_log. by repeat constructor. }
  destruct (Nat.ltb 0 (length args) || isNil (stdinErr E)); cbn [snd].
  - apply (extends_trans _ _ (afterReading E args w)); [exact Hread|].
    generalize (afterReading E args w) as w1. intros w1.
    eapply extends_trans; [|by apply extends_verboseLine].
    eapply extends_trans; [|by apply extends_afterPlatforms].
    by apply extends_verboseLines.
  - apply (extends_trans _ _ (afterReading E args w)); [exact Hread|].
    apply extends_log. by repeat constructor.
Qed.

(** ** The dispatcher *)

Lemma afterWord_extends_any E cfg word w :
  extends (λ _, True) w (afterWord E cfg word w).
Proof.
  unfold afterWord. cbv zeta.
  eapply extends_trans.
  - apply extends_when. intros w1.
    eapply extends_trans; [by apply extends_verboseLine|].
    eapply extends_mono; [|apply extends_afterGitHub]. done.
  - apply extends_when. intros w1.
    eapply extends_trans; [by apply extends_verboseLine|].
    eapply extends_mono; [|apply extends_afterGitLab]. done.
Qed.

Lemma afterGitLab_enters E client q cfg w :
  Enter F_searchGitLab q ∈ trace (afterGitLab E client q cfg w).
Proof.
  apply (extends_elem (only GitLab) (log [Enter F_searchGitLab q] w)).
  - unfold afterGitLab. cbv zeta.
    destruct client as [client|]; [|apply extends_refl].
    eapply extends_trans;
      [|ext_search].
    apply extends_when; intros; by apply extends_afterGitLabGroupsAndUsers.
  - simpl. apply elem_of_app. right. by apply list_elem_of_singleton.
Qed.

(** With a category flag set, [searchGitLab] with a client sends a request
    to GitLab for the word. *)
Lemma afterGitLab_requests E client q cfg w :
  anyCategory cfg = true →
  ∃ r, endpointPlatform (endpoint r) = GitLab ∧ query r = q
       ∧ Call r ∈ trace (afterGitLab E (Some client) q cfg w).
Proof.
  intros Hcat. unfold afterGitLab. cbv zeta.
  set (w1 := log [Enter F_searchGitLab q] w).
  destruct (orgFlag cfg || userFlag cfg) eqn:Hou; cbn [when].
  - exists (groupsRequest client q (maxFlag cfg)). split; [done|]. split; [done|].
    apply (extends_elem (λ _, True)
             (log [Enter F_searchGitLabGroupsAndUsers q;
                   Call (groupsRequest client q (maxFlag cfg))] w1)).
    + eapply extends_trans;
        [|ext_search].
      unfold afterGitLabGroupsAndUsers. cbv zeta.
      destruct (remote E _); [apply extends_log; by repeat constructor|].
      destruct (orgFlag (flags E)); [|by apply extends_afterGitLabUsers].
      eapply extends_trans; [by apply extends_reported|].
      destruct (createErr E _);
        [apply extends_refl | by apply extends_afterGitLabUsers].
    + cbn [log trace]. apply elem_of_app; right.
      apply list_elem_of_further, list_elem_of_here.
  - assert (repoFlag cfg = true) as ->.
    { apply orb_false_elim in Hou as [Ho Hu]. unfold anyCategory in Hcat.
      rewrite Ho, Hu in Hcat. by destruct (repoFlag cfg). }
    cbn [when].
    exists (projectsRequest client q (maxFlag cfg)). split; [done|]. split; [done|].
    unfold afterGitLabProjects, afterSearch. cbv zeta.
    apply (extends_elem (λ _, True)
             (log [Enter F_searchGitLabProjects q;
                   Call (projectsRequest client q (maxFlag cfg))] w1)).
    + destruct (remote E _); [apply extends_log; by repeat constructor|].
      by apply extends_reported.
    + cbn [log trace]. apply elem_of_app; right.
      apply list_elem_of_further, list_elem_of_here.
Qed.

Lemma afterWords_request_GitLab E cfg l word w :
  negb (ghOnlyFlag cfg) && isNil (glClientOf E).2 = true →
  anyCategory cfg = true →
  word ∈ l →
  ∃ r, endpointPlatform (endpoint r) = GitLab ∧ query r = word
       ∧ Call r ∈ trace (foldl (λ w word, afterWord E cfg word w) w l).
Proof.
  intros Hgl Hcat. revert w; induction l as [|x l IH]; intros w Hin.
  - by apply elem_of_nil in Hin.
  - cbn [foldl]. apply elem_of_cons in Hin as [->|Hin]; [|by apply IH].
    pose proof Hgl as [_ Hok]%andb_true_iff.
    unfold afterWord at 2. rewrite Hgl. cbn [when]. cbv zeta.
    rewrite (glClientOf_ok E Hok).
    edestruct (afterGitLab_requests E {| gl_token := glToken E |} x cfg)
      as (r & Hp & Hq & Hr); [done|].
    exists r. split; [done|]. split; [done|].
    eapply (extends_elem (λ _, True)); [|exact Hr].
    apply (extends_foldl (λ _, True) (afterWord E cfg)).
    intros; apply afterWord_extends_any.
Qed.

Lemma afterGitHub_enters E client q cfg w :
  Enter F_searchGitHub q ∈ trace (afterGitHub E client q cfg w).
Proof.
  apply (extends_elem (only GitHub) (log [Enter F_searchGitHub q] w)).
  - unfold afterGitHub. cbv zeta.
    destruct client as [client|]; [|apply extends_refl].
    eapply extends_trans;
      [|ext_search].
    eapply extends_trans;
      [|ext_search].
    ext_search.
  - simpl. apply elem_of_app. right. by apply list_elem_of_singleton.
Qed.

(** Every round of the loop enters the search of each platform that is
    searched, whatever the remote calls of the round answer. *)
Lemma afterWords_enter E l word w p :
  platformSearched E p = true →
  word ∈ l →
  Enter (entry p) word
    ∈ trace (foldl (λ w word, afterWord E (flags E) word w) w l).
Proof.
  intros Hp. revert w; induction l as [|x l IH]; intros w Hin.
  - by apply elem_of_nil in Hin.
  - cbn [foldl]. apply elem_of_cons in Hin as [->|Hin]; [|by apply IH].
    apply (extends_elem (λ _, True) (afterWord E (flags E) x w)).
    + apply (extends_foldl (λ _, True) (afterWord E (flags E))).
      intros; apply afterWord_extends_any.
    + destruct p; cbn [entry platformSearched] in *.
      * unfold afterWord. rewrite Hp. cbn [when]. cbv zeta.
        eapply (extends_elem (λ _, True)); [|apply afterGitHub_enters].
        apply extends_when. intros w1.
        eapply extends_trans; [by apply extends_verboseLine|].
        eapply extends_mono; [|apply extends_afterGitLab]. done.
      * unfold afterWord. rewrite Hp. cbn [when]. apply afterGitLab_enters.
Qed.

Lemma ghClientOf_missing E :
  getenv E "GITHUB_ACCESS_TOKEN" = EmptyString →
  ghClientOf E = (None, Some "GITHUB_ACCESS_TOKEN environment variable is not set").
Proof. intros H. unfold ghClientOf. by case_decide. Qed.

Lemma glClientOf_present E :
  getenv E "GITLAB_ACCESS_TOKEN" ≠ EmptyString →
  newClientErr E (getenv E "GITLAB_ACCESS_TOKEN") = None →
  glClientOf E = (Some {| gl_token := glToken E |}, None).
Proof. intros H1 H2. unfold glClientOf. case_decide; [done|]. by rewrite H2. Qed.

(** C5.  Without [GITHUB_ACCESS_TOKEN] the GitHub client cannot be
    created; [searchPlatforms] prints the error, returns normally, shows
    nothing of GitHub in its trace (no GitHub search function entered, no
    GitHub request sent), and, when GitLab is not excluded and its token is
    present and accepted, still enters the GitLab search for every word the
    loop visits. *)
Theorem missing_GitHub_token (E : Env) (words : gset string) (w : World) :
  getenv E "GITHUB_ACCESS_TOKEN" = EmptyString →
  (createGitHubClient E w).1
    = Done (None, Some "GITHUB_ACCESS_TOKEN environment variable is not set")
  ∧ (searchPlatforms words (flags E) E w).1 = Done tt
  ∧ Print ("Error creating GitHub client: "
           +:+ "GITHUB_ACCESS_TOKEN environment variable is not set" +:+ nl)
      ∈ trace (searchPlatforms words (flags E) E w).2
  ∧ extends (λ e, ¬ touches GitHub e) w (searchPlatforms words (flags E) E w).2
  ∧ (ghOnlyFlag (flags E) = false →
     getenv E "GITLAB_ACCESS_TOKEN" ≠ EmptyString →
     newClientErr E (getenv E "GITLAB_ACCESS_TOKEN") = None →
     ∀ word, word ∈ rangeOrder E words →
       Enter F_searchGitLab word ∈ trace (searchPlatforms words (flags E) E w).2
       ∧ (anyCategory (flags E) = true →
          ∃ r, endpointPlatform (endpoint r) = GitLab ∧ query r = word
               ∧ Call r ∈ trace (searchPlatforms words (flags E) E w).2)).
Proof.
  intros Htok. pose proof (ghClientOf_missing E Htok) as Hgh.
  rewrite createGitHubClient_run, searchPlatforms_run. cbn [fst snd].
  split; [by rewrite Hgh|]. split; [done|].
  assert (∀ word w, extends (only GitLab) w (afterWord E (flags E) word w)) as Hstep.
  { intros word w1. apply afterWord_without_GitHub. rewrite Hgh.
    by rewrite andb_false_r. }
  split; [|split].
  - apply (extends_elem (λ _, True) (log (clientErrors E) w)).
    + apply (extends_foldl (λ _, True) (afterWord E (flags E))).
      intros; apply afterWord_extends_any.
    + unfold clientErrors. rewrite Hgh. cbn [snd log trace].
      apply elem_of_app; right. apply elem_of_app; left.
      apply list_elem_of_here.
  - apply (extends_mono (only GitLab));
      [|by apply extends_afterPlatforms].
    intros e. by apply only_not_touches.
  - intros Hflag Hgl Hnew word Hword. unfold afterPlatforms.
    assert (negb (ghOnlyFlag (flags E)) && isNil (glClientOf E).2 = true) as Hs
      by by rewrite Hflag, (glClientOf_present E Hgl Hnew).
    split; [by apply (afterWords_enter E _ _ _ GitLab)|].
    intros Hcat. by apply afterWords_request_GitLab.
Qed.

Lemma missing_GitHub_token_witness :
  let E := sampleEnv gitlabTokenOnly (sampleFlags false true false false false) in
  Enter F_searchGitLab "acme"
    ∈ trace (searchPlatforms {["acme"]} (flags E) E world0).2.
Proof.
  intros E.
  refine (proj1 (proj2 (proj2 (proj2 (proj2
    (missing_GitHub_token E {["acme"]} world0 _)))) _ _ _ "acme" _)).
  - reflexivity.
  - reflexivity.
  - vm_compute. discriminate.
  - reflexivity.
  - vm_compute. apply list_elem_of_here.
Defined.

(** C6.  With [-gl] set, whatever the environment holds for the GitHub
    token, nothing of GitHub shows in the trace of a run: no GitHub search
    function is entered and no GitHub request is sent, for any word. *)
Theorem gl_flag_excludes_GitHub (E : Env) (args : list string) (w : World) :
  glOnlyFlag (flags E) = true →
  extends (λ e, ¬ touches GitHub e) w (main args E w).2
  ∧ ∀ words,
      extends (λ e, ¬ touches GitHub e) w (searchPlatforms words (flags E) E w).2.
Proof.
  intros Hgl.
  assert (∀ word w, extends (only GitLab) w (afterWord E (flags E) word w)) as Hstep.
  { intros word w1. apply afterWord_without_GitHub. by rewrite Hgl. }
  split; [|intros words].
  - rewrite main_run.
    apply (extends_mono (only GitLab)); [|by apply extends_afterMain].
    intros e. by apply only_not_touches.
  - rewrite searchPlatforms_run. cbn [snd].
    apply (extends_mono (only GitLab));
      [|by apply extends_afterPlatforms].
    intros e. by apply only_not_touches.
Qed.

Lemma gl_flag_excludes_GitHub_witness :
  let E := sampleEnv bothTokens (sampleFlags true true true false true) in
  extends (λ e, ¬ touches GitHub e) world0 (main ["acme corp"] E world0).2.
Proof.
  intros E. apply (proj1 (gl_flag_excludes_GitHub E ["acme corp"] world0 eq_refl)).
Defined.

(** C7.  With both [-gh] and [-gl] set the flags are accepted as long as a
    category flag is given, and no platform is searched: everything a run
    adds to the trace is printed text, and [searchPlatforms] does nothing
    but print the client errors, so that neither the GitHub nor the GitLab
    search function is entered for any word. *)
Theorem gh_and_gl_search_nothing (E : Env) (args : list string) (w : World) :
  ghOnlyFlag (flags E) = true → glOnlyFlag (flags E) = true →
  (anyCategory (flags E) = true → (validateFlags (flags E) E w).1 = Done tt)
  ∧ extends isPrint w (main args E w).2
  ∧ ∀ words,
      searchPlatforms words (flags E) E w = (Done tt, log (clientErrors E) w).
Proof.
  intros Hgh Hgl.
  assert (∀ word w, afterWord E (flags E) word w = w) as Hstep.
  { intros word w1. apply afterWord_without_both; by rewrite ?Hgh, ?Hgl. }
  split; [|split].
  - intros Hcat. rewrite validateFlags_run. by rewrite Hcat.
  - rewrite main_run. apply extends_afterMain; [done|].
    intros word w1. rewrite Hstep. apply extends_refl.
  - intros words. rewrite searchPlatforms_run. f_equal. unfold afterPlatforms.
    generalize (log (clientErrors E) w) as w1.
    induction (rangeOrder E words) as [|x l IH]; intros w1; [done|].
    cbn [foldl]. by rewrite Hstep.
Qed.

Lemma gh_and_gl_search_nothing_witness :
  let E := sampleEnv bothTokens (sampleFlags true true true true true) in
  searchPlatforms {["acme"]} (flags E) E world0 = (Done tt, log (clientErrors E) world0).
Proof.
  intros E.
  apply (proj2 (proj2 (gh_and_gl_search_nothing E [] world0 eq_refl eq_refl))).
Defined.

(** C8.  Without any of [-o], [-r], [-u], [main] prints the usage message
    and exits with status 1, with standard input unread, no request sent
    and no file touched.  With a category flag the exit status is 0 unless
    standard input had to be read and could not be: it depends on nothing
    the platforms or their APIs answer. *)
Theorem exit_status (E : Env) (args : list string) (w : World) :
  (anyCategory (flags E) = false →
     main args E w = (Exited 1, log [Print (usage +:+ nl)] w)
     ∧ exitCode (main args E w).1 = 1%Z)
  ∧ (anyCategory (flags E) = true →
     exitCode (main args E w).1
     = if Nat.ltb 0 (length args) || isNil (stdinErr E) then 0%Z else 1%Z).
Proof.
  rewrite main_run. unfold afterMain. split; intros ->; cbn [negb]; [done|].
  by destruct (Nat.ltb 0 (length args) || isNil (stdinErr E)).
Qed.

Lemma exit_status_witness :
  main ["acme"] (sampleEnv bothTokens (sampleFlags false false false false false)) world0
    = (Exited 1, log [Print (usage +:+ nl)] world0)
  ∧ exitCode (main ["acme"]
                (sampleEnv gitlabTokenOnly (sampleFlags true false true false false))
                world0).1 = 0%Z.
Proof.
  split.
  - apply (proj1 (exit_status
      (sampleEnv bothTokens (sampleFlags false false false false false))
      ["acme"] world0)). reflexivity.
  - apply (proj2 (exit_status
      (sampleEnv gitlabTokenOnly (sampleFlags true false true false false))
      ["acme"] world0)). reflexivity.
Defined.

(** C10.  With [-u] but not [-o], [searchGitLab] nevertheless starts with
    the group search request.  When that request fails, the diagnostic is
    all that follows: the user list is never asked for.  When it answers,
    the groups it returned are neither printed nor saved, and the user
    list request comes next. *)
Theorem gitlab_users_after_group_search
    (E : Env) (client : gitlab_Client) (q : string) (w : World) :
  userFlag (flags E) = true → orgFlag (flags E) = false →
  searchGitLab (Some client) q (flags E) E w
  = (Done tt,
     when (repoFlag (flags E)) (afterGitLabProjects E client q (maxFlag (flags E)))
       (let n := maxFlag (flags E) in
        let w1 := log [Enter F_searchGitLab q;
                       Enter F_searchGitLabGroupsAndUsers q;
                       Call (groupsRequest client q n)] w in
        match remote E (groupsRequest client q n) with
        | inl err => log [Print ("Error searching GitLab groups: " +:+ err +:+ nl)] w1
        | inr _ =>
            let w2 := log [Call (usersRequest client q n)] w1 in
            match remote E (usersRequest client q n) with
            | inl err =>
                log [Print ("Error searching GitLab users: " +:+ err +:+ nl)] w2
            | inr names =>
                reported E ("GitLab users matching '" +:+ q +:+ "'")
                  "gitlab_users.txt" names w2
            end
        end)).
Proof.
  intros Hu Ho. rewrite searchGitLab_run. unfold afterGitLab.
  rewrite Hu, Ho. cbn [orb when]. cbv zeta. do 2 f_equal.
  unfold afterGitLabGroupsAndUsers, afterGitLabUsers. rewrite Hu, Ho. cbv zeta.
  rewrite log_log.
  by destruct (remote E (groupsRequest client q (maxFlag (flags E)))).
Qed.

Lemma gitlab_users_after_group_search_witness :
  let E := sampleEnv gitlabTokenOnly (sampleFlags false false true false false) in
  searchGitLab (Some {| gl_token := "glpat-1" |}) "acme" (flags E) E world0
  = (Done tt,
     log [Enter F_searchGitLab "acme";
          Enter F_searchGitLabGroupsAndUsers "acme";
          Call (groupsRequest {| gl_token := "glpat-1" |} "acme" 10);
          Print ("Error searching GitLab groups: 500 Internal Server Error" +:+ nl)]
       world0).
Proof.
  intros E.
  exact (gitlab_users_after_group_search E {| gl_token := "glpat-1" |} "acme"
           world0 eq_refl eq_refl).
Defined.

(** ** Errors of the remote calls *)

(** The names of an answered call are saved, for every pair but the
    GitLab user list. *)
Lemma answered_call_saved E p c :
  (p, c) ≠ (GitLab, Users) → answeredCallIsSaved E p c.
Proof.
  intros Hpc words l word names w Hl Hp Hc Hr Hf.
  rewrite searchPlatforms_run. cbn [snd]. unfold afterPlatforms.
  rewrite afterWords_lookup, Hl, lastSuccessful_snoc.
  unfold successfulCall, callReached. rewrite Hp, Hc, Hr, Hf. cbn [andb isNil].
  by destruct p, c.
Qed.

(** The GitLab user list is saved as well once the group search has
    answered and, when groups are wanted too, their file could be
    created. *)
Lemma answered_user_list_saved E words l word names w :
  rangeOrder E words = l ++ [word] →
  platformSearched E GitLab = true →
  userFlag (flags E) = true →
  answered E (categoryRequest E GitLab Organizations word) = true →
  negb (orgFlag (flags E)) || isNil (createErr E "gitlab_groups.txt") = true →
  remote E (categoryRequest E GitLab Users word) = inr names →
  createErr E "gitlab_users.txt" = None →
  files (searchPlatforms words (flags E) E w).2 !! "gitlab_users.txt"
  = Some (unlines names).
Proof.
  intros Hl Hp Hc Hg Ho Hr Hf.
  rewrite searchPlatforms_run. cbn [snd]. unfold afterPlatforms.
  rewrite (afterWords_lookup E _ _ GitLab Users), Hl, lastSuccessful_snoc.
  unfold successfulCall, callReached. cbn [categoryFlag outputFile].
  by rewrite Hp, Hc, Hg, Ho, Hr, Hf.
Qed.

(** C2, as stated, fails: with [-u -gl], both tokens set and the single
    word [acme], the GitLab group search answers with a server error while
    the user list would answer [alice]; the user list is an enabled call
    that did not fail, and yet it is never requested and [gitlab_users.txt]
    is not written. *)
Lemma group_error_skips_user_list :
  let E := sampleEnv bothTokens (sampleFlags false false true false true) in
  let client := {| gl_token := "glpat-1" |} in
  main ["acme"] E world0
  = (Done tt,
     {| stdin := [];
        trace := [Enter F_searchGitLab "acme";
                  Enter F_searchGitLabGroupsAndUsers "acme";
                  Call (groupsRequest client "acme" 10);
                  Print ("Error searching GitLab groups: 500 Internal Server Error"
                         +:+ nl)];
        files := ∅ |})
  ∧ ¬ answeredCallIsSaved E GitLab Users.
Proof.
  intros E client. split; [rewrite main_run; by vm_compute|].
  intros H.
  specialize (H {["acme"]} [] "acme" ["alice"] world0).
  assert (files (searchPlatforms {["acme"]} (flags E) E world0).2
            !! outputFile GitLab Users = None) as Hnone.
  { rewrite searchPlatforms_run. by vm_compute. }
  rewrite H in Hnone; [discriminate|by vm_compute..].
Qed.

(** C2, amended.  When a remote call returns an error, the search function
    prints the diagnostic and returns: nothing is printed or written for
    that call.  [searchPlatforms] returns normally whatever the calls
    answer and enters the search of every searched platform for every word
    it visits.  For every pair other than the GitLab user list, an
    answered call has its names saved whatever the other calls did; the
    GitLab user list has too once the group search has answered. *)
Theorem remote_error_skips_its_call (E : Env) :
  (∀ client q n w err,
     remote E (orgsRequest client q n) = inl err →
     searchGitHubOrganizations client q n E w
     = (Done tt, log [Enter F_searchGitHubOrganizations q;
                      LimiterWait;
                      Call (orgsRequest client q n);
                      Print ("Error searching organizations: " +:+ err +:+ nl)] w))
  ∧ (∀ client q n w err,
     remote E (reposRequest client q n) = inl err →
     searchGitHubRepositories client q n E w
     = (Done tt, log [Enter F_searchGitHubRepositories q;
                      LimiterWait;
                      Call (reposRequest client q n);
                      Print ("Error searching repositories: " +:+ err +:+ nl)] w))
  ∧ (∀ client q n w err,
     remote E (ghUsersRequest client q n) = inl err →
     searchGitHubUsers client q n E w
     = (Done tt, log [Enter F_searchGitHubUsers q;
                      LimiterWait;
                      Call (ghUsersRequest client q n);
                      Print ("Error searching users: " +:+ err +:+ nl)] w))
  ∧ (∀ client q n w err,
     remote E (projectsRequest client q n) = inl err →
     searchGitLabProjects client q n E w
     = (Done tt, log [Enter F_searchGitLabProjects q;
                      Call (projectsRequest client q n);
                      Print ("Error searching GitLab projects: " +:+ err +:+ nl)] w))
  ∧ (∀ client q n w err,
     remote E (groupsRequest client q n) = inl err →
     searchGitLabGroupsAndUsers client q n E w
     = (Done tt, log [Enter F_searchGitLabGroupsAndUsers q;
                      Call (groupsRequest client q n);
                      Print ("Error searching GitLab groups: " +:+ err +:+ nl)] w))
  ∧ (∀ client q n w groups err,
     remote E (groupsRequest client q n) = inr groups →
     remote E (usersRequest client q n) = inl err →
     let w1 := log [Enter F_searchGitLabGroupsAndUsers q;
                    Call (groupsRequest client q n)] w in
     let failed w :=
       log [Call (usersRequest client q n);
            Print ("Error searching GitLab users: " +:+ err +:+ nl)] w in
     searchGitLabGroupsAndUsers client q n E w
     = (Done tt,
        if orgFlag (flags E) then
          match createErr E "gitlab_groups.txt" with
          | Some _ =>
              reported E ("GitLab groups matching '" +:+ q +:+ "'")
                "gitlab_groups.txt" groups w1
          | None =>
              failed (reported E ("GitLab groups matching '" +:+ q +:+ "'")
                        "gitlab_groups.txt" groups w1)
          end
        else failed w1))
  ∧ (∀ words w,
     (searchPlatforms words (flags E) E w).1 = Done tt
     ∧ ∀ word p,
         word ∈ rangeOrder E words → platformSearched E p = true →
         Enter (entry p) word ∈ trace (searchPlatforms words (flags E) E w).2)
  ∧ (∀ p c, (p, c) ≠ (GitLab, Users) → answeredCallIsSaved E p c)
  ∧ (∀ words l word names w,
     rangeOrder E words = l ++ [word] →
     platformSearched E GitLab = true →
     userFlag (flags E) = true →
     answered E (categoryRequest E GitLab Organizations word) = true →
     negb (orgFlag (flags E)) || isNil (createErr E "gitlab_groups.txt") = true →
     remote E (categoryRequest E GitLab Users word) = inr names →
     createErr E "gitlab_users.txt" = None →
     files (searchPlatforms words (flags E) E w).2 !! "gitlab_users.txt"
     = Some (unlines names)).
Proof.
  repeat apply conj.
  - intros client q n w err Hr. rewrite searchGitHubOrganizations_run.
    unfold afterGitHubOrganizations, afterSearch. by rewrite Hr, log_log.
  - intros client q n w err Hr. rewrite searchGitHubRepositories_run.
    unfold afterGitHubRepositories, afterSearch. by rewrite Hr, log_log.
  - intros client q n w err Hr. rewrite searchGitHubUsers_run.
    unfold afterGitHubUsers, afterSearch. by rewrite Hr, log_log.
  - intros client q n w err Hr. rewrite searchGitLabProjects_run.
    unfold afterGitLabProjects, afterSearch. by rewrite Hr, log_log.
  - intros client q n w err Hr. rewrite searchGitLabGroupsAndUsers_run.
    unfold afterGitLabGroupsAndUsers. by rewrite Hr, log_log.
  - intros client q n w groups err Hg Hu. cbv zeta.
    rewrite searchGitLabGroupsAndUsers_run.
    unfold afterGitLabGroupsAndUsers, afterGitLabUsers. rewrite Hg, Hu. cbv zeta.
    rewrite !log_log. do 2 f_equal.
  - intros words w. rewrite searchPlatforms_run. cbn [fst snd].
    split; [done|]. intros word p Hword Hp. unfold afterPlatforms.
    by apply afterWords_enter.
  - apply answered_call_saved.
  - apply answered_user_list_saved.
Qed.

Lemma remote_error_skips_its_call_witness :
  let E := sampleEnv bothTokens (sampleFlags false false true false true) in
  let client := {| gl_token := "glpat-1" |} in
  searchGitLabGroupsAndUsers client "acme" 10 E world0
  = (Done tt, log [Enter F_searchGitLabGroupsAndUsers "acme";
                   Call (groupsRequest client "acme" 10);
                   Print ("Error searching GitLab groups: "
                          +:+ "500 Internal Server Error" +:+ nl)] world0).
Proof.
  intros E client.
  apply (proj1 (proj2 (proj2 (proj2 (proj2 (remote_error_skips_its_call E)))))).
  reflexivity.
Defined.

(** ** The rate-limited transport *)

Lemma paired_app es1 es2 : paired es1 → paired es2 → paired (es1 ++ es2).
Proof. induction 1; intros H2; simpl; [done|constructor; auto..]. Qed.

Lemma paired_unlimited es : Forall unlimited es → paired es.
Proof.
  induction 1 as [|e es He _ IH]; [constructor|].
  destruct e; simpl in He; try done; by constructor.
Qed.

Lemma paired_sending r : paired (sending r).
Proof.
  unfold sending. destruct (endpointPlatform (endpoint r)) eqn:Hp;
    by repeat constructor.
Qed.

(** A GitHub request among the events has the wait right before it. *)
Lemma paired_wait_before es pre r post :
  paired es → es = pre ++ Call r :: post →
  endpointPlatform (endpoint r) = GitHub →
  ∃ pre', pre = pre' ++ [LimiterWait].
Proof.
  intros H. revert pre.
  induction H as [|s es _ IH|f arg es _ IH|r0 es Hp _ IH|r0 es Hp _ IH];
    intros pre Heq Hgh.
  - by destruct pre.
  - destruct pre as [|e pre]; simplify_eq/=.
    destruct (IH pre eq_refl Hgh) as [pre' ->]. by exists (Print s :: pre').
  - destruct pre as [|e pre]; simplify_eq/=.
    destruct (IH pre eq_refl Hgh) as [pre' ->]. by exists (Enter f arg :: pre').
  - destruct pre as [|e pre]; simplify_eq/=; [congruence|].
    destruct (IH pre eq_refl Hgh) as [pre' ->]. by exists (Call r0 :: pre').
  - destruct pre as [|e [|e' pre]]; simplify_eq/=; [by exists []|].
    destruct (IH pre eq_refl Hgh) as [pre' ->].
    by exists (LimiterWait :: Call r0 :: pre').
Qed.

(** A wait among the events has the GitHub request right after it. *)
Lemma paired_request_after es pre post :
  paired es → es = pre ++ LimiterWait :: post →
  ∃ r post', post = Call r :: post' ∧ endpointPlatform (endpoint r) = GitHub.
Proof.
  intros H. revert pre.
  induction H as [|s es _ IH|f arg es _ IH|r0 es Hp _ IH|r0 es Hp _ IH];
    intros pre Heq.
  - by destruct pre.
  - destruct pre as [|e pre]; simplify_eq/=. by apply (IH pre).
  - destruct pre as [|e pre]; simplify_eq/=. by apply (IH pre).
  - destruct pre as [|e pre]; simplify_eq/=. by apply (IH pre).
  - destruct pre as [|e [|e' pre]]; simplify_eq/=; [by exists r0, es|].
    by apply (IH pre).
Qed.

Lemma limited_refl w : limited w w.
Proof. exists []. split; [by rewrite app_nil_r | constructor]. Qed.

Lemma limited_trans w1 w2 w3 : limited w1 w2 → limited w2 w3 → limited w1 w3.
Proof.
  intros (es1 & H1 & Hp1) (es2 & H2 & Hp2). exists (es1 ++ es2).
  split; [by rewrite H2, H1, app_assoc | by apply paired_app].
Qed.

Lemma limited_log es w : paired es → limited w (log es w).
Proof. intros H. by exists es. Qed.

Lemma limited_same_trace w w' : trace w' = trace w → limited w w'.
Proof. intros H. exists []. split; [by rewrite app_nil_r | constructor]. Qed.

Lemma limited_when b f w :
  (∀ w, limited w (f w)) → limited w (when b f w).
Proof. intros H. destruct b; [apply H | apply limited_refl]. Qed.

(** Printed text keeps to the limiter. *)
Lemma limited_printing w w' : extends isPrint w w' → limited w w'.
Proof.
  intros (es & H & Hp). exists es. split; [done|].
  apply paired_unlimited. eapply Forall_impl; [exact Hp|]. by intros [].
Qed.

Lemma limited_reported E header file names w :
  limited w (reported E header file names w).
Proof. by apply limited_printing, extends_reported. Qed.

Lemma limited_afterSearch E f q r d header file w :
  limited w (afterSearch E f q r d header file w).
Proof.
  unfold afterSearch. cbv zeta.
  apply (limited_trans _ (log (Enter f q :: sending r) w)).
  { apply limited_log. constructor. apply paired_sending. }
  destruct (remote E r); [|apply limited_reported].
  apply limited_log. by repeat constructor.
Qed.

Lemma limited_afterGitLabUsers E client q n w :
  limited w (afterGitLabUsers E client q n w).
Proof.
  unfold afterGitLabUsers. cbv zeta.
  apply (limited_trans _ (log [Call (usersRequest client q n)] w)).
  { apply limited_log. by repeat constructor. }
  destruct (remote E _); [apply limited_log; by repeat constructor|].
  destruct (userFlag (flags E)); [apply limited_reported | apply limited_refl].
Qed.

Lemma limited_afterGitLabGroupsAndUsers E client q n w :
  limited w (afterGitLabGroupsAndUsers E client q n w).
Proof.
  unfold afterGitLabGroupsAndUsers. cbv zeta.
  apply (limited_trans _ (log [Enter F_searchGitLabGroupsAndUsers q;
                                Call (groupsRequest client q n)] w)).
  { apply limited_log. by repeat constructor. }
  destruct (remote E _); [apply limited_log; by repeat constructor|].
  destruct (orgFlag (flags E)); [|apply limited_afterGitLabUsers].
  eapply limited_trans; [apply limited_reported|].
  destruct (createErr E _); [apply limited_refl | apply limited_afterGitLabUsers].
Qed.

Lemma limited_afterGitHub E client q cfg w :
  limited w (afterGitHub E client q cfg w).
Proof.
  unfold afterGitHub. cbv zeta.
  apply (limited_trans _ (log [Enter F_searchGitHub q] w));
    [apply limited_log; by repeat constructor|].
  destruct client as [client|]; [|apply limited_refl].
  eapply limited_trans; [|apply limited_when; intros; apply limited_afterSearch].
  eapply limited_trans; [|apply limited_when; intros; apply limited_afterSearch].
  apply limited_when; intros; apply limited_afterSearch.
Qed.

Lemma limited_afterGitLab E client q cfg w :
  limited w (afterGitLab E client q cfg w).
Proof.
  unfold afterGitLab. cbv zeta.
  apply (limited_trans _ (log [Enter F_searchGitLab q] w));
    [apply limited_log; by repeat constructor|].
  destruct client as [client|]; [|apply limited_refl].
  eapply limited_trans; [|apply limited_when; intros; apply limited_afterSearch].
  apply limited_when; intros; apply limited_afterGitLabGroupsAndUsers.
Qed.

Lemma limited_afterWord E cfg word w : limited w (afterWord E cfg word w).
Proof.
  unfold afterWord. cbv zeta.
  eapply limited_trans;
    [|apply limited_when; intros w1;
      eapply limited_trans; [|apply limited_afterGitLab];
      by apply limited_printing, extends_verboseLine].
  apply limited_when; intros w1.
  eapply limited_trans; [|apply limited_afterGitHub].
  by apply limited_printing, extends_verboseLine.
Qed.

Lemma limited_foldl E cfg l w :
  limited w (foldl (λ w word, afterWord E cfg word w) w l).
Proof.
  revert w; induction l as [|x l IH]; intros w; cbn [foldl].
  - apply limited_refl.
  - eapply limited_trans; [apply limited_afterWord | apply IH].
Qed.

Lemma limited_afterMain E args w : limited w (afterMain E args w).2.
Proof.
  unfold afterMain.
  assert (limited w (afterReading E args w)) as Hread
    by by apply limited_printing, extends_afterReading.
  destruct (negb (anyCategory (flags E))); cbn [snd].
  { apply limited_log. by repeat constructor. }
  destruct (Nat.ltb 0 (length args) || isNil (stdinErr E)); cbn [snd].
  - eapply limited_trans; [exact Hread|].
    eapply limited_trans; [|by apply limited_printing, extends_verboseLine].
    eapply limited_trans; [by apply limited_printing, extends_verboseLines|].
    unfold afterPlatforms.
    eapply limited_trans; [by apply limited_printing, extends_clientErrors|].
    apply limited_foldl.
  - eapply limited_trans; [exact Hread|].
    apply limited_log. by repeat constructor.
Qed.

(** C9.  [RoundTrip] of the rate-limited transport, whatever the limiter
    and the underlying transport, first waits on the limiter: when the wait
    fails the request fails with exactly that error, in the state the wait
    left, and the underlying transport is not run; otherwise the outcome is
    that of the underlying transport on the same request, started after
    the wait.  The client [createGitHubClient] builds sends through this
    transport, put around the transport that carries the token of the
    environment, with a limiter that admits every request: a call of the
    GitHub library is one wait followed by the request with the token put
    on.  So in every run of [main] each GitHub request comes right after
    a wait on the limiter, and each wait is followed at once by the GitHub
    request it admitted. *)
Theorem rateLimited_RoundTrip_waits :
  (∀ (Req Resp Err S T : Type) `{!http.RoundTripper Req Resp Err S T}
     (t : rateLimitedTransport Err S T) (req : Req) (s : S),
     (∀ err s', rate.Wait (limiter t) s = (Some err, s') →
        http.RoundTrip t req s = (inl err, s'))
     ∧ (∀ s', rate.Wait (limiter t) s = (None, s') →
        http.RoundTrip t req s = http.RoundTrip (transport t) req s'))
  ∧ (∀ E w client err,
       createGitHubClient E w = (Done (Some client, err), w) →
       github_Transport E client
       = {| transport := {| oauth2.Source := getenv E "GITHUB_ACCESS_TOKEN";
                            oauth2.Base := remote E |};
            limiter := rate.NewLimiter (rate.Every 10) 10 |})
  ∧ (∀ E client req w,
       let r := oauth2.authorised (transport (github_Transport E client)) req in
       github_Do client req E w
       = (Done (remote E r), log [LimiterWait; Call r] w))
  ∧ (∀ E args w, ∃ es,
       trace (main args E w).2 = trace w ++ es
       ∧ (∀ pre r post,
            es = pre ++ Call r :: post →
            endpointPlatform (endpoint r) = GitHub →
            ∃ pre', pre = pre' ++ [LimiterWait])
       ∧ (∀ pre post,
            es = pre ++ LimiterWait :: post →
            ∃ r post', post = Call r :: post'
                       ∧ endpointPlatform (endpoint r) = GitHub)).
Proof.
  split; [|split; [|split]].
  - intros Req Resp Err S T HT t req s.
    split; intros; unfold http.RoundTrip at 1, rateLimitedTransport_RoundTrip;
      by match goal with H : rate.Wait _ _ = _ |- _ => rewrite H end.
  - intros E w client err. rewrite createGitHubClient_run. unfold ghClientOf.
    case_decide; [done|]. by intros [= <- _].
  - intros E client req w. apply github_Do_run.
  - intros E args w. rewrite main_run.
    destruct (limited_afterMain E args w) as (es & Htrace & Hes).
    exists es. split; [done|]. split.
    + intros pre r post. by apply paired_wait_before.
    + intros pre post. by apply paired_request_after.
Qed.

Lemma rateLimited_RoundTrip_waits_witness :
  http.RoundTrip refusingTransport sampleRequest world0
  = (inl "rate: Wait(n=1) exceeds limiter's burst 0", log [LimiterWait] world0)
  ∧ http.RoundTrip
      (github_Transport (sampleEnv bothTokens (sampleFlags false true false true false))
         {| gh_token := "ghp-1" |})
      sampleRequest world0
    = http.RoundTrip
        {| oauth2.Source := "ghp-1"; oauth2.Base := sampleRemote |}
        sampleRequest (log [LimiterWait] world0)
  ∧ ∃ pre',
      [Enter F_searchGitHub "acme"; Enter F_searchGitHubRepositories "acme";
       LimiterWait] = pre' ++ [LimiterWait].
Proof.
  destruct rateLimited_RoundTrip_waits as (Hmethod & _ & _ & Hrun).
  split; [|split].
  - apply (proj1 (Hmethod _ _ _ _ _ _ refusingTransport sampleRequest world0)).
    reflexivity.
  - apply (proj2 (Hmethod _ _ _ _ _ _
                    (github_Transport
                       (sampleEnv bothTokens (sampleFlags false true false true false))
                       {| gh_token := "ghp-1" |})
                    sampleRequest world0)).
    reflexivity.
  - destruct (Hrun (sampleEnv bothTokens (sampleFlags false true false true false))
                ["acme"] world0) as (es & Htrace & Hbefore & _).
    rewrite main_run in Htrace. vm_compute in Htrace. subst es.
    eapply Hbefore; reflexivity.
Defined.

(** * Further properties *)

(** ** The word set *)

Lemma processWord_union word (words : gset string) cfg :
  processWord word words cfg = words ∪ variants cfg word.
Proof.
  unfold processWord, variants, cleaned. rewrite removeWhitespace_lines.
  cbn [foldl]. rewrite !addWordToMap_union. set_solver.
Qed.

Lemma foldl_processWord {A} (f : A → string) cfg (l : list A) (words : gset string) :
  foldl (λ words x, processWord (f x) words cfg) words l
  = words ∪ ⋃ ((λ x, variants cfg (f x)) <$> l).
Proof.
  revert words; induction l as [|x l IH]; intros words; cbn [foldl fmap list_fmap].
  - cbn. set_solver.
  - rewrite IH, processWord_union. cbn. set_solver.
Qed.

Lemma readAndCleanWords_args cfg args E w :
  args ≠ [] →
  readAndCleanWords cfg args E w = (Done (⋃ (variants cfg <$> args)), w).
Proof.
  intros Hargs. unfold readAndCleanWords. destruct args as [|a args]; [done|].
  cbn [length Nat.ltb Nat.leb]. rewrite ret_run. do 2 f_equal.
  rewrite (foldl_processWord (λ x, x)). set_solver.
Qed.

(** X1.  With positional arguments, [readAndCleanWords] returns without
    touching standard input, whatever state it is in, and the word set is
    the union of the forms of the arguments: a word is in it exactly when
    it is a form of one of the arguments. *)
Theorem readAndCleanWords_of_arguments
    (cfg : config) (args : list string) (E : Env) (w : World) :
  args ≠ [] →
  readAndCleanWords cfg args E w = (Done (⋃ (variants cfg <$> args)), w)
  ∧ ∀ word, word ∈ ⋃ (variants cfg <$> args)
            ↔ ∃ token, token ∈ args ∧ word ∈ variants cfg token.
Proof.
  intros Hargs. split.
  - by apply readAndCleanWords_args.
  - intros word. rewrite elem_of_union_list. split.
    + intros (X & (token & -> & Htok)%list_elem_of_fmap & Hword). eauto.
    + intros (token & Htok & Hword). exists (variants cfg token).
      split; [|done]. apply list_elem_of_fmap. eauto.
Qed.

Lemma readAndCleanWords_of_arguments_witness :
  let E := brokenStdin (sampleEnv bothTokens (sampleFlags true false false false false)) in
  readAndCleanWords (flags E) ["acme corp"] E
    {| stdin := ["left unread"]; trace := []; files := ∅ |}
  = (Done (⋃ (variants (flags E) <$> ["acme corp"])),
     {| stdin := ["left unread"]; trace := []; files := ∅ |}).
Proof.
  intros E.
  apply (proj1 (readAndCleanWords_of_arguments (flags E) ["acme corp"] E
                  {| stdin := ["left unread"]; trace := []; files := ∅ |}
                  ltac:(discriminate))).
Defined.

(** X2.  Without positional arguments every line of standard input is
    consumed, trimmed and normalised.  When reading then reports an error,
    [main] prints it and exits with status 1: the lines read before the
    error are dropped, nothing is searched and no file is touched. *)
Theorem standard_input_words_and_failure (E : Env) (w : World) :
  (stdinErr E = None →
     readAndCleanWords (flags E) [] E w
     = (Done (⋃ ((λ line, variants (flags E) (TrimSpace E line)) <$> stdin w)),
        {| stdin := []; trace := trace w; files := files w |}))
  ∧ (∀ err, stdinErr E = Some err → anyCategory (flags E) = true →
     (main [] E w).1 = Exited 1
     ∧ stdin (main [] E w).2 = []
     ∧ files (main [] E w).2 = files w
     ∧ extends isPrint w (main [] E w).2
     ∧ last (trace (main [] E w).2)
       = Some (Print ("Error reading stdin: " +:+ err +:+ nl))).
Proof.
  split.
  - intros Herr. rewrite readAndCleanWords_run. cbn [length Nat.ltb Nat.leb orb].
    rewrite Herr. cbn [isNil]. cbv zeta. do 2 f_equal. unfold inputWords.
    cbn [length Nat.ltb Nat.leb].
    rewrite (foldl_processWord (TrimSpace E)). set_solver.
  - intros err Herr Hcat. rewrite main_run. unfold afterMain.
    rewrite Hcat, Herr. cbn [negb length Nat.ltb Nat.leb orb isNil fst snd default].
    split; [done|]. split; [done|]. split; [done|]. split.
    + apply (extends_trans _ _ (afterReading E [] w));
        [by apply extends_afterReading|].
      apply extends_log. by repeat constructor.
    + cbn [log trace]. by rewrite last_snoc.
Qed.

Lemma standard_input_words_and_failure_witness :
  let E := brokenStdin (sampleEnv bothTokens (sampleFlags true false false false false)) in
  (main [] E {| stdin := ["acme"]; trace := []; files := ∅ |}).1 = Exited 1.
Proof.
  intros E.
  exact (proj1 (proj2 (standard_input_words_and_failure E
                         {| stdin := ["acme"]; trace := []; files := ∅ |})
                  _ eq_refl eq_refl)).
Defined.

(** ** How many forms a token has *)

Lemma withoutSpaces_id s : str_forallb nonSpace s = true → withoutSpaces s = s.
Proof.
  induction s as [|c s IH]; [done|]. cbn [str_forallb withoutSpaces].
  intros [Hc Hs]%andb_true_iff. unfold nonSpace in Hc.
  destruct (isSpace c); [done|]. by rewrite IH.
Qed.

Lemma replaceRuns_id repl s :
  str_forallb nonSpace s = true → replaceRuns repl false s = s.
Proof.
  induction s as [|c s IH]; [done|]. cbn [str_forallb replaceRuns].
  intros [Hc Hs]%andb_true_iff. unfold nonSpace in Hc.
  destruct (isSpace c); [done|]. by rewrite IH.
Qed.

Lemma withoutSpaces_nonSpace s : str_forallb nonSpace (withoutSpaces s) = true.
Proof.
  induction s as [|c s IH]; [done|]. cbn [withoutSpaces].
  destruct (isSpace c) eqn:Hc; [done|]. cbn [str_forallb].
  by rewrite (nonSpace_true c Hc), IH.
Qed.

Lemma hyphenated_nonSpace b s : str_forallb nonSpace (replaceRuns "-" b s) = true.
Proof.
  revert b; induction s as [|c s IH]; intros b; [done|]. cbn [replaceRuns].
  destruct (isSpace c) eqn:Hc.
  - destruct b; [done|]. rewrite str_app_cons, str_app_nil_l. cbn [str_forallb].
    by rewrite IH.
  - cbn [str_forallb]. by rewrite (nonSpace_true c Hc), IH.
Qed.

Lemma withoutSpaces_length_le b s :
  String.length (withoutSpaces s) ≤ String.length (replaceRuns "-" b s).
Proof.
  revert b; induction s as [|c s IH]; intros b; [done|].
  cbn [withoutSpaces replaceRuns]. destruct (isSpace c).
  - destruct b; [done|]. rewrite str_app_cons, str_app_nil_l.
    cbn [String.length]. specialize (IH true). lia.
  - cbn [String.length]. specialize (IH false). lia.
Qed.

Lemma withoutSpaces_length_lt s :
  str_forallb nonSpace s = false →
  String.length (withoutSpaces s) < String.length (hyphenated s).
Proof.
  unfold hyphenated. induction s as [|c s IH]; [done|].
  cbn [str_forallb withoutSpaces replaceRuns]. unfold nonSpace at 1.
  destruct (isSpace c); cbn [negb andb].
  - intros _. rewrite str_app_cons, str_app_nil_l. cbn [String.length].
    pose proof (withoutSpaces_length_le true s). lia.
  - intros Hs. cbn [String.length]. specialize (IH Hs). lia.
Qed.

(** X3.  A token contributes exactly one word when (after cleaning) it
    holds no whitespace, and exactly three different words when it does:
    never two. *)
Theorem token_contributes_one_or_three (token : string) (cfg : config) :
  size (processWord token ∅ cfg)
  = if str_forallb nonSpace (cleaned cfg token) then 1 else 3.
Proof.
  rewrite processWord_union, (left_id_L ∅ (∪)). unfold variants.
  set (b := cleaned cfg token).
  destruct (str_forallb nonSpace b) eqn:Hb.
  - unfold hyphenated. rewrite withoutSpaces_id, replaceRuns_id by done.
    replace ({[b; b; b]} : gset string) with ({[b]} : gset string) by set_solver.
    apply size_singleton.
  - assert (b ≠ withoutSpaces b) as H1.
    { intros Heq. pose proof (withoutSpaces_nonSpace b) as H.
      rewrite <- Heq in H. congruence. }
    assert (b ≠ hyphenated b) as H2.
    { intros Heq. pose proof (hyphenated_nonSpace false b) as H.
      fold (hyphenated b) in H. rewrite <- Heq in H. congruence. }
    assert (withoutSpaces b ≠ hyphenated b) as H3.
    { intros Heq. pose proof (withoutSpaces_length_lt b Hb) as H.
      rewrite <- Heq in H. lia. }
    rewrite !size_union, !size_singleton by set_solver. done.
Qed.

Lemma withoutSpaces_all_space s :
  str_forallb isSpace s = true → withoutSpaces s = EmptyString.
Proof.
  induction s as [|c s IH]; [done|]. cbn [str_forallb withoutSpaces].
  intros [-> Hs]%andb_true_iff. by apply IH.
Qed.

Lemma replaceRuns_all_space repl s :
  str_forallb isSpace s = true → replaceRuns repl true s = EmptyString.
Proof.
  induction s as [|c s IH]; [done|]. cbn [str_forallb replaceRuns].
  intros [-> Hs]%andb_true_iff. by apply IH.
Qed.

(** X4.  [processWord] does not look whether a word is empty.  A token
    that is not empty and holds nothing but whitespace puts itself, the
    empty word and the lone hyphen into the word set; given as an argument
    it so brings the empty word into the set [readAndCleanWords] returns,
    and when [range] visits every word of the set, [main] enters the
    search of every searched platform with the empty query. *)
Theorem whitespace_token_adds_empty_word (E : Env) (token : string) :
  cleaned (flags E) token ≠ EmptyString →
  str_forallb isSpace (cleaned (flags E) token) = true →
  (∀ words,
     processWord token words (flags E)
     = words ∪ {[cleaned (flags E) token; EmptyString; "-"]})
  ∧ (∀ args w, token ∈ args →
       ∃ words, readAndCleanWords (flags E) args E w = (Done words, w)
                ∧ EmptyString ∈ words)
  ∧ (∀ args w p, token ∈ args →
       anyCategory (flags E) = true →
       (∀ words word, word ∈ words → word ∈ rangeOrder E words) →
       platformSearched E p = true →
       Enter (entry p) EmptyString ∈ trace (main args E w).2).
Proof.
  intros Hne Hsp.
  assert (∀ words,
            processWord token words (flags E)
            = words ∪ {[cleaned (flags E) token; EmptyString; "-"]}) as Hset.
  { intros words. rewrite processWord_union. unfold variants, hyphenated.
    rewrite withoutSpaces_all_space by done.
    destruct (cleaned (flags E) token) as [|c s]; [done|].
    cbn [str_forallb replaceRuns] in *. apply andb_true_iff in Hsp as [-> Hs].
    by rewrite replaceRuns_all_space, str_app_nil_r. }
  assert (∀ args, token ∈ args →
            EmptyString ∈ (⋃ (variants (flags E) <$> args) : gset string)) as Hin.
  { intros args Hargs. apply elem_of_union_list.
    exists (variants (flags E) token). split.
    - apply list_elem_of_fmap. by exists token.
    - rewrite <- (left_id_L ∅ (∪) (variants _ _)), <- processWord_union, Hset.
      set_solver. }
  split; [exact Hset|]. split.
  - intros args w Hargs. exists (⋃ (variants (flags E) <$> args)).
    split; [|by apply Hin].
    apply readAndCleanWords_args. intros ->. by apply elem_of_nil in Hargs.
  - intros args w p Hargs Hcat Hrange Hp.
    assert (Nat.ltb 0 (length args) = true) as Hlen.
    { destruct args; [by apply elem_of_nil in Hargs | done]. }
    assert (inputWords E args w = ⋃ (variants (flags E) <$> args)) as Hwords.
    { unfold inputWords. rewrite Hlen, (foldl_processWord (λ x, x)). set_solver. }
    rewrite main_run. unfold afterMain. rewrite Hcat, Hlen. cbn [negb orb snd].
    eapply (extends_elem isPrint); [by apply extends_verboseLine|].
    unfold afterPlatforms. apply afterWords_enter; [done|].
    apply Hrange. rewrite Hwords. by apply Hin.
Qed.

Lemma whitespace_token_adds_empty_word_witness :
  processWord "  " ∅ (sampleFlags true false false false false)
  = ∅ ∪ {["  "; EmptyString; "-"]}
  ∧ Enter F_searchGitHub EmptyString
      ∈ trace (main ["  "]
                 (sampleEnv bothTokens (sampleFlags true false false false false))
                 world0).2.
Proof.
  destruct (whitespace_token_adds_empty_word
              (sampleEnv bothTokens (sampleFlags true false false false false))
              "  ") as (Hset & _ & Hmain).
  - discriminate.
  - reflexivity.
  - split; [apply Hset|].
    apply (Hmain ["  "] world0 GitHub).
    + apply list_elem_of_here.
    + reflexivity.
    + intros words word. apply elem_of_elements.
    + reflexivity.
Defined.

(** X5.  The word set depends neither on the order of the arguments nor on
    how often one is repeated: two argument lists with the same members
    give the same set. *)
Theorem word_set_ignores_order_and_repetition
    (cfg : config) (args args' : list string) (E : Env) (w w' : World) :
  args ≠ [] → args' ≠ [] →
  (∀ token, token ∈ args ↔ token ∈ args') →
  (readAndCleanWords cfg args E w).1 = (readAndCleanWords cfg args' E w').1.
Proof.
  intros Ha Ha' Hsame. rewrite !readAndCleanWords_args by done. cbn [fst].
  f_equal. apply set_eq. intros word. rewrite !elem_of_union_list.
  split; intros (X & (token & -> & Htok)%list_elem_of_fmap & Hword);
    exists (variants cfg token); (split; [|done]);
    apply list_elem_of_fmap; exists token; (split; [done|]); by apply Hsame.
Qed.

Lemma word_set_ignores_order_and_repetition_witness :
  let cfg := sampleFlags true false false false false in
  let E := sampleEnv bothTokens cfg in
  (readAndCleanWords cfg ["acme corp"; "initech"; "acme corp"] E world0).1
  = (readAndCleanWords cfg ["initech"; "acme corp"] E world0).1.
Proof.
  intros cfg E.
  apply (word_set_ignores_order_and_repetition cfg
           ["acme corp"; "initech"; "acme corp"] ["initech"; "acme corp"]
           E world0 world0); [discriminate | discriminate |].
  intros token. rewrite !elem_of_cons, !elem_of_nil. tauto.
Defined.

(** ** URL cleaning *)

Lemma str_take_drop n s : str_take n s +:+ str_drop n s = s.
Proof.
  revert s; induction n as [|n IH]; intros [|c s]; simpl; try done.
  by rewrite str_app_cons, IH.
Qed.

Lemma str_take_run p s : str_forallb p (str_take (runLength p s) s) = true.
Proof.
  induction s as [|c s IH]; [done|]. cbn [runLength].
  destruct (p c) eqn:Hc; [|done]. cbn [str_take str_forallb]. by rewrite Hc, IH.
Qed.

Lemma str_take_run_nonempty p s :
  0 < runLength p s → str_take (runLength p s) s ≠ EmptyString.
Proof. destruct s as [|c s]; cbn; [lia|]. by destruct (p c); [|lia]. Qed.

Lemma str_prefixb_mem c p s :
  str_prefixb p s = true → str_mem c p = true → str_mem c s = true.
Proof.
  revert s; induction p as [|a p IH]; intros s; [done|].
  destruct s as [|b s]; [done|]. cbn [str_prefixb str_mem].
  intros [->%Ascii.eqb_eq Hp]%andb_true_iff [Hc|Hc]%orb_true_iff.
  - by rewrite Hc.
  - rewrite (IH s) by done. apply orb_true_r.
Qed.

Lemma notSlash_no_slash s :
  str_forallb notSlash s = true → str_mem "/" s = false.
Proof.
  induction s as [|c s IH]; [done|]. cbn [str_forallb str_mem].
  intros [Hc Hs]%andb_true_iff. rewrite (IH Hs), orb_false_r.
  unfold notSlash, regexp.inClass in Hc. cbn [str_mem] in Hc.
  rewrite orb_false_r in Hc. rewrite Ascii.eqb_sym.
  by destruct (Ascii.eqb c "/").
Qed.

Lemma afterScheme_no_slash s :
  str_forallb notSlash s = true → afterScheme s = None.
Proof.
  intros Hs%notSlash_no_slash. unfold afterScheme.
  destruct (str_prefixb "https://" s) eqn:H1.
  { by rewrite (str_prefixb_mem "/" _ _ H1) in Hs. }
  destruct (str_prefixb "http://" s) eqn:H2; [|done].
  by rewrite (str_prefixb_mem "/" _ _ H2) in Hs.
Qed.

(** What the host pattern captures is a non-empty slash-free piece of the
    token. *)
Lemma hostOf_piece w h :
  hostOf w = Some h →
  h ≠ EmptyString ∧ str_forallb notSlash h = true
  ∧ ∃ pre post, w = pre +:+ h +:+ post.
Proof.
  unfold hostOf. destruct (afterScheme w) as [rest|] eqn:Hrest; [|done].
  set (rest' := if str_prefixb "www." rest
                   && Nat.ltb 0 (runLength notSlash (str_drop 4 rest))
                then str_drop 4 rest else rest).
  destruct (Nat.ltb 0 (runLength notSlash rest')) eqn:Hrun; [|done].
  intros [= <-]. apply Nat.ltb_lt in Hrun.
  split; [by apply str_take_run_nonempty|]. split; [apply str_take_run|].
  assert (∃ pre, w = pre +:+ rest') as [pre ->].
  { assert (∃ pre, w = pre +:+ rest) as [pre ->].
    { unfold afterScheme in Hrest.
      destruct (str_prefixb "https://" w);
        [|destruct (str_prefixb "http://" w); [|done]];
        injection Hrest as <-;
        [exists (str_take 8 w); symmetry; apply (str_take_drop 8 w)
        |exists (str_take 7 w); symmetry; apply (str_take_drop 7 w)]. }
    subst rest'. destruct (_ && _); [|by eexists].
    exists (pre +:+ str_take 4 rest).
    by rewrite str_app_assoc, str_take_drop. }
  exists pre, (str_drop (runLength notSlash rest') rest').
  by rewrite str_take_drop.
Qed.

(** X6.  URL cleaning is idempotent: a cleaned token is left as it is by a
    second cleaning. *)
Theorem cleanWord_idempotent (w : string) : cleanWord (cleanWord w) = cleanWord w.
Proof.
  rewrite (cleanWord_hostOf w). destruct (hostOf w) as [h|] eqn:Hh; cbn [default].
  - apply hostOf_piece in Hh as (_ & Hslash & _).
    rewrite cleanWord_hostOf. unfold hostOf.
    by rewrite afterScheme_no_slash.
  - by rewrite cleanWord_hostOf, Hh.
Qed.

(** X7.  Cleaning never invents text: the result is a contiguous piece of
    the token; it is empty only for the empty token; and whenever cleaning
    changes the token, the result holds no slash. *)
Theorem cleanWord_is_piece_of_token (w : string) :
  (∃ pre post, w = pre +:+ cleanWord w +:+ post)
  ∧ (cleanWord w = EmptyString → w = EmptyString)
  ∧ (cleanWord w ≠ w → str_forallb notSlash (cleanWord w) = true).
Proof.
  rewrite (cleanWord_hostOf w). destruct (hostOf w) as [h|] eqn:Hh; cbn [default].
  - apply hostOf_piece in Hh as (Hne & Hslash & Hpiece). by repeat split.
  - repeat split; [|done..]. exists EmptyString, EmptyString.
    by rewrite str_app_nil_l, str_app_nil_r.
Qed.

Lemma cleanWord_is_piece_of_token_witness :
  str_forallb notSlash (cleanWord "https://www.example.com/path") = true.
Proof.
  apply (proj2 (proj2 (cleanWord_is_piece_of_token "https://www.example.com/path"))).
  vm_compute. discriminate.
Defined.

Lemma runLength_app p h rest :
  str_forallb p h = true →
  runLength p rest = 0 →
  runLength p (h +:+ rest) = String.length h.
Proof.
  intros Hh Hrest. induction h as [|c h IH]; [done|].
  cbn [str_forallb] in Hh. apply andb_true_iff in Hh as [Hc Hh].
  rewrite str_app_cons. cbn [runLength String.length]. by rewrite Hc, IH.
Qed.

Lemma str_take_app h rest : str_take (String.length h) (h +:+ rest) = h.
Proof.
  induction h as [|c h IH]; [by destruct rest|].
  rewrite str_app_cons. cbn [String.length str_take]. by rewrite IH.
Qed.

Lemma str_prefixb_app p h rest :
  str_forallb notSlash p = true →
  runLength notSlash rest = 0 →
  str_prefixb p (h +:+ rest) = str_prefixb p h.
Proof.
  intros Hp Hrest. revert h; induction p as [|a p IH]; intros h; [done|].
  cbn [str_forallb] in Hp. apply andb_true_iff in Hp as [Ha Hp].
  destruct h as [|b h].
  - rewrite str_app_nil_l. destruct rest as [|c rest]; [done|].
    cbn [str_prefixb]. cbn [runLength] in Hrest.
    destruct (Ascii.eqb a c) eqn:Hac; [|done].
    apply Ascii.eqb_eq in Hac as <-. rewrite Ha in Hrest. lia.
  - rewrite str_app_cons. cbn [str_prefixb]. by rewrite IH.
Qed.

(** X8.  Cleaning undoes the building of a URL: from a scheme, an optional
    [www.], a non-empty slash-free host and a path that is empty or starts
    with a slash, it gives back the host.  (Without the [www.] the host
    must not itself start with [www.], which would be taken off.) *)
Theorem cleanWord_extracts_host (secure www : bool) (host path : string) :
  host ≠ EmptyString →
  str_forallb notSlash host = true →
  runLength notSlash path = 0 →
  (www = false → str_prefixb "www." host = false) →
  cleanWord ((if secure then "https://" else "http://")
             +:+ (if www then "www." else EmptyString) +:+ host +:+ path)
  = host.
Proof.
  intros Hne Hhost Hpath Hwww. rewrite cleanWord_hostOf.
  assert (0 < String.length host) as Hlen by (destruct host; [done|cbn; lia]).
  assert (hostOf ((if secure then "https://" else "http://")
                  +:+ (if www then "www." else EmptyString) +:+ host +:+ path)
          = Some host) as ->; [|done].
  unfold hostOf.
  replace (afterScheme ((if secure then "https://" else "http://")
             +:+ (if www then "www." else EmptyString) +:+ host +:+ path))
    with (Some ((if www then "www." else EmptyString) +:+ host +:+ path))
    by by destruct secure.
  destruct www.
  - change (str_prefixb "www." ("www." +:+ host +:+ path)) with true.
    change (str_drop 4 ("www." +:+ host +:+ path)) with (host +:+ path).
    apply Nat.ltb_lt in Hlen.
    rewrite runLength_app, Hlen by done. cbn [andb].
    by rewrite runLength_app, Hlen, str_take_app.
  - apply Nat.ltb_lt in Hlen.
    rewrite str_app_nil_l, str_prefixb_app, Hwww by done. cbn [andb].
    by rewrite runLength_app, Hlen, str_take_app.
Qed.

Lemma cleanWord_extracts_host_witness :
  cleanWord ("http://" +:+ "www." +:+ "git.example.org:8080" +:+ "/a/b")
  = "git.example.org:8080".
Proof.
  apply (cleanWord_extracts_host false true "git.example.org:8080" "/a/b").
  - discriminate.
  - reflexivity.
  - reflexivity.
  - discriminate.
Defined.

(** ** Printing and saving *)

Lemma printedText_lines (g : string → string) results :
  printedText (map (λ r, Print (g r)) results)
  = foldr (λ r acc, g r +:+ acc) EmptyString results.
Proof. induction results as [|r l IH]; [done|]. cbn. by rewrite IH. Qed.

(** X9.  In simple mode [printResults] prints the names and nothing else,
    one per line in the order received, whatever the header: the printed
    text is byte for byte the content the search functions write to the
    result file.  Otherwise it prints the header line first and then one
    bullet line per name. *)
Theorem printResults_output (header : string) (results : list string)
    (E : Env) (w : World) :
  (simpleFlag (flags E) = true →
     printResults header results E w
     = (Done tt, log (map (λ r, Print (r +:+ nl)) results) w)
     ∧ printedText (map (λ r, Print (r +:+ nl)) results) = unlines results)
  ∧ (simpleFlag (flags E) = false →
     printResults header results E w
     = (Done tt, log (Print (nl +:+ header +:+ ":" +:+ nl)
                      :: map (λ r, Print ("- " +:+ r +:+ nl)) results) w)).
Proof.
  rewrite printResults_run. unfold resultLines.
  split; intros ->; [|done]. split; [done|].
  rewrite (printedText_lines (λ r, r +:+ nl)).
  induction results as [|r l IH]; [done|]. cbn [foldr unlines]. by rewrite IH.
Qed.

Lemma printResults_output_witness :
  let E := sampleEnv bothTokens (sampleFlags true false false false false) in
  printResults "GitHub organizations matching 'acme'" ["acme"; "acme-corp"] E world0
  = (Done tt, log [Print ("acme" +:+ nl); Print ("acme-corp" +:+ nl)] world0).
Proof.
  intros E.
  apply (proj1 (proj1 (printResults_output "GitHub organizations matching 'acme'"
                         ["acme"; "acme-corp"] E world0) eq_refl)).
Defined.

Lemma preserves_afterWord g E cfg word :
  g ∉ outputFiles → preserves g (afterWord E cfg word).
Proof.
  unfold outputFiles. rewrite !not_elem_of_cons.
  intros (H1 & H2 & H3 & H4 & H5 & H6 & _) w. unfold afterWord. cbv zeta.
  by rewrite !preserves_when by auto with files.
Qed.

Lemma preserves_foldl {A} g (step : A → World → World) l :
  (∀ x, preserves g (step x)) → preserves g (λ w, foldl (λ w x, step x w) w l).
Proof.
  intros H. induction l as [|x l IH]; intros w; cbn [foldl]; [done|].
  by rewrite IH, H.
Qed.

Lemma preserves_afterMain g E args w :
  (∀ word, preserves g (afterWord E (flags E) word)) →
  files (afterMain E args w).2 !! g = files w !! g.
Proof.
  intros Hstep. unfold afterMain, afterReading.
  destruct (negb (anyCategory (flags E))); cbn [snd]; [done|].
  destruct (Nat.ltb 0 (length args) || isNil (stdinErr E)); cbn [snd].
  - cbn [log files]. unfold afterPlatforms.
    rewrite (preserves_foldl g (afterWord E (flags E))) by done.
    by destruct (Nat.ltb 0 (length args)).
  - by destruct (Nat.ltb 0 (length args)).
Qed.

(** X10.  A run writes to its six result files and to nothing else: any
    other file is, at the end of [main], as it was at the start. *)
Theorem other_files_untouched
    (E : Env) (args : list string) (w : World) (g : string) :
  g ∉ outputFiles →
  files (main args E w).2 !! g = files w !! g.
Proof.
  intros Hg. rewrite main_run. apply preserves_afterMain.
  intros word. by apply preserves_afterWord.
Qed.

Lemma other_files_untouched_witness :
  let E := sampleEnv bothTokens (sampleFlags true true true false false) in
  let w := {| stdin := []; trace := []; files := {["notes.txt" := "keep"]} |} in
  files (main ["acme"] E w).2 !! "notes.txt" = Some "keep".
Proof.
  intros E w.
  rewrite (other_files_untouched E ["acme"] w "notes.txt").
  - reflexivity.
  - unfold outputFiles. rewrite !not_elem_of_cons. by repeat split; try discriminate; apply not_elem_of_nil.
Defined.




(** ** Reading a result file back *)

Lemma Split_unlines names :
  Forall (λ name, str_mem LF name = false) names →
  strings.Split (unlines names) nl = names ++ [EmptyString].
Proof.
  unfold strings.Split. induction 1 as [|name names Hname _ IH]; [done|].
  cbn [unlines]. rewrite str_app_assoc.
  change (nl +:+ unlines names) with (String LF (unlines names)).
  rewrite genSplit_piece by done. by rewrite IH.
Qed.

(** X12.  The result file can be read back: as long as no name holds a
    line feed, splitting the file of a pair at line feeds gives the names
    of the most recent successful call, in order, followed by the empty
    piece after the last line feed. *)
Theorem output_file_reads_back
    (E : Env) (words : gset string) (w : World) (p : Platform) (c : Category)
    (names : list string) :
  lastSuccessful E p c (rangeOrder E words) = Some names →
  Forall (λ name, str_mem LF name = false) names →
  ∃ content,
    files (searchPlatforms words (flags E) E w).2 !! outputFile p c = Some content
    ∧ strings.Split content nl = names ++ [EmptyString].
Proof.
  intros Hlast Hnames. exists (unlines names). split; [|by apply Split_unlines].
  rewrite searchPlatforms_run. cbn [snd]. unfold afterPlatforms.
  by rewrite afterWords_lookup, Hlast.
Qed.

Lemma output_file_reads_back_witness :
  let E := sampleEnv bothTokens (sampleFlags false true false true false) in
  ∃ content,
    files (searchPlatforms {["acme"]} (flags E) E world0).2
      !! "github_repositories.txt" = Some content
    ∧ strings.Split content nl = ["acme/tool"; "acme/site"; EmptyString].
Proof.
  intros E.
  apply (output_file_reads_back E {["acme"]} world0 GitHub Repositories
           ["acme/tool"; "acme/site"]).
  - by vm_compute.
  - by repeat constructor.
Defined.

(** ** Platforms that are left out *)

(** A round of the loop when GitLab is left out: only GitHub shows. *)
Lemma afterWord_without_GitLab E cfg word w :
  negb (ghOnlyFlag cfg) && isNil (glClientOf E).2 = false →
  extends (only GitHub) w (afterWord E cfg word w).
Proof.
  intros Hgl. unfold afterWord. rewrite Hgl. cbn [when].
  apply extends_when. intros w1.
  eapply extends_trans; [by apply extends_verboseLine | apply extends_afterGitHub].
Qed.

Lemma glClientOf_failed E :
  getenv E "GITLAB_ACCESS_TOKEN" = EmptyString
  ∨ newClientErr E (getenv E "GITLAB_ACCESS_TOKEN") ≠ None →
  ∃ msg, glClientOf E = (None, Some msg)
         ∧ (getenv E "GITLAB_ACCESS_TOKEN" = EmptyString →
            msg = "GITLAB_ACCESS_TOKEN environment variable is not set")
         ∧ (getenv E "GITLAB_ACCESS_TOKEN" ≠ EmptyString →
            newClientErr E (getenv E "GITLAB_ACCESS_TOKEN") = Some msg).
Proof.
  intros H. unfold glClientOf. case_decide as Htok.
  - eexists. by repeat split.
  - destruct H as [H|H]; [done|].
    destruct (newClientErr E (getenv E "GITLAB_ACCESS_TOKEN")) as [err|]; [|done].
    exists err. by repeat split.
Qed.

(** X13.  When [GITLAB_ACCESS_TOKEN] is empty, or is set but refused by
    [gitlab.NewClient], no GitLab client is created: [searchPlatforms]
    prints the error (the fixed message, or the library's), returns
    normally and shows nothing of GitLab in its trace, while GitHub, when
    it is searched, is still entered for every word visited. *)
Theorem GitLab_client_failure (E : Env) (words : gset string) (w : World) :
  getenv E "GITLAB_ACCESS_TOKEN" = EmptyString
  ∨ newClientErr E (getenv E "GITLAB_ACCESS_TOKEN") ≠ None →
  ∃ msg,
    (createGitLabClient E w).1 = Done (None, Some msg)
    ∧ (getenv E "GITLAB_ACCESS_TOKEN" = EmptyString →
       msg = "GITLAB_ACCESS_TOKEN environment variable is not set")
    ∧ (getenv E "GITLAB_ACCESS_TOKEN" ≠ EmptyString →
       newClientErr E (getenv E "GITLAB_ACCESS_TOKEN") = Some msg)
    ∧ (searchPlatforms words (flags E) E w).1 = Done tt
    ∧ Print ("Error creating GitLab client: " +:+ msg +:+ nl)
        ∈ trace (searchPlatforms words (flags E) E w).2
    ∧ extends (λ e, ¬ touches GitLab e) w (searchPlatforms words (flags E) E w).2
    ∧ (platformSearched E GitHub = true →
       ∀ word, word ∈ rangeOrder E words →
         Enter F_searchGitHub word
           ∈ trace (searchPlatforms words (flags E) E w).2).
Proof.
  intros (msg & Hgl & Hmsg1 & Hmsg2)%glClientOf_failed. exists msg.
  rewrite createGitLabClient_run, searchPlatforms_run, Hgl. cbn [fst snd].
  do 4 (split; [done|]).
  assert (∀ word w, extends (only GitHub) w (afterWord E (flags E) word w)) as Hstep.
  { intros word w1. apply afterWord_without_GitLab. rewrite Hgl.
    by rewrite andb_false_r. }
  split; [|split].
  - apply (extends_elem (λ _, True) (log (clientErrors E) w)).
    + apply (extends_foldl (λ _, True) (afterWord E (flags E))).
      intros; apply afterWord_extends_any.
    + unfold clientErrors. rewrite Hgl. cbn [snd log trace].
      apply elem_of_app; right. apply elem_of_app; right.
      apply list_elem_of_here.
  - apply (extends_mono (only GitHub)); [|by apply extends_afterPlatforms].
    intros e. by apply only_not_touches.
  - intros Hgh word Hword. unfold afterPlatforms.
    by apply (afterWords_enter E _ _ _ GitHub).
Qed.

Lemma GitLab_client_failure_witness :
  let E := rejectedToken (sampleEnv bothTokens (sampleFlags true false false false false)) in
  ∃ msg,
    (createGitLabClient E world0).1 = Done (None, Some msg)
    ∧ Print ("Error creating GitLab client: " +:+ msg +:+ nl)
        ∈ trace (searchPlatforms {["acme"]} (flags E) E world0).2.
Proof.
  intros E.
  destruct (GitLab_client_failure E {["acme"]} world0) as (msg & H1 & _ & _ & _ & H2 & _).
  - right. vm_compute. discriminate.
  - exists msg. split; [exact H1 | exact H2].
Defined.

Lemma afterPlatforms_nothing_searched E words w :
  platformSearched E GitHub = false → platformSearched E GitLab = false →
  afterPlatforms E words (flags E) w = log (clientErrors E) w.
Proof.
  intros Hgh Hgl. unfold afterPlatforms.
  generalize (log (clientErrors E) w) as w1.
  induction (rangeOrder E words) as [|x l IH]; intros w1; [done|].
  cbn [foldl]. by rewrite afterWord_without_both.
Qed.

(** X14.  When neither platform is searched, for whatever reason (both
    tokens missing, say), a run sends nothing and writes nothing: all it
    adds to the trace is printed text, and the files are as they were. *)
Theorem nothing_searched_nothing_done (E : Env) (args : list string) (w : World) :
  platformSearched E GitHub = false → platformSearched E GitLab = false →
  extends isPrint w (main args E w).2 ∧ files (main args E w).2 = files w.
Proof.
  intros Hgh Hgl. rewrite main_run. split.
  - apply extends_afterMain; [done|]. intros word w1.
    rewrite afterWord_without_both by done. apply extends_refl.
  - unfold afterMain, afterReading.
    destruct (negb (anyCategory (flags E))); cbn [snd]; [done|].
    destruct (Nat.ltb 0 (length args) || isNil (stdinErr E)); cbn [snd].
    + rewrite afterPlatforms_nothing_searched by done.
      by destruct (Nat.ltb 0 (length args)).
    + by destruct (Nat.ltb 0 (length args)).
Qed.

Lemma nothing_searched_nothing_done_witness :
  let E := sampleEnv [] (sampleFlags true true true false false) in
  extends isPrint world0 (main ["acme"] E world0).2
  ∧ files (main ["acme"] E world0).2 = files world0.
Proof.
  intros E. apply (nothing_searched_nothing_done E ["acme"] world0); reflexivity.
Defined.

(** ** The combined GitLab search *)

Lemma reported_created E header file names w :
  createErr E file = None →
  reported E header file names w
  = store file (unlines names) (log (resultLines E header names) w).
Proof. intros H. unfold reported. by rewrite H. Qed.

(** X15.  With [-o] but not [-u], once the groups are printed and saved
    [searchGitLabGroupsAndUsers] still asks GitLab for the user list.  The
    users it gets are neither printed nor saved, but an error of that
    request is printed all the same. *)
Theorem gitlab_user_list_requested_without_u
    (E : Env) (client : gitlab_Client) (q : string) (n : Z) (w : World)
    (groups : list string) :
  orgFlag (flags E) = true → userFlag (flags E) = false →
  remote E (groupsRequest client q n) = inr groups →
  createErr E "gitlab_groups.txt" = None →
  searchGitLabGroupsAndUsers client q n E w
  = (Done tt,
     let w1 :=
       store "gitlab_groups.txt" (unlines groups)
         (log ([Enter F_searchGitLabGroupsAndUsers q;
                Call (groupsRequest client q n)]
               ++ resultLines E ("GitLab groups matching '" +:+ q +:+ "'") groups)
            w) in
     let w2 := log [Call (usersRequest client q n)] w1 in
     match remote E (usersRequest client q n) with
     | inl err => log [Print ("Error searching GitLab users: " +:+ err +:+ nl)] w2
     | inr _ => w2
     end).
Proof.
  intros Ho Hu Hg Hc. rewrite searchGitLabGroupsAndUsers_run.
  unfold afterGitLabGroupsAndUsers, afterGitLabUsers.
  rewrite Hg, Ho, Hu, Hc, reported_created, log_log by done. cbv zeta.
  by destruct (remote E (usersRequest client q n)).
Qed.

Lemma gitlab_user_list_requested_without_u_witness :
  let E := allAnswer (sampleEnv bothTokens (sampleFlags true false false false false)) in
  let client := {| gl_token := "glpat-1" |} in
  searchGitLabGroupsAndUsers client "acme" 10 E world0
  = (Done tt,
     log [Call (usersRequest client "acme" 10)]
       (store "gitlab_groups.txt" ("acme" +:+ nl)
          (log [Enter F_searchGitLabGroupsAndUsers "acme";
                Call (groupsRequest client "acme" 10);
                Print ("acme" +:+ nl)] world0))).
Proof.
  intros E client.
  exact (gitlab_user_list_requested_without_u E client "acme" 10%Z world0 ["acme"]
           eq_refl eq_refl eq_refl eq_refl).
Defined.

(** ** The requests of a run *)

Lemma extends_when_true P b f w :
  (b = true → ∀ w, extends P w (f w)) → extends P w (when b f w).
Proof. intros H. destruct b; [by apply H | apply extends_refl]. Qed.

Lemma extends_foldl_in {A} P (step : A → World → World) l w :
  (∀ x w, x ∈ l → extends P w (step x w)) →
  extends P w (foldl (λ w x, step x w) w l).
Proof.
  revert w; induction l as [|x l IH]; intros w H; cbn [foldl].
  - apply extends_refl.
  - eapply extends_trans; [apply H, list_elem_of_here|].
    apply IH. intros y w1 Hy. by apply H, list_elem_of_further.
Qed.

(** Peel the last conditional step off a world. *)
Ltac ext_when :=
  match goal with
  | |- extends ?P ?w (when ?b ?f ?w1) =>
      apply (extends_trans P w w1); [|apply extends_when_true]
  end.

(** Every request of a round is justified by the word of the round. *)
Lemma afterWord_justified E word w :
  extends (justified E [word]) w (afterWord E (flags E) word w).
Proof.
  assert (∀ r, requestFor E word r → justified E [word] (Call r)) as Hj.
  { intros r Hr. exists word. split; [apply list_elem_of_here | done]. }
  unfold afterWord. cbv zeta. ext_when; [ext_when; [apply extends_refl|]|].
  - intros [Hgl Hok]%andb_true_iff w1. apply negb_true_iff in Hgl. cbv beta.
    ext_log_by ltac:(by apply extends_verboseLine).
    unfold afterGitHub. rewrite (ghClientOf_ok E Hok). ext_log.
    ext_when; [ext_when; [ext_when; [apply extends_refl|]|]|].
    + intros Ho w2. apply extends_afterSearch; [done..|].
      constructor; [done|]. constructor; [|constructor]. apply Hj.
      split; [done|]. cbn. by eauto.
    + intros Hr w2. apply extends_afterSearch; [done..|].
      constructor; [done|]. constructor; [|constructor]. apply Hj. by split.
    + intros Hu w2. apply extends_afterSearch; [done..|].
      constructor; [done|]. constructor; [|constructor]. apply Hj.
      split; [done|]. cbn. by eauto.
  - intros [Hgh Hok]%andb_true_iff w1. apply negb_true_iff in Hgh. cbv beta.
    ext_log_by ltac:(by apply extends_verboseLine).
    unfold afterGitLab. rewrite (glClientOf_ok E Hok). ext_log.
    ext_when; [ext_when; [apply extends_refl|]|].
    + intros Hou w2.
      apply extends_afterGitLabGroupsAndUsers; [done..| |]; apply Hj; by split.
    + intros Hr w2. apply extends_afterSearch; [done..|].
      constructor; [|constructor]. apply Hj. by split.
Qed.

(** X16.  Every request [searchPlatforms] sends is justified: it asks for
    one page of [maxFlag] items, carries the token of its platform, belongs
    to a platform that is not excluded and to a category that is asked
    for, and its query is a word of the set, prefixed on GitHub with
    [type:org] or [type:user] for organisations and users. *)
Theorem requests_are_justified
    (E : Env) (words : gset string) (w : World) (r : Request) :
  Call r ∈ trace (searchPlatforms words (flags E) E w).2 →
  Call r ∈ trace w
  ∨ ∃ word, word ∈ rangeOrder E words ∧ requestFor E word r.
Proof.
  rewrite searchPlatforms_run. cbn [snd]. intros Hr.
  assert (extends (justified E (rangeOrder E words)) w
            (afterPlatforms E words (flags E) w)) as (es & Hes & HP).
  { unfold afterPlatforms.
    eapply extends_trans; [by apply extends_clientErrors|].
    apply (extends_foldl_in _ (afterWord E (flags E))). intros x w1 Hx.
    eapply extends_mono; [|apply afterWord_justified].
    intros [s|f q|r'|] He; try done. destruct He as (word & Hw & Hreq).
    apply list_elem_of_singleton in Hw as ->. by exists x. }
  rewrite Hes in Hr. apply elem_of_app in Hr as [Hr|Hr]; [by left|right].
  rewrite Forall_forall in HP. exact (HP _ Hr).
Qed.

Lemma requests_are_justified_witness :
  let E := allAnswer (sampleEnv bothTokens (sampleFlags false true false false true)) in
  let r := projectsRequest {| gl_token := "glpat-1" |} "acme" 10 in
  ∃ word, word ∈ rangeOrder E {["acme"]} ∧ requestFor E word r.
Proof.
  intros E r.
  destruct (requests_are_justified E {["acme"]} world0 r) as [H|H].
  - rewrite searchPlatforms_run. vm_compute.
    apply list_elem_of_further, list_elem_of_further, list_elem_of_here.
  - by apply elem_of_nil in H.
  - exact H.
Defined.

(** ** The requests of each round *)

Lemma requestsOf_app es1 es2 :
  requestsOf (es1 ++ es2) = requestsOf es1 ++ requestsOf es2.
Proof.
  induction es1 as [|e es1 IH]; [done|]. destruct e; cbn; by rewrite ?IH.
Qed.

Lemma requestsOf_prints es : Forall isPrint es → requestsOf es = [].
Proof. induction 1 as [|e es He _ IH]; [done|]. by destruct e. Qed.

Lemma requestsOf_sending r : requestsOf (sending r) = [r].
Proof. unfold sending. by destruct (endpointPlatform (endpoint r)). Qed.

Lemma asks_refl w : asks [] w w.
Proof. unfold asks. by rewrite app_nil_r. Qed.

Lemma asks_trans rs1 rs2 w1 w2 w3 :
  asks rs1 w1 w2 → asks rs2 w2 w3 → asks (rs1 ++ rs2) w1 w3.
Proof. unfold asks. intros H1 H2. by rewrite H2, H1, app_assoc. Qed.

Lemma asks_log es w : asks (requestsOf es) w (log es w).
Proof. unfold asks. cbn. apply requestsOf_app. Qed.

Lemma asks_printing w w' : extends isPrint w w' → asks [] w w'.
Proof.
  intros (es & H & Hp). unfold asks.
  rewrite H, requestsOf_app. by rewrite (requestsOf_prints es).
Qed.

Lemma asks_after_printing rs w w1 w' :
  extends isPrint w w1 → asks rs w1 w' → asks rs w w'.
Proof.
  intros (es & H & Hp). unfold asks.
  rewrite H, requestsOf_app. by rewrite (requestsOf_prints es), app_nil_r.
Qed.

Lemma asks_after_enter f q rs w w' :
  asks rs (log [Enter f q] w) w' → asks rs w w'.
Proof. unfold asks. cbn. rewrite requestsOf_app. cbn. by rewrite app_nil_r. Qed.

Lemma asks_when rs (b : bool) f w :
  asks rs w (f w) → asks (if b then rs else []) w (when b f w).
Proof. intros H. destruct b; [done | apply asks_refl]. Qed.

Lemma asks_afterSearch E f q r d header file w :
  asks [r] w (afterSearch E f q r d header file w).
Proof.
  unfold afterSearch. cbv zeta.
  apply (asks_trans [r] [] w (log (Enter f q :: sending r) w)).
  { unfold asks. cbn. by rewrite requestsOf_app; cbn; rewrite requestsOf_sending. }
  destruct (remote E r).
  - apply asks_printing, extends_log. by repeat constructor.
  - by apply asks_printing, extends_reported.
Qed.

Lemma asks_afterGitLabUsers E client q n w :
  asks [usersRequest client q n] w (afterGitLabUsers E client q n w).
Proof.
  unfold afterGitLabUsers. cbv zeta.
  apply (asks_trans [_] [] w (log [Call (usersRequest client q n)] w));
    [apply asks_log|].
  destruct (remote E _).
  - apply asks_printing, extends_log. by repeat constructor.
  - destruct (userFlag (flags E)); [|apply asks_refl].
    by apply asks_printing, extends_reported.
Qed.

Lemma asks_afterGitLabGroupsAndUsers E client q n w :
  asks (groupsRequest client q n
        :: optional (answered E (groupsRequest client q n)
                     && (negb (orgFlag (flags E))
                         || isNil (createErr E "gitlab_groups.txt")))
             (usersRequest client q n))
    w (afterGitLabGroupsAndUsers E client q n w).
Proof.
  unfold afterGitLabGroupsAndUsers, answered. cbv zeta.
  apply (asks_trans [_] _ w (log [Enter F_searchGitLabGroupsAndUsers q;
                                  Call (groupsRequest client q n)] w));
    [apply asks_log|].
  destruct (remote E _); cbn [andb optional].
  { apply asks_printing, extends_log. by repeat constructor. }
  destruct (orgFlag (flags E)); cbn [negb orb]; [|apply asks_afterGitLabUsers].
  destruct (createErr E _); cbn [isNil optional].
  - by apply asks_printing, extends_reported.
  - eapply asks_after_printing; [|apply asks_afterGitLabUsers].
    by apply extends_reported.
Qed.

Lemma asks_afterGitHub E client q cfg w :
  asks (optional (orgFlag cfg) (orgsRequest client q (maxFlag cfg))
        ++ optional (repoFlag cfg) (reposRequest client q (maxFlag cfg))
        ++ optional (userFlag cfg) (ghUsersRequest client q (maxFlag cfg)))
    w (afterGitHub E (Some client) q cfg w).
Proof.
  unfold afterGitHub. cbv zeta.
  apply (asks_after_enter F_searchGitHub q).
  generalize (log [Enter F_searchGitHub q] w). intros w1.
  rewrite app_assoc.
  apply (asks_trans _ _ w1
           (when (repoFlag cfg) (afterGitHubRepositories E client q (maxFlag cfg))
              (when (orgFlag cfg) (afterGitHubOrganizations E client q (maxFlag cfg))
                 w1)));
    [|apply asks_when, asks_afterSearch].
  apply (asks_trans _ _ w1
           (when (orgFlag cfg) (afterGitHubOrganizations E client q (maxFlag cfg))
              w1)); apply asks_when, asks_afterSearch.
Qed.

Lemma asks_afterGitLab E client q cfg w :
  asks ((if orgFlag cfg || userFlag cfg then
           groupsRequest client q (maxFlag cfg)
           :: optional (answered E (groupsRequest client q (maxFlag cfg))
                        && (negb (orgFlag (flags E))
                            || isNil (createErr E "gitlab_groups.txt")))
                (usersRequest client q (maxFlag cfg))
         else [])
        ++ optional (repoFlag cfg) (projectsRequest client q (maxFlag cfg)))
    w (afterGitLab E (Some client) q cfg w).
Proof.
  unfold afterGitLab. cbv zeta.
  apply (asks_after_enter F_searchGitLab q).
  generalize (log [Enter F_searchGitLab q] w). intros w1.
  apply (asks_trans _ _ w1
           (when (orgFlag cfg || userFlag cfg)
              (afterGitLabGroupsAndUsers E client q (maxFlag cfg)) w1));
    [apply asks_when, asks_afterGitLabGroupsAndUsers
    |apply asks_when, asks_afterSearch].
Qed.

Lemma asks_afterWord E word w :
  asks (roundRequests E word) w (afterWord E (flags E) word w).
Proof.
  unfold afterWord, roundRequests, platformSearched. cbv zeta.
  set (w1 := when _ _ w).
  apply (asks_trans _ _ w w1).
  - subst w1.
    destruct (negb (glOnlyFlag (flags E)) && isNil (ghClientOf E).2) eqn:Hgh;
      cbn [when]; [|apply asks_refl].
    apply andb_true_iff in Hgh as [_ Hok]. rewrite (ghClientOf_ok E Hok).
    eapply asks_after_printing; [|apply asks_afterGitHub].
    by apply extends_verboseLine.
  - destruct (negb (ghOnlyFlag (flags E)) && isNil (glClientOf E).2) eqn:Hgl;
      cbn [when]; [|apply asks_refl].
    apply andb_true_iff in Hgl as [_ Hok]. rewrite (glClientOf_ok E Hok).
    eapply asks_after_printing; [|apply asks_afterGitLab].
    by apply extends_verboseLine.
Qed.

Lemma asks_foldl E l w :
  asks (concat (roundRequests E <$> l)) w
    (foldl (λ w word, afterWord E (flags E) word w) w l).
Proof.
  revert w; induction l as [|x l IH]; intros w; cbn [foldl fmap list_fmap concat].
  - apply asks_refl.
  - eapply asks_trans; [apply asks_afterWord | apply IH].
Qed.

Lemma type_org_user word : "type:org " +:+ word ≠ "type:user " +:+ word.
Proof. rewrite !str_app_cons. discriminate. Qed.

Lemma roundRequests_NoDup E word : NoDup (roundRequests E word).
Proof.
  pose proof (type_org_user word) as Hq.
  unfold roundRequests, optional.
  repeat case_match; cbn [app];
    repeat (apply NoDup_cons; split);
    try apply NoDup_nil_2;
    rewrite ?not_elem_of_cons; repeat split; try apply not_elem_of_nil;
    intros Heq; try discriminate Heq;
    injection Heq as Heq; congruence.
Qed.

Lemma roundRequests_length E word : length (roundRequests E word) ≤ 6.
Proof.
  unfold roundRequests, optional. repeat case_match; cbn; lia.
Qed.

(** X17.  The calls [searchPlatforms] makes to the client libraries are
    fixed by the words it visits: the requests of a run are, in order,
    those of its rounds, and a round makes for its word one call for each
    category asked for on each platform searched, the GitLab user list
    after the group list and only when that one was answered (and, under
    [-o], saved).  No request occurs twice in a round, and a round has at
    most six: the program has no retry and no paging loop of its own. *)
Theorem requests_of_each_round (E : Env) (words : gset string) (w : World) :
  requestsOf (trace (searchPlatforms words (flags E) E w).2)
  = requestsOf (trace w) ++ concat (roundRequests E <$> rangeOrder E words)
  ∧ ∀ word, NoDup (roundRequests E word) ∧ length (roundRequests E word) ≤ 6.
Proof.
  split; [|intros word; split;
           [apply roundRequests_NoDup | apply roundRequests_length]].
  rewrite searchPlatforms_run. unfold afterPlatforms.
  apply (asks_after_printing _ w (log (clientErrors E) w)).
  - by apply extends_clientErrors.
  - apply asks_foldl.
Qed.

(** ** Empty input *)

(** X18.  With no arguments and an empty standard input the word set is
    empty: [main] still creates the clients and prints their errors, but
    sends nothing, writes nothing and ends with status 0. *)
Theorem empty_input_searches_nothing (E : Env) (w : World) :
  anyCategory (flags E) = true → stdinErr E = None →
  stdin w = [] → rangeOrder E ∅ = [] →
  (main [] E w).1 = Done tt
  ∧ files (main [] E w).2 = files w
  ∧ extends isPrint w (main [] E w).2
  ∧ ∀ e, e ∈ clientErrors E → e ∈ trace (main [] E w).2.
Proof.
  intros Hcat Herr Hin Hrange. rewrite main_run. unfold afterMain.
  rewrite Hcat, Herr. cbn [negb length Nat.ltb Nat.leb orb isNil fst snd].
  assert (inputWords E [] w = ∅) as ->.
  { unfold inputWords. cbn [length Nat.ltb Nat.leb]. by rewrite Hin. }
  unfold afterPlatforms. rewrite Hrange. cbn [foldl].
  split; [done|]. split; [done|]. split.
  - apply (extends_trans _ _ (afterReading E [] w));
      [by apply extends_afterReading|].
    generalize (afterReading E [] w) as w1. intros w1.
    eapply extends_trans; [|by apply extends_verboseLine].
    eapply extends_trans; [|by apply extends_clientErrors].
    by apply extends_verboseLines.
  - intros e He. cbn [log trace]. rewrite !elem_of_app. by left; right.
Qed.

Lemma empty_input_searches_nothing_witness :
  let E := sampleEnv gitlabTokenOnly (sampleFlags true false false false false) in
  (main [] E world0).1 = Done tt ∧ files (main [] E world0).2 = files world0.
Proof.
  intros E.
  destruct (empty_input_searches_nothing E world0) as (H1 & H2 & _);
    [reflexivity | reflexivity | reflexivity | by vm_compute |].
  split; [exact H1 | exact H2].
Defined.

(** ** The order of the searches *)

Lemma afterGitHub_about E client word cfg w :
  extends (λ e, only GitHub e ∧ about word e) w (afterGitHub E client word cfg w).
Proof.
  unfold afterGitHub. ext_log. destruct client as [client|]; [|apply extends_refl].
  ext_when; [ext_when; [ext_when; [apply extends_refl|]|]|];
    intros _ w2; apply extends_afterSearch; by repeat constructor.
Qed.

Lemma afterGitLab_about E client word cfg w :
  extends (λ e, only GitLab e ∧ about word e) w (afterGitLab E client word cfg w).
Proof.
  unfold afterGitLab. ext_log. destruct client as [client|]; [|apply extends_refl].
  ext_when; [ext_when; [apply extends_refl|]|]; intros _ w2;
    [by apply extends_afterGitLabGroupsAndUsers | apply extends_afterSearch; by repeat constructor].
Qed.

Lemma afterWord_round E cfg word w :
  ∃ seg, trace (afterWord E cfg word w) = trace w ++ seg.1 ++ seg.2
         ∧ roundOf word seg.
Proof.
  unfold afterWord. cbv zeta.
  set (w1 := when (negb (glOnlyFlag cfg) && isNil (ghClientOf E).2) _ w).
  assert (extends (λ e, only GitHub e ∧ about word e) w w1) as (a & Ha & HPa).
  { subst w1. apply extends_when. intros w0.
    ext_log_by ltac:(by apply extends_verboseLine). apply afterGitHub_about. }
  assert (extends (λ e, only GitLab e ∧ about word e) w1
            (when (negb (ghOnlyFlag cfg) && isNil (glClientOf E).2)
               (λ w, afterGitLab E (glClientOf E).1 word cfg
                       (log (verboseLine E
                               ("Searching GitLab for word: " +:+ word +:+ nl)) w))
               w1)) as (b & Hb & HPb).
  { apply extends_when. intros w0.
    ext_log_by ltac:(by apply extends_verboseLine). apply afterGitLab_about. }
  exists (a, b). split; [|done]. cbn [fst snd]. by rewrite Hb, Ha, app_assoc.
Qed.

Lemma afterWords_rounds E cfg l w :
  ∃ segs,
    trace (foldl (λ w word, afterWord E cfg word w) w l)
    = trace w ++ concat ((λ seg, seg.1 ++ seg.2) <$> segs)
    ∧ Forall2 roundOf l segs.
Proof.
  revert w; induction l as [|word l IH]; intros w; cbn [foldl].
  - exists []. split; [by rewrite app_nil_r | constructor].
  - destruct (afterWord_round E cfg word w) as (seg & Hseg & Hround).
    destruct (IH (afterWord E cfg word w)) as (segs & Hsegs & Hrounds).
    exists (seg :: segs). split; [|by constructor].
    cbn [fmap list_fmap concat]. by rewrite Hsegs, Hseg, !app_assoc.
Qed.

(** X19.  The searches are strictly sequential.  After the client errors,
    the trace of [searchPlatforms] is one segment per word, in the order
    the words are visited; in each segment everything that shows of GitHub
    comes before everything that shows of GitLab, and every search
    function is entered for the word of the segment. *)
Theorem rounds_GitHub_then_GitLab (E : Env) (words : gset string) (w : World) :
  ∃ segs,
    trace (searchPlatforms words (flags E) E w).2
    = trace w ++ clientErrors E ++ concat ((λ seg, seg.1 ++ seg.2) <$> segs)
    ∧ Forall2 roundOf (rangeOrder E words) segs.
Proof.
  rewrite searchPlatforms_run. cbn [snd]. unfold afterPlatforms.
  destruct (afterWords_rounds E (flags E) (rangeOrder E words)
              (log (clientErrors E) w)) as (segs & Hsegs & Hrounds).
  exists segs. split; [|done]. by rewrite Hsegs, app_assoc.
Qed.

(** ** The output style *)

Lemma unprinted_app es1 es2 : unprinted (es1 ++ es2) = unprinted es1 ++ unprinted es2.
Proof.
  induction es1 as [|e es1 IH]; [done|]. destruct e; cbn; by rewrite ?IH.
Qed.

Lemma unprinted_prints es : Forall isPrint es → unprinted es = [].
Proof. induction 1 as [|e es He _ IH]; [done|]. by destruct e. Qed.

Lemma alike_refl w : alike w w.
Proof. done. Qed.

Lemma alike_log es es' w w' :
  unprinted es = unprinted es' → alike w w' → alike (log es w) (log es' w').
Proof.
  intros Hes (Hi & Hf & Ht). repeat split; try done.
  cbn [log trace]. by rewrite !unprinted_app, Hes, Ht.
Qed.

Lemma alike_prints es es' w w' :
  Forall isPrint es → Forall isPrint es' → alike w w' →
  alike (log es w) (log es' w').
Proof. intros H H'. apply alike_log. by rewrite !unprinted_prints. Qed.

Lemma alike_store f c w w' : alike w w' → alike (store f c w) (store f c w').
Proof. intros (Hi & Hf & Ht). repeat split; try done. cbn. by rewrite Hf. Qed.

Lemma alike_when b f f' w w' :
  (∀ w w', alike w w' → alike (f w) (f' w')) →
  alike w w' → alike (when b f w) (when b f' w').
Proof. intros H Hw. destruct b; [by apply H | done]. Qed.

Lemma resultLines_prints E header names : Forall isPrint (resultLines E header names).
Proof.
  unfold resultLines.
  destruct (simpleFlag (flags E)); [|constructor; [done|]];
    apply Forall_forall; intros e (x & -> & _)%list_elem_of_fmap; done.
Qed.

Lemma verboseLine_prints E s : Forall isPrint (verboseLine E s).
Proof. unfold verboseLine. destruct (verboseFlag (flags E)); by repeat constructor. Qed.

Section Style.
Context (E E' : Env) (HS : sameButStyle E E').

Lemma alike_reported header file names w w' :
  alike w w' → alike (reported E header file names w) (reported E' header file names w').
Proof.
  intros Hw. destruct HS as (_ & _ & Hc & _). unfold reported. rewrite <- Hc.
  destruct (createErr E file).
  - apply alike_prints; [by repeat constructor..|].
    by apply alike_prints; [apply resultLines_prints..|].
  - by apply alike_store, alike_prints; [apply resultLines_prints..|].
Qed.

Lemma alike_afterSearch f q r d header file w w' :
  alike w w' →
  alike (afterSearch E f q r d header file w) (afterSearch E' f q r d header file w').
Proof.
  intros Hw. destruct HS as (_ & Hr & _). unfold afterSearch. rewrite <- Hr.
  cbv zeta. destruct (remote E r).
  - by apply alike_prints; [by repeat constructor..|]; apply alike_log.
  - by apply alike_reported, alike_log.
Qed.

Lemma alike_afterGitLabUsers client q n w w' :
  alike w w' →
  alike (afterGitLabUsers E client q n w) (afterGitLabUsers E' client q n w').
Proof.
  intros Hw. destruct HS as (_ & Hr & _ & _ & _ & _ & _ & _ & _ & Hu & _).
  unfold afterGitLabUsers. rewrite <- Hr, <- Hu. cbv zeta.
  destruct (remote E _).
  - by apply alike_prints; [by repeat constructor..|]; apply alike_log.
  - destruct (userFlag (flags E)); [|by apply alike_log].
    by apply alike_reported, alike_log.
Qed.

Lemma alike_afterGitLabGroupsAndUsers client q n w w' :
  alike w w' →
  alike (afterGitLabGroupsAndUsers E client q n w)
    (afterGitLabGroupsAndUsers E' client q n w').
Proof.
  intros Hw. destruct HS as (_ & Hr & Hc & _ & _ & _ & _ & Ho & _).
  unfold afterGitLabGroupsAndUsers. rewrite <- Hr, <- Hc, <- Ho. cbv zeta.
  destruct (remote E _).
  - by apply alike_prints; [by repeat constructor..|]; apply alike_log.
  - destruct (orgFlag (flags E)).
    + destruct (createErr E _).
      * by apply alike_reported, alike_log.
      * by apply alike_afterGitLabUsers, alike_reported, alike_log.
    + by apply alike_afterGitLabUsers, alike_log.
Qed.

Lemma alike_afterGitHub client q cfg w w' :
  alike w w' → alike (afterGitHub E client q cfg w) (afterGitHub E' client q cfg w').
Proof.
  intros Hw. unfold afterGitHub. cbv zeta. destruct client as [client|].
  - repeat (apply alike_when; [intros; by apply alike_afterSearch|]).
    by apply alike_log.
  - by apply alike_log.
Qed.

Lemma alike_afterGitLab client q cfg w w' :
  alike w w' → alike (afterGitLab E client q cfg w) (afterGitLab E' client q cfg w').
Proof.
  intros Hw. unfold afterGitLab. cbv zeta. destruct client as [client|].
  - apply alike_when; [intros; by apply alike_afterSearch|].
    apply alike_when; [intros; by apply alike_afterGitLabGroupsAndUsers|].
    by apply alike_log.
  - by apply alike_log.
Qed.

Lemma ghClientOf_style : ghClientOf E = ghClientOf E'.
Proof. destruct HS as (Hg & _). unfold ghClientOf. by rewrite Hg. Qed.

Lemma glClientOf_style : glClientOf E = glClientOf E'.
Proof. destruct HS as (Hg & _ & _ & Hn & _). unfold glClientOf. by rewrite Hg, Hn. Qed.

Lemma alike_afterWord cfg word w w' :
  alike w w' → alike (afterWord E cfg word w) (afterWord E' cfg word w').
Proof.
  intros Hw. unfold afterWord. cbv zeta.
  rewrite <- ghClientOf_style, <- glClientOf_style.
  apply alike_when.
  - intros w1 w1' H1. apply alike_afterGitLab.
    by apply alike_prints; [apply verboseLine_prints..|].
  - apply alike_when; [|done].
    intros w1 w1' H1. apply alike_afterGitHub.
    by apply alike_prints; [apply verboseLine_prints..|].
Qed.

Lemma clientErrors_prints (E0 : Env) : Forall isPrint (clientErrors E0).
Proof.
  unfold clientErrors. apply Forall_app.
  split; [destruct (ghClientOf E0).2 | destruct (glClientOf E0).2];
    by repeat constructor.
Qed.

Lemma alike_afterPlatforms words cfg w w' :
  alike w w' →
  alike (afterPlatforms E words cfg w) (afterPlatforms E' words cfg w').
Proof.
  intros Hw. destruct HS as (_ & _ & _ & _ & Hrange & _).
  unfold afterPlatforms. rewrite <- Hrange.
  assert (alike (log (clientErrors E) w) (log (clientErrors E') w')) as H0
    by by apply alike_prints; [apply clientErrors_prints..|].
  revert H0. generalize (log (clientErrors E) w) (log (clientErrors E') w').
  induction (rangeOrder E words) as [|x l IH]; intros w1 w1' H1; [done|].
  cbn [foldl]. by apply IH, alike_afterWord.
Qed.

End Style.

Lemma afterWord_search_flags E cfg cfg' word w :
  orgFlag cfg = orgFlag cfg' → repoFlag cfg = repoFlag cfg' →
  userFlag cfg = userFlag cfg' → maxFlag cfg = maxFlag cfg' →
  ghOnlyFlag cfg = ghOnlyFlag cfg' → glOnlyFlag cfg = glOnlyFlag cfg' →
  afterWord E cfg word w = afterWord E cfg' word w.
Proof.
  intros Ho Hr Hu Hm Hgh Hgl. unfold afterWord, afterGitHub, afterGitLab.
  by rewrite Ho, Hr, Hu, Hm, Hgh, Hgl.
Qed.

Lemma afterPlatforms_search_flags E cfg cfg' words w :
  orgFlag cfg = orgFlag cfg' → repoFlag cfg = repoFlag cfg' →
  userFlag cfg = userFlag cfg' → maxFlag cfg = maxFlag cfg' →
  ghOnlyFlag cfg = ghOnlyFlag cfg' → glOnlyFlag cfg = glOnlyFlag cfg' →
  afterPlatforms E words cfg w = afterPlatforms E words cfg' w.
Proof.
  intros Ho Hr Hu Hm Hgh Hgl. unfold afterPlatforms.
  generalize (log (clientErrors E) w).
  induction (rangeOrder E words) as [|x l IH]; intros w1; [done|].
  cbn [foldl]. by rewrite IH, (afterWord_search_flags E cfg cfg').
Qed.

Lemma processWord_cleanFlag word words cfg cfg' :
  cleanFlag cfg = cleanFlag cfg' →
  processWord word words cfg = processWord word words cfg'.
Proof. intros H. unfold processWord. by rewrite H. Qed.

Lemma inputWords_style E E' args w :
  sameButStyle E E' → inputWords E args w = inputWords E' args w.
Proof.
  intros (_ & _ & _ & _ & _ & Ht & _ & _ & _ & _ & _ & Hc & _).
  unfold inputWords. rewrite <- Ht.
  destruct (Nat.ltb 0 (length args)).
  - generalize (∅ : gset string).
    induction args as [|a l IH]; intros ws; [done|].
    cbn [foldl]. by rewrite IH, (processWord_cleanFlag _ _ _ (flags E')).
  - generalize (∅ : gset string).
    induction (stdin w) as [|a l IH]; intros ws; [done|].
    cbn [foldl]. by rewrite IH, (processWord_cleanFlag _ _ _ (flags E')).
Qed.

Lemma alike_afterReading E E' args w w' :
  alike w w' → alike (afterReading E args w) (afterReading E' args w').
Proof.
  intros Hw. unfold afterReading. cbv zeta.
  assert (∀ E0, Forall isPrint
            (verboseLine E0 ("Flags validated." +:+ nl)
             ++ verboseLine E0 ("Reading and cleaning words..." +:+ nl))) as Hp
    by (intros E0; apply Forall_app; split; apply verboseLine_prints).
  pose proof (alike_prints _ _ _ _ (Hp E) (Hp E') Hw) as (Hi & Hf & Ht).
  destruct (Nat.ltb 0 (length args)); [done|].
  repeat split; try done.
Qed.

(** X20.  The style flags [-s] and [-v], which only [verbosePrint] and
    [printResults] read, change the printed text and nothing else.  Two runs on the same
    arguments and input whose surroundings differ at most in these two
    flags end with the same exit outcome, leave the same files, consume
    the same input, and enter the same functions and send the same
    requests in the same order. *)
Theorem style_changes_only_printed_text (E E' : Env) (args : list string)
    (w : World) :
  sameButStyle E E' →
  (main args E w).1 = (main args E' w).1
  ∧ alike (main args E w).2 (main args E' w).2.
Proof.
  intros HS. rewrite !main_run. unfold afterMain.
  pose proof (inputWords_style E E' args w HS) as Hwords.
  pose proof HS as (_ & _ & _ & _ & _ & _ & He & Ho & Hr & Hu & Hm & _ & Hgh & Hgl).
  assert (anyCategory (flags E') = anyCategory (flags E)) as ->
    by (unfold anyCategory; by rewrite Ho, Hr, Hu).
  rewrite <- He, <- Hwords.
  rewrite <- (afterPlatforms_search_flags E' (flags E) (flags E')) by done.
  destruct (negb (anyCategory (flags E))).
  { split; [done|]. by apply alike_prints; [by repeat constructor..|]. }
  destruct (Nat.ltb 0 (length args) || isNil (stdinErr E)); cbn [fst snd].
  - split; [done|].
    apply alike_prints; [apply verboseLine_prints..|].
    apply alike_afterPlatforms; [done|].
    apply alike_prints;
      [apply Forall_app; split; apply verboseLine_prints..|].
    by apply alike_afterReading.
  - split; [done|].
    apply alike_prints; [by repeat constructor..|].
    by apply alike_afterReading.
Qed.

Lemma style_changes_only_printed_text_witness :
  sameButStyle (sampleEnv bothTokens (sampleFlags true true true false false))
    (sampleEnv bothTokens verboseFlags)
  ∧ (main ["acme"]
       (sampleEnv bothTokens (sampleFlags true true true false false)) world0).1
    = (main ["acme"] (sampleEnv bothTokens verboseFlags) world0).1
  ∧ alike
      (main ["acme"]
         (sampleEnv bothTokens (sampleFlags true true true false false)) world0).2
      (main ["acme"] (sampleEnv bothTokens verboseFlags) world0).2.
Proof.
  split; [repeat split; reflexivity|].
  apply (style_changes_only_printed_text _ _ ["acme"] world0).
  repeat split; reflexivity.
Defined.
